(** * Contour terminal core: LRU cache, VT parser table, DEC text locator,
      image fragments.

    Shallow embedding of
    - [src/crispy/LRUCache.h]            (module [LRU]),
    - [src/terminal/Parser-impl.h]       (module [VTParser]),
    - [src/terminal/DECTextLocator.{h,cpp}] (module [Locator]),
    - [src/terminal/Image.h]             (module [Images]),
    and the properties of the specification that concern them. *)

From Stdlib Require Import ZArith NArith Lia Bool List Ascii String.
From Stdlib.Strings Require Import Byte.
From Stdlib Require Import DecimalString.
From stdpp Require Import base option list gmap.

Local Open Scope N_scope.

(** ** A state-and-fault monad for the container code

    C++ code that indexes a vector outside its bounds, dereferences an
    [end()] iterator or fails an [assert] has no defined continuation;
    [at] throws [std::out_of_range].  All three are made explicit. *)

Inductive fault : Type :=
| OutOfRange      (* std::out_of_range thrown by [at] *)
| BadIndex        (* subscript or pointer outside the object *)
| AssertFailed    (* assert(...) does not hold *)
| Diverged.       (* a loop does not end *)

Inductive result (S A : Type) : Type :=
| Done (a : A) (s : S)
| Fail (f : fault).
Arguments Done {S A} a s.
Arguments Fail {S A} f.

Definition M (S A : Type) : Type := S -> result S A.

Definition ret {S A} (a : A) : M S A := fun s => Done a s.
Definition bind {S A B} (m : M S A) (k : A -> M S B) : M S B :=
  fun s => match m s with
           | Done a s' => k a s'
           | Fail f => Fail f
           end.
Definition raise {S A} (f : fault) : M S A := fun _ => Fail f.
Definition gets {S A} (proj : S -> A) : M S A := fun s => Done (proj s) s.
Definition modify {S} (upd : S -> S) : M S unit := fun s => Done tt (upd s).
Definition assert {S} (b : bool) : M S unit :=
  if b then ret tt else raise AssertFailed.

Notation "'let*' x ':=' m 'in' k" := (bind m (fun x => k))
  (at level 10, x pattern, m at level 100, k at level 200, only parsing).
Notation "m ';;;' k" := (bind m (fun _ => k))
  (at level 100, k at level 200, right associativity, only parsing).

(** ** crispy::LRUCache

    The class template is modelled for any key type that can index a
    hash map and any value type.  [assert]s are executed, as in the
    build the tests run; a value that has been moved is not used
    again, so [std::move] of a value is a copy; a key that has been
    moved is used again, and [moved_from] below is what it then holds;
    the debug output to [std::cout] is left out, but the subscripts it
    evaluates are kept. *)

Module LRU.

(** [size_t(-1)] on a 64-bit target. *)
Definition npos : N := 18446744073709551615.

(** What [std::move] leaves behind.  [prepend_internal] moves its
    parameter [_key] into the slot and then uses [_key] again as the
    key of the mapping.  What a moved-from key holds depends on the key
    type: the same value for [int] and every other type whose move is
    a copy; for a class type, whatever its move assignment leaves in
    the source (for [std::string], in the usual libraries, the empty
    string).  [moved_from k] is what a key that held [k] holds after
    the move. *)
Class Movable (Key : Type) : Type := moved_from : Key -> Key.

Section Cache.
Context {Key : Type} `{Countable Key} `{Movable Key} {Value : Type}.
(** [Key{}] and [Value{}], the value-initialised key and value. *)
Variable key_default : Key.
Variable value_default : Value.

Record Item : Type := mkItem {
  key : Key;
  value : Value;
  prev : N;
  next : N
}.

(** [Item::clear()]: [*this = Item{}]. *)
Definition Item_clear (_ : Item) : Item :=
  mkItem key_default value_default npos npos.

Record LRUCache : Type := mkCache {
  items_ : list Item;
  head_ : N;
  tail_ : N;
  itemByKeyMapping_ : gmap Key N;
  capacity_ : N
}.

(** [explicit LRUCache(std::size_t _capacity)]. *)
Definition create (_capacity : N) : LRUCache :=
  mkCache (replicate (N.to_nat _capacity) (mkItem key_default value_default npos npos))
          npos npos ∅ _capacity.

Definition size (c : LRUCache) : N := N.of_nat (base.size (itemByKeyMapping_ c)).
Definition capacity (c : LRUCache) : N := capacity_ c.

Definition in_range (c : LRUCache) (i : N) : bool :=
  i <? N.of_nat (length (items_ c)).

(** [items_[i]] as an rvalue. *)
Definition item_at (c : LRUCache) (i : N) : option Item :=
  if in_range c i then items_ c !! N.to_nat i else None.

Definition read_item (i : N) : M LRUCache Item :=
  fun c => match item_at c i with
           | Some it => Done it c
           | None => Fail BadIndex
           end.

(** [items_[i].field = ...] as an lvalue. *)
Definition upd_item (i : N) (f : Item -> Item) (c : LRUCache) : LRUCache :=
  mkCache (alter f (N.to_nat i) (items_ c))
          (head_ c) (tail_ c) (itemByKeyMapping_ c) (capacity_ c).

Definition write_item (i : N) (f : Item -> Item) : M LRUCache unit :=
  fun c => if in_range c i then Done tt (upd_item i f c) else Fail BadIndex.

Definition with_key (k : Key) (it : Item) := mkItem k (value it) (prev it) (next it).
Definition with_value (v : Value) (it : Item) := mkItem (key it) v (prev it) (next it).
Definition with_prev (p : N) (it : Item) := mkItem (key it) (value it) p (next it).
Definition with_next (n : N) (it : Item) := mkItem (key it) (value it) (prev it) n.

Definition put_head (h : N) (c : LRUCache) : LRUCache :=
  mkCache (items_ c) h (tail_ c) (itemByKeyMapping_ c) (capacity_ c).
Definition put_tail (t : N) (c : LRUCache) : LRUCache :=
  mkCache (items_ c) (head_ c) t (itemByKeyMapping_ c) (capacity_ c).
Definition put_mapping (m : gmap Key N) (c : LRUCache) : LRUCache :=
  mkCache (items_ c) (head_ c) (tail_ c) m (capacity_ c).

Definition set_head (h : N) : M LRUCache unit := modify (put_head h).
Definition set_tail (t : N) : M LRUCache unit := modify (put_tail t).
Definition set_mapping (m : gmap Key N) : M LRUCache unit := modify (put_mapping m).

(** [std::unordered_map::emplace]: no effect when the key is present. *)
Definition map_emplace (k : Key) (i : N) (m : gmap Key N) : gmap Key N :=
  match m !! k with
  | Some _ => m
  | None => <[k := i]> m
  end.

(** [clear()]: the loop bound [size()] is the mapping's size, which the
    loop does not change; the mapping is emptied afterwards.  [head_]
    and [tail_] are not assigned. *)
Fixpoint clear_loop (n : nat) (i : N) : M LRUCache unit :=
  match n with
  | O => ret tt
  | S n' => write_item i Item_clear ;;; clear_loop n' (i + 1)
  end.

Definition clear : M LRUCache unit :=
  let* n := gets size in
  clear_loop (N.to_nat n) 0 ;;;
  set_mapping ∅.

(** [try_get(Key)]: the returned [Value*] is modelled by the index of
    the slot it points into; [None] is [nullptr].  The two debug
    prints are kept as the reads they perform. *)
Definition try_get (_key : Key) : M LRUCache (option N) :=
  let* m := gets itemByKeyMapping_ in
  match m !! _key with
  | Some newHead =>
      read_item newHead ;;;
      let* head := gets head_ in
      (if negb (newHead =? head) then
         write_item head (with_prev newHead) ;;;
         let* nh := read_item newHead in
         write_item head (with_next (next nh)) ;;;
         write_item newHead (with_next head) ;;;
         write_item newHead (with_prev npos) ;;;
         set_head newHead ;;;
         assert (negb (newHead =? npos))
       else ret tt) ;;;
      read_item newHead ;;;
      ret (Some newHead)
  | None => ret None
  end.

(** [touch(Key)]. *)
Definition touch (_key : Key) : M LRUCache unit :=
  try_get _key ;;; ret tt.

(** [contains(Key) const]: goes through the non-const [try_get]. *)
Definition contains (_key : Key) : M LRUCache bool :=
  let* p := try_get _key in
  ret (match p with Some _ => true | None => false end).

(** [at(Key)]: the reference returned is read at once. *)
Definition at_ (_key : Key) : M LRUCache Value :=
  let* p := try_get _key in
  match p with
  | Some i => let* it := read_item i in ret (value it)
  | None => raise OutOfRange
  end.

(** [prepend_internal(Key, Value)]: the slot receives [_key] by
    [items_[newHead].key = std::move(_key)], and the mapping is then
    keyed by what is left in [_key]. *)
Definition prepend_internal (_key : Key) (_value : Value) : M LRUCache unit :=
  let* sz := gets size in
  let* cap := gets capacity_ in
  assert (sz <? cap) ;;;
  let newHead := sz in
  write_item newHead (with_key _key) ;;;
  write_item newHead (with_value _value) ;;;
  let* head := gets head_ in
  write_item newHead (with_next head) ;;;
  (if negb (head =? npos) then write_item head (with_prev newHead) else ret tt) ;;;
  set_head newHead ;;;
  let* tail := gets tail_ in
  (if tail =? npos then set_tail newHead else ret tt) ;;;
  let* tail' := gets tail_ in
  assert (negb (newHead =? npos)) ;;;
  assert (negb (tail' =? npos)) ;;;
  let* m := gets itemByKeyMapping_ in
  set_mapping (map_emplace (moved_from _key) newHead m).

(** [evict_one_and_push_front(Key)]: returns (the index of) the slot
    whose [Item&] the source returns. *)
Definition evict_one_and_push_front (_newKey : Key) : M LRUCache N :=
  let* tail := gets tail_ in
  let* tl := read_item tail in
  let* m := gets itemByKeyMapping_ in
  match m !! key tl with
  | None => raise AssertFailed
  | Some newHead =>
      let* tl := read_item tail in
      let newTail := prev tl in
      set_mapping (map_emplace _newKey newHead (delete (key tl) m)) ;;;
      let* head := gets head_ in
      write_item head (with_prev newHead) ;;;
      write_item newHead (with_prev npos) ;;;
      write_item newHead (with_key _newKey) ;;;
      write_item newHead (with_next head) ;;;
      write_item newTail (with_next npos) ;;;
      set_head newHead ;;;
      set_tail newTail ;;;
      assert (negb (newHead =? npos)) ;;;
      assert (negb (newTail =? npos)) ;;;
      read_item newHead ;;;
      ret newHead
  end.

(** [emplace(Key, Value)]. *)
Definition emplace (_key : Key) (_value : Value) : M LRUCache unit :=
  let* present := contains _key in
  assert (negb present) ;;;
  let* sz := gets size in
  let* cap := gets capacity_ in
  if sz =? cap then
    let* slot := evict_one_and_push_front _key in
    write_item slot (with_value _value)
  else
    prepend_internal _key _value ;;;
    let* head := gets head_ in
    read_item head ;;; ret tt.

(** [try_emplace(Key, ValueConstructFn)]: [_value] is what
    [_constructValue()] returns. *)
Definition try_emplace (_key : Key) (_value : Value) : M LRUCache bool :=
  let* p := try_get _key in
  match p with
  | Some _ => ret false
  | None =>
      let* sz := gets size in
      let* cap := gets capacity_ in
      (if sz =? cap then
         let* slot := evict_one_and_push_front _key in
         write_item slot (with_value _value)
       else
         prepend_internal _key _value) ;;;
      ret true
  end.

(** The loop of [repr(std::ostream&)], kept for the subscripts it
    evaluates.  It changes nothing, so once it has visited more slots
    than the vector has it is on a cycle of the links and never
    ends. *)
Fixpoint repr_loop (fuel : nat) (pos : N) : M LRUCache unit :=
  if pos =? npos then ret tt
  else match fuel with
       | O => raise Diverged
       | S fuel' => let* it := read_item pos in repr_loop fuel' (next it)
       end.

Definition repr : M LRUCache unit :=
  let* head := gets head_ in
  let* n := gets (fun c => length (items_ c)) in
  repr_loop (S n) head.

(** [get_or_emplace(Key, ValueConstructFn)]: the reference returned
    is read at once. *)
Definition get_or_emplace (_key : Key) (_value : Value) : M LRUCache Value :=
  let* p := try_get _key in
  match p with
  | Some i => let* it := read_item i in ret (value it)
  | None =>
      emplace _key _value ;;;
      let* head := gets head_ in
      repr ;;;
      let* it := read_item head in
      ret (value it)
  end.

(** [operator[](Key)] followed by an assignment through the returned
    reference, as in [cache[k] = v]. *)
Definition subscript_assign (_key : Key) (_value : Value) : M LRUCache unit :=
  let* p := try_get _key in
  match p with
  | Some i => write_item i (with_value _value)
  | None =>
      emplace _key value_default ;;;
      let* head := gets head_ in
      write_item head (with_value _value)
  end.

(** The loop of [keys()]:
    [for (pos = head_; pos != npos; pos = items_[pos].next)].
    [keys()] stores into [result[i++]], a vector of [size()]
    elements; [room] is the number of elements not yet written, and
    a store with no room left is outside the vector. *)
Fixpoint keys_loop (room : nat) (pos : N) (c : LRUCache) : result LRUCache (list Key) :=
  if pos =? npos then Done [] c
  else match room with
       | O => Fail BadIndex
       | S room' =>
           match item_at c pos with
           | None => Fail BadIndex
           | Some it =>
               match keys_loop room' (next it) c with
               | Done ks c' => Done (key it :: ks) c'
               | Fail f => Fail f
               end
           end
       end.

(** [keys()]: the slots of [result] beyond the last one written keep
    the value-initialised key. *)
Definition keys : M LRUCache (list Key) :=
  fun c =>
    let n := N.to_nat (size c) in
    match keys_loop n (head_ c) c with
    | Done ks c' => Done (ks ++ replicate (n - length ks) key_default) c'
    | Fail f => Fail f
    end.

(** [begin()] and [end()]: the range they delimit, the first
    [size()] elements of [items_].  [std::next(items_.begin(), size())]
    is an iterator of the vector only if [size()] is at most its
    length. *)
Definition begin_end : M LRUCache (list Item) :=
  let* n := gets size in
  let* len := gets (fun c => N.of_nat (length (items_ c))) in
  if n <=? len then gets (fun c => take (N.to_nat n) (items_ c))
  else raise BadIndex.

(** The positions [repr()] prints, in order; the loop writes nothing,
    so it only stops at [npos] or on a subscript outside the vector.
    [fuel] bounds the number of positions listed. *)
Fixpoint chain (fuel : nat) (pos : N) (c : LRUCache) : list N :=
  match fuel with
  | O => []
  | S fuel' =>
      if pos =? npos then []
      else match item_at c pos with
           | None => [pos]
           | Some it => pos :: chain fuel' (next it) c
           end
  end.

End Cache.

End LRU.

(** ** terminal::parser::Parser and its transition table *)

Module State.
(** Modelled from the spec: [Parser.h], which declares [enum class
    State], is not part of the sources at hand; the enumerators are
    the states the specification lists, preceded by [Undefined],
    which [Parser-impl.h] tests for. *)
Inductive t : Type :=
| Undefined
| Ground
| Escape
| EscapeIntermediate
| CSI_Entry
| CSI_Param
| CSI_Intermediate
| CSI_Ignore
| DCS_Entry
| DCS_Param
| DCS_Intermediate
| DCS_PassThrough
| DCS_Ignore
| OSC_String
| APC_String
| PM_String
| IgnoreUntilST.

(** [static_cast<size_t>(state)]. *)
Definition index (s : t) : N :=
  match s with
  | Undefined => 0 | Ground => 1 | Escape => 2 | EscapeIntermediate => 3
  | CSI_Entry => 4 | CSI_Param => 5 | CSI_Intermediate => 6 | CSI_Ignore => 7
  | DCS_Entry => 8 | DCS_Param => 9 | DCS_Intermediate => 10
  | DCS_PassThrough => 11 | DCS_Ignore => 12 | OSC_String => 13
  | APC_String => 14 | PM_String => 15 | IgnoreUntilST => 16
  end.

Definition eqb (a b : t) : bool := index a =? index b.

Definition all : list t :=
  [Undefined; Ground; Escape; EscapeIntermediate; CSI_Entry; CSI_Param;
   CSI_Intermediate; CSI_Ignore; DCS_Entry; DCS_Param; DCS_Intermediate;
   DCS_PassThrough; DCS_Ignore; OSC_String; APC_String; PM_String;
   IgnoreUntilST].
End State.

Module Action.
(** Modelled from the spec: [enum class Action] of the absent
    [Parser.h]; the enumerators are those [Parser::handle] switches
    over. *)
Inductive t : Type :=
| Undefined
| Ignore
| Execute
| Print
| Clear
| Collect
| CollectLeader
| Param
| ParamDigit
| ParamSeparator
| ParamSubSeparator
| ESC_Dispatch
| CSI_Dispatch
| Hook
| Put
| Unhook
| OSC_Start
| OSC_Put
| OSC_End
| APC_Start
| APC_Put
| APC_End
| PM_Start
| PM_Put
| PM_End.

Definition is_undefined (a : t) : bool :=
  match a with Undefined => true | _ => false end.
End Action.

Module VTParser.

(** Modelled from the spec: [struct Range] of the absent [Parser.h].
    An argument of [ParserTable::event] or [ParserTable::transition] is
    a single [uint8_t] or a [Range { first, last }], both ends
    included. *)
Inductive Input : Type :=
| One (b : byte)
| Range (first last : byte).

Definition covers (i : Input) (b : byte) : bool :=
  match i with
  | One b' => Byte.eqb b' b
  | Range first last =>
      (Byte.to_N first <=? Byte.to_N b) && (Byte.to_N b <=? Byte.to_N last)
  end.

(** Modelled from the spec: [struct ParserTable] and its builders
    [entry], [exit], [event] and [transition] are declared in the
    absent [Parser.h]; the specification's "static 2D table indexed by
    (state, byte) giving next state, plus per-state entry action,
    per-state exit action, and per-(state,byte) event action" is what
    is written here, the four arrays as functions of their indices. *)
Record ParserTable : Type := mkTable {
  transitions : State.t -> byte -> State.t;
  entryEvents : State.t -> Action.t;
  exitEvents : State.t -> Action.t;
  events : State.t -> byte -> Action.t
}.

(** Modelled from the spec: [ParserTable {}], every array filled with
    [Undefined]. *)
Definition empty_table : ParserTable :=
  mkTable (fun _ _ => State.Undefined) (fun _ => Action.Undefined)
          (fun _ => Action.Undefined) (fun _ _ => Action.Undefined).

(** Modelled from the spec: [t.entry(state, action)] sets the entry
    action of a state. *)
Definition entry (s : State.t) (a : Action.t) (t : ParserTable) : ParserTable :=
  mkTable (transitions t)
          (fun s' => if State.eqb s' s then a else entryEvents t s')
          (exitEvents t) (events t).

(** Modelled from the spec: [t.exit(state, action)] sets the exit
    action of a state. *)
Definition exit (s : State.t) (a : Action.t) (t : ParserTable) : ParserTable :=
  mkTable (transitions t) (entryEvents t)
          (fun s' => if State.eqb s' s then a else exitEvents t s')
          (events t).

(** Modelled from the spec: [t.event(state, action, input)] sets the
    action of a state on a byte, or on every byte of a range. *)
Definition event1 (s : State.t) (a : Action.t) (i : Input) (t : ParserTable) : ParserTable :=
  mkTable (transitions t) (entryEvents t) (exitEvents t)
          (fun s' b => if State.eqb s' s && covers i b then a else events t s' b).

(** Modelled from the spec: [t.event(state, action, input, more...)],
    the arguments one after the other. *)
Definition event (s : State.t) (a : Action.t) (inputs : list Input) (t : ParserTable)
  : ParserTable :=
  fold_left (fun t i => event1 s a i t) inputs t.

(** Modelled from the spec: [t.transition(from, to, input)] sets the
    next state of a state on a byte, or on every byte of a range. *)
Definition transition (from to : State.t) (i : Input) (t : ParserTable) : ParserTable :=
  mkTable (fun s' b => if State.eqb s' from && covers i b then to else transitions t s' b)
          (entryEvents t) (exitEvents t) (events t).

(** Modelled from the spec: [t.transition(from, to, action, input)]
    sets the action, then the next state. *)
Definition transition_by (from to : State.t) (a : Action.t) (i : Input) (t : ParserTable)
  : ParserTable :=
  transition from to i (event1 from a i t).

(** Modelled from the spec: the bounds of
    [for (State anywhere = numeric_limits<State>::min(); anywhere <=
    numeric_limits<State>::max(); ++anywhere)] are declared in the
    absent [Parser.h]; "from any state" is taken as every state the
    specification lists, [Ground] to [IgnoreUntilST]. *)
Definition anywhere_states : list State.t :=
  [State.Ground; State.Escape; State.EscapeIntermediate; State.CSI_Entry;
   State.CSI_Param; State.CSI_Intermediate; State.CSI_Ignore; State.DCS_Entry;
   State.DCS_Param; State.DCS_Intermediate; State.DCS_PassThrough;
   State.DCS_Ignore; State.OSC_String; State.APC_String; State.PM_String;
   State.IgnoreUntilST].

(** [auto constexpr UnicodeRange = Range { 0x80, 0xFF }]. *)
Definition UnicodeRange : Input := Range x80 xff.

(** The arguments [Range { 0x00_b, 0x17_b }, 0x19_b, Range { 0x1C_b,
    0x1F_b }] that most states start with. *)
Definition c0_controls : list Input := [Range x00 x17; One x19; Range x1c x1f].

(** [ParserTable::get()], statement by statement. *)
Definition get : ParserTable :=
  let build (steps : list (ParserTable -> ParserTable)) :=
    fold_left (fun t step => step t) steps empty_table in
  build (
    (* Ground *)
    [ event State.Ground Action.Execute c0_controls;
      event State.Ground Action.Print [Range x20 x7f];
      event State.Ground Action.Print [Range xa0 xff];
      event State.Ground Action.Print [UnicodeRange];
    (* EscapeIntermediate *)
      event State.EscapeIntermediate Action.Execute c0_controls;
      event State.EscapeIntermediate Action.Collect [Range x20 x2f];
      event State.EscapeIntermediate Action.Ignore [One x7f];
      transition_by State.EscapeIntermediate State.Ground Action.ESC_Dispatch (Range x30 x7e);
    (* Escape *)
      entry State.Escape Action.Clear;
      event State.Escape Action.Execute c0_controls;
      event State.Escape Action.Ignore [One x7f];
      transition State.Escape State.IgnoreUntilST (One x58);
      transition State.Escape State.PM_String (One x5e);
      transition State.Escape State.APC_String (One x5f);
      transition State.Escape State.DCS_Entry (One x50);
      transition State.Escape State.OSC_String (One x5d);
      transition State.Escape State.CSI_Entry (One x5b);
      transition_by State.Escape State.Ground Action.ESC_Dispatch (Range x30 x4f);
      transition_by State.Escape State.Ground Action.ESC_Dispatch (Range x51 x57);
      transition_by State.Escape State.Ground Action.ESC_Dispatch (One x59);
      transition_by State.Escape State.Ground Action.ESC_Dispatch (One x5a);
      transition_by State.Escape State.Ground Action.Ignore (One x5c);
      transition_by State.Escape State.Ground Action.ESC_Dispatch (Range x60 x7e);
      transition_by State.Escape State.EscapeIntermediate Action.Collect (Range x20 x2f);
    (* IgnoreUntilST *)
      event State.IgnoreUntilST Action.Ignore c0_controls;
    (* DCS_Entry *)
      entry State.DCS_Entry Action.Clear;
      event State.DCS_Entry Action.Ignore c0_controls;
      event State.DCS_Entry Action.Ignore [One x7f];
      transition_by State.DCS_Entry State.DCS_Intermediate Action.Collect (Range x20 x2f);
      transition State.DCS_Entry State.DCS_Ignore (One x3a);
      transition_by State.DCS_Entry State.DCS_Param Action.Param (Range x30 x39);
      transition_by State.DCS_Entry State.DCS_Param Action.Param (One x3b);
      transition_by State.DCS_Entry State.DCS_Param Action.CollectLeader (Range x3c x3f);
      transition State.DCS_Entry State.DCS_PassThrough (Range x40 x7e);
    (* DCS_Ignore *)
      event State.DCS_Ignore Action.Ignore (c0_controls ++ [Range x20 x7f]);
      event State.DCS_Ignore Action.Print [Range xa0 xff];
      event State.DCS_Ignore Action.Print [UnicodeRange];
    (* DCS_Intermediate *)
      event State.DCS_Intermediate Action.Ignore c0_controls;
      event State.DCS_Intermediate Action.Collect [Range x20 x2f];
      event State.DCS_Intermediate Action.Ignore [One x7f];
      transition State.DCS_Intermediate State.DCS_PassThrough (Range x40 x7e);
    (* DCS_PassThrough *)
      entry State.DCS_PassThrough Action.Hook;
      event State.DCS_PassThrough Action.Put (c0_controls ++ [Range x20 x7e]);
      event State.DCS_PassThrough Action.Ignore [One x7f];
      exit State.DCS_PassThrough Action.Unhook;
    (* DCS_Param *)
      event State.DCS_Param Action.Execute c0_controls;
      event State.DCS_Param Action.Param [Range x30 x39; One x3b];
      event State.DCS_Param Action.Ignore [One x7f];
      transition State.DCS_Param State.DCS_Ignore (One x3a);
      transition State.DCS_Param State.DCS_Ignore (Range x3c x3f);
      transition State.DCS_Param State.DCS_Intermediate (Range x20 x2f);
      transition State.DCS_Param State.DCS_PassThrough (Range x40 x7e);
    (* OSC_String (xterm extension: BEL also terminates) *)
      entry State.OSC_String Action.OSC_Start;
      event State.OSC_String Action.Ignore
            [Range x00 x06; Range x08 x17; One x19; Range x1c x1f];
      event State.OSC_String Action.OSC_Put [Range x20 x7f];
      event State.OSC_String Action.OSC_Put [Range xa0 xff];
      event State.OSC_String Action.OSC_Put [UnicodeRange];
      exit State.OSC_String Action.OSC_End;
      transition State.OSC_String State.Ground (One x07);
    (* APC_String *)
      entry State.APC_String Action.APC_Start;
      event State.APC_String Action.APC_Put [Range x20 x7f];
      event State.APC_String Action.APC_Put [Range xa0 xff];
      event State.APC_String Action.APC_Put [UnicodeRange];
      exit State.APC_String Action.APC_End;
      transition State.APC_String State.Ground (One x07);
    (* PM_String *)
      entry State.PM_String Action.PM_Start;
      event State.PM_String Action.PM_Put
            (c0_controls ++ [Range x20 x7f; Range xa0 xff]);
      event State.PM_String Action.PM_Put [UnicodeRange];
      exit State.PM_String Action.PM_End;
      transition State.PM_String State.Ground (One x07);
    (* CSI_Entry *)
      entry State.CSI_Entry Action.Clear;
      event State.CSI_Entry Action.Execute c0_controls;
      event State.CSI_Entry Action.Ignore [One x7f];
      transition_by State.CSI_Entry State.Ground Action.CSI_Dispatch (Range x40 x7e);
      transition_by State.CSI_Entry State.CSI_Intermediate Action.Collect (Range x20 x2f);
      transition State.CSI_Entry State.CSI_Ignore (One x3a);
      transition_by State.CSI_Entry State.CSI_Param Action.ParamDigit (Range x30 x39);
      transition_by State.CSI_Entry State.CSI_Param Action.ParamSeparator (One x3b);
      transition_by State.CSI_Entry State.CSI_Param Action.CollectLeader (Range x3c x3f);
    (* CSI_Param *)
      event State.CSI_Param Action.Execute c0_controls;
      event State.CSI_Param Action.ParamDigit [Range x30 x39];
      event State.CSI_Param Action.ParamSubSeparator [One x3a];
      event State.CSI_Param Action.ParamSeparator [One x3b];
      event State.CSI_Param Action.Ignore [One x7f];
      transition State.CSI_Param State.CSI_Ignore (Range x3c x3f);
      transition_by State.CSI_Param State.CSI_Intermediate Action.Collect (Range x20 x2f);
      transition_by State.CSI_Param State.Ground Action.CSI_Dispatch (Range x40 x7e);
    (* CSI_Ignore *)
      event State.CSI_Ignore Action.Execute c0_controls;
      event State.CSI_Ignore Action.Ignore [Range x20 x3f; One x7f];
      transition State.CSI_Ignore State.Ground (Range x40 x7e);
    (* CSI_Intermediate *)
      event State.CSI_Intermediate Action.Execute c0_controls;
      event State.CSI_Intermediate Action.Collect [Range x20 x2f];
      event State.CSI_Intermediate Action.Ignore [One x7f];
      transition State.CSI_Intermediate State.CSI_Ignore (Range x30 x3f);
      transition_by State.CSI_Intermediate State.Ground Action.CSI_Dispatch (Range x40 x7e) ]
    (* * -> Ground, ... *)
    ++ flat_map (fun anywhere =>
         [ transition anywhere State.Ground (One x18);
           transition anywhere State.Ground (One x1a);
           transition anywhere State.Escape (One x1b) ]) anywhere_states).

(** The calls the parser makes on its [EventListener], in the order
    it makes them.  [error]'s formatted message is kept as the state
    and byte it is formatted from. *)
Inductive Event : Type :=
| print_text (text : list byte) (cellCount : nat)
| print (ch : byte)
| execute (ch : byte)
| clear
| collect (ch : byte)
| collectLeader (ch : byte)
| param (ch : byte)
| paramDigit (ch : byte)
| paramSeparator
| paramSubSeparator
| dispatchESC (ch : byte)
| dispatchCSI (ch : byte)
| startOSC
| putOSC (ch : byte)
| dispatchOSC
| hook (ch : byte)
| put (ch : byte)
| unhook
| startAPC
| putAPC (ch : byte)
| dispatchAPC
| startPM
| putPM (ch : byte)
| dispatchPM
| error (state : State.t) (ch : byte).

(** Modelled from the spec: [class Parser] is declared in the absent
    [Parser.h]; of its members [parseFragment] uses the current state,
    the column budget handed to the text scanner, and the listener,
    which is kept as the log of the calls made on it. *)
Record Parser : Type := mkParser {
  state_ : State.t;
  maxCharCount : nat;
  eventListener_ : list Event
}.

(** A parser as constructed: in [Ground], nothing emitted yet. *)
Definition initial (budget : nat) : Parser := mkParser State.Ground budget [].

Definition emit (e : Event) : M Parser unit :=
  modify (fun p => mkParser (state_ p) (maxCharCount p) (eventListener_ p ++ [e])).

Definition set_state (s : State.t) : M Parser unit :=
  modify (fun p => mkParser s (maxCharCount p) (eventListener_ p)).

(** The [switch] of [Parser::handle]: the listener call an action
    stands for; [Ignore] and [Undefined] stand for none. *)
Definition listener_call (a : Action.t) (ch : byte) : option Event :=
  match a with
  | Action.Clear => Some clear
  | Action.CollectLeader => Some (collectLeader ch)
  | Action.Collect => Some (collect ch)
  | Action.Param => Some (param ch)
  | Action.ParamDigit => Some (paramDigit ch)
  | Action.ParamSeparator => Some paramSeparator
  | Action.ParamSubSeparator => Some paramSubSeparator
  | Action.Execute => Some (execute ch)
  | Action.ESC_Dispatch => Some (dispatchESC ch)
  | Action.CSI_Dispatch => Some (dispatchCSI ch)
  | Action.Print => Some (print ch)
  | Action.OSC_Start => Some startOSC
  | Action.OSC_Put => Some (putOSC ch)
  | Action.OSC_End => Some dispatchOSC
  | Action.Hook => Some (hook ch)
  | Action.Put => Some (put ch)
  | Action.Unhook => Some unhook
  | Action.APC_Start => Some startAPC
  | Action.APC_Put => Some (putAPC ch)
  | Action.APC_End => Some dispatchAPC
  | Action.PM_Start => Some startPM
  | Action.PM_Put => Some (putPM ch)
  | Action.PM_End => Some dispatchPM
  | Action.Ignore | Action.Undefined => None
  end.

(** [Parser::handle(ActionClass, Action, uint8_t)]. *)
Definition handle (a : Action.t) (ch : byte) : M Parser unit :=
  match listener_call a ch with
  | Some e => emit e
  | None => ret tt
  end.

(** The table-driven part of one loop iteration of [parseFragment]
    (from [auto const ch = ...] to the end of the loop body). *)
Definition dispatch (table : ParserTable) (ch : byte) : M Parser unit :=
  let* s := gets state_ in
  let t := transitions table s ch in
  if negb (State.eqb t State.Undefined) then
    handle (exitEvents table s) ch ;;;
    handle (events table s ch) ch ;;;
    set_state t ;;;
    handle (entryEvents table t) ch
  else
    let a := events table s ch in
    if negb (Action.is_undefined a) then handle a ch
    else emit (error s ch).

Section Scanner.
(** [unicode::scan_for_text_ascii(chunk, maxCharCount)], the scanner
    of the build without [LIBTERMINAL_SCAN_UNICODE], belongs to
    libunicode, not to this repository; it is a parameter here.  It
    returns the number of leading bytes of [chunk] that are text. *)
Variable scan_for_text_ascii : list byte -> nat -> nat.

(** One iteration of the [do { ... } while (input != end)] loop;
    the result is the input left.  The scanner is only consulted in
    [Ground].  Reading [*input] with nothing left is a read past the
    end of the buffer. *)
Definition iteration (input : list byte) : M Parser (list byte) :=
  let* s := gets state_ in
  let* budget := gets maxCharCount in
  let cellCount := scan_for_text_ascii input budget in
  if State.eqb s State.Ground && (0 <? cellCount)%nat then
    (* next = input + cellCount *)
    let byteCount := cellCount in
    assert (byteCount <=? length input)%nat ;;;
    assert (cellCount <=? budget)%nat ;;;
    emit (print_text (take byteCount input) cellCount) ;;;
    match drop byteCount input with
    | ch :: rest =>
        if Byte.eqb ch x0a then emit (execute ch) ;;; ret rest
        else ret (ch :: rest)
    | [] => ret []
    end
  else
    match input with
    | [] => raise BadIndex
    | ch :: rest => dispatch get ch ;;; ret rest
    end.

(** The loop itself; [fuel] bounds the number of iterations. *)
Fixpoint parse_loop (fuel : nat) (input : list byte) : M Parser unit :=
  match fuel with
  | O => raise Diverged
  | S fuel' =>
      let* rest := iteration input in
      match rest with
      | [] => ret tt
      | _ => parse_loop fuel' rest
      end
  end.

(** [Parser::parseFragment(std::string_view)]: an iteration that
    returns has consumed a byte, so one more than the length of the
    fragment is fuel enough. *)
Definition parseFragment (data : list byte) : M Parser unit :=
  parse_loop (S (length data)) data.

(** Feeding the fragments of a stream one after the other. *)
Fixpoint feed (fragments : list (list byte)) : M Parser unit :=
  match fragments with
  | [] => ret tt
  | data :: more => parseFragment data ;;; feed more
  end.
End Scanner.

(** A scanner in the spirit of libunicode's, used to run the parser on
    concrete inputs: the length of the longest prefix of bytes in
    [0x20, 0x7F], cut at the column budget. *)
Fixpoint scan_printable (chunk : list byte) (budget : nat) : nat :=
  match chunk, budget with
  | b :: rest, S budget' =>
      if (32 <=? Byte.to_N b) && (Byte.to_N b <=? 127)
      then S (scan_printable rest budget')
      else O
  | _, _ => O
  end.

End VTParser.

(** ** terminal::DECTextLocator *)

Module MouseButton.
(** Modelled from the spec: [enum class MouseButton] is declared in
    the absent [primitives.h]; the enumerators are those
    [makeEvent] switches over.  Their numeric values are a parameter
    of the model ([button_code] below). *)
Inductive t : Type := None | Left | Middle | Right | WheelUp | WheelDown.
End MouseButton.

Module Locator.

Local Open Scope Z_scope.
Local Open Scope string_scope.

(** [enum class DECLocatorEvent] with its enumerator values. *)
Inductive DECLocatorEvent : Type := Explicit | ButtonDown | ButtonUp.

(** [static_cast<uint32_t>(event)]. *)
Definition DECLocatorEvent_value (e : DECLocatorEvent) : Z :=
  match e with
  | Explicit => 0x00
  | ButtonDown => 0x01
  | ButtonUp => 0x02
  end.

Inductive DECLocatorReportingMode : Type :=
| Disabled | Enabled | EnabledOnce | FilterRectangular.

(** Modelled from the spec: [CoordinateUnits] comes from the absent
    [primitives.h]; "coordinate units: cells or pixels". *)
Inductive CoordinateUnits : Type := Cells | Pixels.

(** Modelled from the spec: [CellLocation] of the absent
    [primitives.h], a line offset and a column offset. *)
Record CellLocation : Type := mkCell { line : Z; column : Z }.

(** Modelled from the spec: [MousePixelPosition] of the absent
    [primitives.h], the pixel column [x] and the pixel row [y]. *)
Record MousePixelPosition : Type := mkPixel { x : Z; y : Z }.

(** Modelled from the spec: [DECLocatorRectangle] derives from [Rect]
    of the absent [primitives.h]; the locator only stores it. *)
Record DECLocatorRectangle : Type :=
  mkRect { top : Z; left : Z; bottom : Z; right : Z }.

(** The anonymous-namespace [enum class Event] of the .cpp file. *)
Inductive Event : Type :=
| LocatorUnavailable | Request
| LeftButtonDown | LeftButtonUp
| MiddleButtonDown | MiddleButtonUp
| RightButtonDown | RightButtonUp
| WheelDown | WheelUp
| LocatorOutsideFilterRect.

Definition Event_value (e : Event) : Z :=
  match e with
  | LocatorUnavailable => 0 | Request => 1
  | LeftButtonDown => 2 | LeftButtonUp => 3
  | MiddleButtonDown => 4 | MiddleButtonUp => 5
  | RightButtonDown => 6 | RightButtonUp => 7
  | WheelDown => 8 | WheelUp => 9
  | LocatorOutsideFilterRect => 10
  end.

(** [makeEvent(MouseButton, bool)]. *)
Definition makeEvent (button : MouseButton.t) (pressed : bool) : Event :=
  match button with
  | MouseButton.None => LocatorUnavailable
  | MouseButton.Left => if pressed then LeftButtonDown else LeftButtonUp
  | MouseButton.Middle => if pressed then MiddleButtonDown else MiddleButtonUp
  | MouseButton.Right => if pressed then RightButtonDown else RightButtonUp
  | MouseButton.WheelUp => WheelUp
  | MouseButton.WheelDown => WheelDown
  end.

(** [enum class Page { One = 1 }]. *)
Definition Page_One : Z := 1.

(** 32-bit unsigned arithmetic. *)
Definition wrap32 (z : Z) : Z := z mod 2 ^ 32.
Definition not32 (z : Z) : Z := wrap32 (Z.lnot z).

(** [fmt::format("{}", n)] for an integer. *)
Definition decimal (z : Z) : string := NilZero.string_of_int (Z.to_int z).

Definition ESC : string := String (ascii_of_nat 27) "".

Record DECTextLocator : Type := mkLocator {
  _reportingMode : DECLocatorReportingMode;
  _filterRectangle : DECLocatorRectangle;
  _units : CoordinateUnits;
  _selectedLocatorEvents : Z;
  _cellPosition : CellLocation;
  _pixelPosition : MousePixelPosition;
  _currentlyPressedMouseButtons : Z;
  _replyBackBufferIndex : Z;
  _replyBuffer : string * string
}.

(** [std::array<std::string, 2>] subscripted by an [int] that the
    code only ever sets to [0] or to [(i + 1) % 2]. *)
Definition slot (i : Z) (buffer : string * string) : string :=
  if Z.eqb i 0 then fst buffer else snd buffer.

Definition set_slot (i : Z) (s : string) (buffer : string * string) : string * string :=
  if Z.eqb i 0 then (s, snd buffer) else (fst buffer, s).

Section Buttons.
(** [static_cast<unsigned>(button)]: the enumerator values of the
    absent declaration. *)
Variable button_code : MouseButton.t -> Z.

(** A default-constructed locator. *)
Definition fresh : DECTextLocator :=
  mkLocator Disabled (mkRect 0 0 0 0) Cells (DECLocatorEvent_value Explicit)
            (mkCell 0 0) (mkPixel 0 0) (button_code MouseButton.None)
            0 ("", "").

(** [createReport(event, button, row, column, page)]. *)
Definition createReport (event : Event) (button : MouseButton.t)
           (row col page : Z) : string :=
  match event with
  | LocatorUnavailable => ESC ++ "[0&m"
  | _ =>
      ESC ++ "[" ++ decimal (wrap32 (Event_value event)) ++ ";"
          ++ decimal (wrap32 (button_code button)) ++ ";"
          ++ decimal row ++ ";" ++ decimal col ++ ";"
          ++ decimal (wrap32 page) ++ "&w"
  end.

(** [selectLocatorEvents(event, enabled)]. *)
Definition selectLocatorEvents (event : DECLocatorEvent) (enabled : bool)
           (l : DECTextLocator) : DECTextLocator :=
  let sel :=
    if enabled
    then Z.lor (_selectedLocatorEvents l) (DECLocatorEvent_value event)
    else Z.land (_selectedLocatorEvents l) (not32 (DECLocatorEvent_value event)) in
  mkLocator (_reportingMode l) (_filterRectangle l) (_units l) sel
            (_cellPosition l) (_pixelPosition l) (_currentlyPressedMouseButtons l)
            (_replyBackBufferIndex l) (_replyBuffer l).

(** The implicit conversion of a [uint32_t] to [bool]. *)
Definition truthy (z : Z) : bool := negb (Z.eqb z 0).

Definition reportButtonUpEvents (l : DECTextLocator) : bool :=
  truthy (Z.land (_selectedLocatorEvents l) (DECLocatorEvent_value ButtonUp)).

Definition reportButtonDownEvents (l : DECTextLocator) : bool :=
  truthy (Z.land (_selectedLocatorEvents l) (DECLocatorEvent_value ButtonDown)).

Definition reportEventExplicitOnly (l : DECTextLocator) : bool :=
  Z.eqb (_selectedLocatorEvents l) 0.

Definition with_mode (m : DECLocatorReportingMode) (l : DECTextLocator) : DECTextLocator :=
  mkLocator m (_filterRectangle l) (_units l) (_selectedLocatorEvents l)
            (_cellPosition l) (_pixelPosition l) (_currentlyPressedMouseButtons l)
            (_replyBackBufferIndex l) (_replyBuffer l).

Definition with_units (u : CoordinateUnits) (l : DECTextLocator) : DECTextLocator :=
  mkLocator (_reportingMode l) (_filterRectangle l) u (_selectedLocatorEvents l)
            (_cellPosition l) (_pixelPosition l) (_currentlyPressedMouseButtons l)
            (_replyBackBufferIndex l) (_replyBuffer l).

Definition disableLocatorReporting (l : DECTextLocator) : DECTextLocator :=
  with_mode Disabled l.

Definition enableLocatorReporting (units : CoordinateUnits) (l : DECTextLocator) :=
  with_units units (with_mode Enabled l).

Definition enableLocatorReportingOnce (units : CoordinateUnits) (l : DECTextLocator) :=
  with_units units (with_mode EnabledOnce l).

Definition enableFilterRectangle (rect : DECLocatorRectangle) (l : DECTextLocator) :=
  mkLocator FilterRectangular rect (_units l) (_selectedLocatorEvents l)
            (_cellPosition l) (_pixelPosition l) (_currentlyPressedMouseButtons l)
            (_replyBackBufferIndex l) (_replyBuffer l).

Definition disableFilterRectangle (l : DECTextLocator) : DECTextLocator :=
  with_mode Disabled l.

(** [filterRectangleEnabled()]. *)
Definition filterRectangleEnabled (l : DECTextLocator) : bool :=
  match _reportingMode l with
  | FilterRectangular => true
  | _ => false
  end.

(** [peekLocatorReply()]. *)
Definition peekLocatorReply (l : DECTextLocator) : string :=
  slot (_replyBackBufferIndex l) (_replyBuffer l).

(** [fetchReplyAndClear()]: the [string_view] returned and the
    locator afterwards.  [%] on [int] truncates. *)
Definition fetchReplyAndClear (l : DECTextLocator) : string * DECTextLocator :=
  let resultIndex := _replyBackBufferIndex l in
  (slot resultIndex (_replyBuffer l),
   mkLocator (_reportingMode l) (_filterRectangle l) (_units l)
             (_selectedLocatorEvents l) (_cellPosition l) (_pixelPosition l)
             (_currentlyPressedMouseButtons l)
             (Z.rem (_replyBackBufferIndex l + 1) 2) (_replyBuffer l)).

(** [reply(format, args...)], with the text already formatted:
    [_replyBuffer[_replyBackBufferIndex] += text]. *)
Definition reply (text : string) (l : DECTextLocator) : DECTextLocator :=
  let i := _replyBackBufferIndex l in
  mkLocator (_reportingMode l) (_filterRectangle l) (_units l)
            (_selectedLocatorEvents l) (_cellPosition l) (_pixelPosition l)
            (_currentlyPressedMouseButtons l) i
            (set_slot i (slot i (_replyBuffer l) ++ text) (_replyBuffer l)).

(** [updateMouseMove(cellPosition, pixelPosition)]. *)
Definition updateMouseMove (cellPosition : CellLocation)
           (pixelPosition : MousePixelPosition) (l : DECTextLocator) : DECTextLocator :=
  mkLocator (_reportingMode l) (_filterRectangle l) (_units l)
            (_selectedLocatorEvents l) cellPosition pixelPosition
            (_currentlyPressedMouseButtons l)
            (_replyBackBufferIndex l) (_replyBuffer l).

(** [updateMousePress(button, buttonPressed)]. *)
Definition updateMousePress (button : MouseButton.t) (buttonPressed : bool)
           (l : DECTextLocator) : DECTextLocator :=
  let pressed :=
    if buttonPressed
    then Z.lor (_currentlyPressedMouseButtons l) (wrap32 (button_code button))
    else Z.land (_currentlyPressedMouseButtons l) (not32 (button_code button)) in
  let l1 :=
    mkLocator (_reportingMode l) (_filterRectangle l) (_units l)
              (_selectedLocatorEvents l) (_cellPosition l) (_pixelPosition l)
              pressed (_replyBackBufferIndex l) (_replyBuffer l) in
  let event := makeEvent button buttonPressed in
  let '(row, col) :=
    match _units l1 with
    | Cells => (line (_cellPosition l1), column (_cellPosition l1))
    | Pixels => (y (_pixelPosition l1), x (_pixelPosition l1))
    end in
  reply (createReport event button row col Page_One) l1.

(** [update(button, buttonPressed, cellPosition, pixelPosition)]:
    the switch over [_reportingMode]; only [EnabledOnce] has a
    statement in it. *)
Definition update (button : MouseButton.t) (buttonPressed : bool)
           (cellPosition : CellLocation) (pixelPosition : MousePixelPosition)
           (l : DECTextLocator) : DECTextLocator :=
  match _reportingMode l with
  | Disabled => l
  | EnabledOnce => with_mode Disabled l
  | Enabled => l
  | FilterRectangular => l
  end.
End Buttons.

End Locator.

(** ** terminal::ImageFragment *)

Module Images.

Local Open Scope Z_scope.

Inductive ImageFormat : Type := RGB | RGBA | PNG.

(** [class Image]; [ImageId] boxes a [uint32_t]. *)
Record Image : Type := mkImage {
  id_ : Z;
  format_ : ImageFormat;
  data_ : list byte;
  size_ : Z * Z
}.

Inductive ImageResize : Type :=
| NoResize | ResizeToFit | ResizeToFill | StretchToFill.

Inductive ImageAlignment : Type :=
| TopStart | TopCenter | TopEnd
| MiddleStart | MiddleCenter | MiddleEnd
| BottomStart | BottomCenter | BottomEnd.

(** [class RasterizedImage]; a [shared_ptr] is modelled by the object
    it points to. *)
Record RasterizedImage : Type := mkRasterized {
  image_ : Image;
  alignmentPolicy_ : ImageAlignment;
  resizePolicy_ : ImageResize;
  defaultColor_ : Z;
  cellSpan_ : Z * Z;
  cellSize_ : Z * Z
}.

(** [class ImageFragment]. *)
Record ImageFragment : Type := mkFragment {
  rasterizedImage_ : RasterizedImage;
  offset_ : Locator.CellLocation
}.

Definition id (i : Image) : Z := id_ i.
Definition image (r : RasterizedImage) : Image := image_ r.
Definition rasterizedImage (f : ImageFragment) : RasterizedImage := rasterizedImage_ f.
Definition offset (f : ImageFragment) : Locator.CellLocation := offset_ f.

(** Modelled from the spec: [operator==] on [CellLocation] is declared
    in the absent [primitives.h]; two offsets agree when their lines
    and their columns do. *)
Definition CellLocation_eq (a b : Locator.CellLocation) : bool :=
  (Locator.line a =? Locator.line b) && (Locator.column a =? Locator.column b).

(** [operator==(ImageFragment const&, ImageFragment const&)]. *)
Definition ImageFragment_eq (a b : ImageFragment) : bool :=
  (id (image (rasterizedImage a)) =? id (image (rasterizedImage b)))
  && CellLocation_eq (offset a) (offset b).

(** [operator!=(ImageFragment const&, ImageFragment const&)]. *)
Definition ImageFragment_ne (a b : ImageFragment) : bool :=
  negb (ImageFragment_eq a b).

Section Order.
(** [operator<] on [CellLocation] is declared in [primitives.h], which
    is not among the sources; it is a parameter here. *)
Variable CellLocation_lt : Locator.CellLocation -> Locator.CellLocation -> bool.

(** [operator<(ImageFragment const&, ImageFragment const&)]. *)
Definition ImageFragment_lt (a b : ImageFragment) : bool :=
  (id (image (rasterizedImage a)) <? id (image (rasterizedImage b)))
  || ((id (image (rasterizedImage a)) =? id (image (rasterizedImage b)))
      && CellLocation_lt (offset a) (offset b)).

(** What [operator<] on [CellLocation] has to be for fragments to be
    ordered: a strict order in which two offsets that are not equal
    are ordered one way or the other. *)
Definition orders_offsets : Prop :=
  (forall a, CellLocation_lt a a = false) /\
  (forall a b c, CellLocation_lt a b = true -> CellLocation_lt b c = true ->
                 CellLocation_lt a c = true) /\
  (forall a b, CellLocation_lt a b = false -> CellLocation_lt b a = false ->
               CellLocation_eq a b = true).
End Order.

(** An order on offsets used to compare concrete fragments: by line,
    then by column. *)
Definition by_line_then_column (a b : Locator.CellLocation) : bool :=
  (Locator.line a <? Locator.line b)
  || ((Locator.line a =? Locator.line b) && (Locator.column a <? Locator.column b)).

End Images.

(** * Vocabulary of the specification *)

(** ** LRU cache: reachable states, well-formedness, abstract contents *)

Module LRUSpec.
Import LRU.

Section Spec.
Context {Key : Type} `{Countable Key} `{Movable Key} {Value : Type}.
Variable key_default : Key.
Variable value_default : Value.
Local Abbreviation Cache := (LRUCache (Key:=Key) (Value:=Value)).

(** The public operations that change a cache.  [touch] stands for
    every lookup ([try_get], [contains], [at]): they change the cache
    in the same way. *)
Inductive op : Type :=
| TryGet (k : Key)
| Emplace (k : Key) (v : Value)
| TryEmplace (k : Key) (v : Value)
| GetOrEmplace (k : Key) (v : Value)
| Assign (k : Key) (v : Value)
| Clear.

Definition run_op (o : op) : M Cache unit :=
  match o with
  | TryGet k => touch k
  | Emplace k v => emplace k v
  | TryEmplace k v => try_emplace k v ;;; ret tt
  | GetOrEmplace k v => get_or_emplace k v ;;; ret tt
  | Assign k v => subscript_assign value_default k v
  | Clear => clear key_default value_default
  end.

(** The caches a program can hold: a constructed one ([size_t]
    capacity), or one on which an operation has returned. *)
Inductive reachable : Cache -> Prop :=
| reach_create cap :
    cap <= npos -> reachable (create key_default value_default cap)
| reach_step o c c' :
    reachable c -> run_op o c = Done tt c' -> reachable c'.

Definition key_at (c : Cache) (i : N) : option Key := key <$> item_at c i.
Definition value_at (c : Cache) (i : N) : option Value := value <$> item_at c i.

(** What every reachable cache satisfies whatever a moved-from key
    holds: the size is at most the capacity, and the mapping and, when
    it is not empty, [head_] name slots of the vector. *)
Record sound (c : Cache) : Prop := mkSound {
  sound_length : N.of_nat (length (items_ c)) = capacity_ c;
  sound_cap : capacity_ c <= npos;
  sound_size : size c <= capacity_ c;
  sound_map : forall k i, itemByKeyMapping_ c !! k = Some i -> in_range c i = true;
  sound_head : size c <> 0 -> in_range c (head_ c) = true;
  sound_tail : size c <> 0 -> tail_ c <> npos
}.

(** What every reachable cache satisfies when moving a key copies it:
    the mapping sends each key to a slot among the first [size()] that
    holds this key. *)
Record wf (c : Cache) : Prop := mkWf {
  wf_length : N.of_nat (length (items_ c)) = capacity_ c;
  wf_cap : capacity_ c <= npos;
  wf_size : size c <= capacity_ c;
  wf_map : forall k i, itemByKeyMapping_ c !! k = Some i ->
                       i < size c /\ key_at c i = Some k;
  wf_head : size c <> 0 -> head_ c < size c;
  wf_tail : size c <> 0 -> tail_ c <> npos
}.

(** The cache as a finite map: the value stored for each key. *)
Definition contents (c : Cache) : gmap Key Value :=
  omap (value_at c) (itemByKeyMapping_ c).

(** The two ways [emplace] places a fresh key: in the first unused
    slot, or in the slot of an evicted key. *)
Definition placed (c : Cache) (slot : N) (base : gmap Key N) : Prop :=
  (base = itemByKeyMapping_ c /\ slot = size c /\ size c < capacity_ c) \/
  (exists victim, itemByKeyMapping_ c !! victim = Some slot /\
                  base = delete victim (itemByKeyMapping_ c) /\
                  size c = capacity_ c).

(** What placing the fresh key [k] with value [v] makes of [c]. *)
Definition placement (c : Cache) (k : Key) (v : Value) (c' : Cache) : Prop :=
  exists slot base,
    placed c slot base /\
    itemByKeyMapping_ c' = <[k := slot]> base /\
    capacity_ c' = capacity_ c /\
    length (items_ c') = length (items_ c) /\
    head_ c' = slot /\
    tail_ c' <> npos /\
    in_range c slot = true /\
    (forall j, key_at c' j = if decide (j = slot) then Some k else key_at c j) /\
    (forall j, value_at c' j = if decide (j = slot) then Some v else value_at c j).

(** [head_] is [npos] or the index of a slot. *)
Definition head_ok (c : Cache) : Prop :=
  head_ c = npos \/ in_range c (head_ c) = true.

(** The key and value a slot holds. *)
Definition entry_at (c : Cache) (s : N) : option (Key * Value) :=
  (fun it => (key it, value it)) <$> item_at c s.

(** In a list of slots, the slot before and the slot after position
    [i]; [npos] at either end. *)
Definition slot_before (L : list N) (i : nat) : N :=
  match i with
  | O => npos
  | S j => default npos (L !! j)
  end.

Definition slot_after (L : list N) (i : nat) : N := default npos (L !! S i).

(** The used slots form the doubly linked list [L], most recently
    used first: [head_] and [tail_] are its ends, [prev] and [next] of
    each slot are its neighbours in [L], [L] is the first [size()]
    slots in some order and each is the slot of a key of the mapping;
    the slots not yet used have no predecessor. *)
Record linked (c : Cache) (L : list N) : Prop := mkLinked {
  linked_nodup : NoDup L;
  linked_length : N.of_nat (length L) = size c;
  linked_head : head_ c = default npos (head L);
  linked_tail : tail_ c = default npos (last L);
  linked_items : forall i s, L !! i = Some s ->
      exists it, item_at c s = Some it /\
                 prev it = slot_before L i /\ next it = slot_after L i;
  linked_used : forall s, s ∈ L <-> s < size c;
  linked_mapped : forall s, s ∈ L -> exists k, itemByKeyMapping_ c !! k = Some s;
  linked_unused : forall s it, size c <= s -> item_at c s = Some it -> prev it = npos
}.

(** The cache holds the entries [order], most recently used first. *)
Definition represents (c : Cache) (order : list (Key * Value)) : Prop :=
  exists L, linked c L /\ entry_at c <$> L = Some <$> order.

(** [emplace] of each entry of a list, first to last. *)
Fixpoint emplace_all (kvs : list (Key * Value)) : M Cache unit :=
  match kvs with
  | [] => ret tt
  | kv :: more => emplace kv.1 kv.2 ;;; emplace_all more
  end.

(** The slots the loop of [keys()] and [repr()] visits from [head_]. *)
Definition traversal (c : Cache) : list N :=
  chain (S (length (items_ c))) (head_ c) c.
End Spec.

(** [int] keys: moving one is copying it. *)
#[export] Instance int_movable : Movable Z := fun k => k.

(** [std::string] keys as the usual libraries move them: what is left
    is the empty string. *)
#[export] Instance string_movable : Movable string := fun _ => EmptyString.

(** The cache of the specification's scenario: [int] keys, [char]
    values, capacity 2. *)
Definition empty2 : LRUCache (Key:=Z) (Value:=ascii) :=
  create 0%Z "000"%char 2.

Definition two_entries : M (LRUCache (Key:=Z) (Value:=ascii)) unit :=
  emplace 1%Z "a"%char ;;; emplace 2%Z "b"%char.

(** The cache an operation leaves behind. *)
Definition state_after {A} (r : result (LRUCache (Key:=Z) (Value:=ascii)) A)
  : LRUCache (Key:=Z) (Value:=ascii) :=
  match r with
  | Done _ c => c
  | Fail _ => empty2
  end.

Definition one_entry : LRUCache (Key:=Z) (Value:=ascii) :=
  state_after (emplace 1%Z "a"%char empty2).

Definition two_cache : LRUCache (Key:=Z) (Value:=ascii) :=
  state_after (emplace 2%Z "b"%char one_entry).

(** A cache of capacity 1 that is full, and one of capacity 3 filled
    by three insertions. *)
Definition one_full : LRUCache (Key:=Z) (Value:=ascii) :=
  state_after (emplace 1%Z "a"%char (create 0%Z "000"%char 1)).

Definition three_entries : list (Z * ascii) :=
  [(1%Z, "a"%char); (2%Z, "b"%char); (3%Z, "c"%char)].

Definition three_cache : LRUCache (Key:=Z) (Value:=ascii) :=
  state_after (emplace_all three_entries (create 0%Z "000"%char 3)).

End LRUSpec.

(** ** Parser: the trace view of one table step, and OSC matching *)

Module ParserSpec.
Import VTParser.

Definition calls (a : Action.t) (ch : byte) : list Event :=
  match listener_call a ch with
  | Some e => [e]
  | None => []
  end.

(** The parser after a byte has gone through the table. *)
Definition after (p : Parser) (s : State.t) (emitted : list Event) : Parser :=
  mkParser s (maxCharCount p) (eventListener_ p ++ emitted).

Definition is_osc (s : State.t) : bool := State.eqb s State.OSC_String.

(** Following [startOSC] and [dispatchOSC] through a trace: [open]
    tells whether a [startOSC] is waiting for its [dispatchOSC]; the
    result is [None] when a [startOSC] comes while one is waiting or a
    [dispatchOSC] comes while none is. *)
Fixpoint osc_track (open : bool) (evs : list Event) : option bool :=
  match evs with
  | [] => Some open
  | startOSC :: rest => if open then None else osc_track true rest
  | dispatchOSC :: rest => if open then osc_track false rest else None
  | _ :: rest => osc_track open rest
  end.

Definition is_startOSC (e : Event) : bool :=
  match e with startOSC => true | _ => false end.
Definition is_dispatchOSC (e : Event) : bool :=
  match e with dispatchOSC => true | _ => false end.

(** Between a [startOSC] and the next one there is exactly one
    [dispatchOSC]. *)
Definition osc_matched (evs : list Event) : Prop :=
  forall pre mid post,
    evs = pre ++ startOSC :: mid ++ startOSC :: post ->
    forallb (fun e => negb (is_startOSC e)) mid = true ->
    length (List.filter is_dispatchOSC mid) = 1%nat.

(** All 256 bytes. *)
Definition all_bytes : list byte :=
  omap Byte.of_N (map N.of_nat (seq 0 256)).

(** What the table does to the OSC bookkeeping in state [s] on [ch]. *)
Definition step_state (s : State.t) (ch : byte) : State.t :=
  let t := transitions get s ch in
  if State.eqb t State.Undefined then s else t.

Definition step_events (s : State.t) (ch : byte) : list Event :=
  let t := transitions get s ch in
  if State.eqb t State.Undefined then
    if Action.is_undefined (events get s ch) then [error s ch]
    else calls (events get s ch) ch
  else
    calls (exitEvents get s) ch ++ calls (events get s ch) ch
          ++ calls (entryEvents get t) ch.

Definition osc_step_ok (s : State.t) (ch : byte) : bool :=
  match osc_track (is_osc s) (step_events s ch) with
  | Some open => Bool.eqb open (is_osc (step_state s ch))
  | None => false
  end.

(** The invariant of the parser: its trace is well matched so far, and
    a [startOSC] is waiting exactly when it is in [OSC_String]. *)
Definition osc_inv (p : Parser) : Prop :=
  osc_track false (eventListener_ p) = Some (is_osc (state_ p)).

(** The scanner's contract, as [parseFragment] asserts it. *)
Definition scanner_ok (scan : list byte -> nat -> nat) : Prop :=
  forall chunk budget,
    (scan chunk budget <= length chunk)%nat /\ (scan chunk budget <= budget)%nat.

(** The scanner only takes as text what [is_text] allows. *)
Definition scanner_text (scan : list byte -> nat -> nat)
           (is_text : list byte -> Prop) : Prop :=
  forall chunk budget, is_text (take (scan chunk budget) chunk).

(** The runs of the parser over a sequence of bytes, from a state to a
    state, with the listener calls made: a byte goes through the
    table, or, in [Ground], a stretch of text is printed at once,
    together with the line feed that follows it if there is one. *)
Inductive run (is_text : list byte -> Prop)
  : State.t -> list byte -> State.t -> list Event -> Prop :=
| run_done s : run is_text s [] s []
| run_byte s ch rest s' evs :
    run is_text (step_state s ch) rest s' evs ->
    run is_text s (ch :: rest) s' (step_events s ch ++ evs)
| run_text text rest s' evs :
    text <> [] -> is_text text ->
    run is_text State.Ground rest s' evs ->
    run is_text State.Ground (text ++ rest) s'
        (print_text text (length text) :: evs)
| run_text_lf text rest s' evs :
    text <> [] -> is_text text ->
    run is_text State.Ground rest s' evs ->
    run is_text State.Ground (text ++ x0a :: rest) s'
        (print_text text (length text) :: execute x0a :: evs).

(** A monitor of the listener calls: a state machine over the calls;
    [None] when a call comes that the monitor does not allow. *)
Fixpoint run_monitor {St : Type} (mon : St -> Event -> option St)
         (st : St) (evs : list Event) : option St :=
  match evs with
  | [] => Some st
  | e :: rest =>
      match mon st e with
      | Some st' => run_monitor mon st' rest
      | None => None
      end
  end.

(** The four kinds of control strings the listener is handed. *)
Inductive StringKind : Type := OSC | DCS | APC | PM.

Definition StringKind_eqb (a b : StringKind) : bool :=
  match a, b with
  | OSC, OSC | DCS, DCS | APC, APC | PM, PM => true
  | _, _ => false
  end.

Definition string_of_state (s : State.t) : option StringKind :=
  match s with
  | State.OSC_String => Some OSC
  | State.DCS_PassThrough => Some DCS
  | State.APC_String => Some APC
  | State.PM_String => Some PM
  | _ => None
  end.

Definition starts (e : Event) : option StringKind :=
  match e with
  | startOSC => Some OSC | hook _ => Some DCS
  | startAPC => Some APC | startPM => Some PM
  | _ => None
  end.

Definition puts (e : Event) : option StringKind :=
  match e with
  | putOSC _ => Some OSC | put _ => Some DCS
  | putAPC _ => Some APC | putPM _ => Some PM
  | _ => None
  end.

Definition ends (e : Event) : option StringKind :=
  match e with
  | dispatchOSC => Some OSC | unhook => Some DCS
  | dispatchAPC => Some APC | dispatchPM => Some PM
  | _ => None
  end.

Definition is_error (e : Event) : bool :=
  match e with error _ _ => true | _ => false end.

(** The discipline of control strings.  While no string is open, a
    string may be started and no payload or end of a string may come,
    [putPM] apart, which is let through; while a string is open, only
    its own payload, its own end and [error] may come. *)
Definition string_monitor (open : option StringKind) (e : Event)
  : option (option StringKind) :=
  match open with
  | None =>
      match starts e, puts e, ends e with
      | Some kind, _, _ => Some (Some kind)
      | None, Some PM, _ => Some None
      | None, None, None => Some None
      | _, _, _ => None
      end
  | Some kind =>
      match puts e, ends e with
      | Some kind', _ => if StringKind_eqb kind kind' then Some open else None
      | None, Some kind' => if StringKind_eqb kind kind' then Some None else None
      | None, None => if is_error e then Some open else None
      end
  end.

Definition option_kind_eqb (a b : option StringKind) : bool :=
  match a, b with
  | Some x, Some y => StringKind_eqb x y
  | None, None => true
  | _, _ => false
  end.

Definition string_step_ok (s : State.t) (ch : byte) : bool :=
  match run_monitor string_monitor (string_of_state s) (step_events s ch) with
  | Some open => option_kind_eqb open (string_of_state (step_state s ch))
  | None => false
  end.

(** The discipline of escape and control sequences: [armed] tells
    that [clear] has been called and nothing dispatched since.
    Intermediates and parameters are only handed over while armed, and
    a dispatch ([dispatchESC], [dispatchCSI], [hook]) needs to be
    armed and disarms. *)
Definition sequence_monitor (armed : bool) (e : Event) : option bool :=
  match e with
  | clear => Some true
  | collect _ | collectLeader _ | param _ | paramDigit _
  | paramSeparator | paramSubSeparator =>
      if armed then Some true else None
  | dispatchESC _ | dispatchCSI _ | hook _ =>
      if armed then Some false else None
  | _ => Some armed
  end.

(** The states in which a sequence is being collected. *)
Definition collecting (s : State.t) : bool :=
  match s with
  | State.Escape | State.EscapeIntermediate
  | State.CSI_Entry | State.CSI_Param | State.CSI_Intermediate
  | State.DCS_Entry | State.DCS_Param | State.DCS_Intermediate => true
  | _ => false
  end.

Definition sequence_ok (s : State.t) (armed : bool) : bool :=
  if collecting s then armed else true.

Definition sequence_step_ok (s : State.t) (ch : byte) (armed : bool) : bool :=
  if sequence_ok s armed then
    match run_monitor sequence_monitor armed (step_events s ch) with
    | Some armed' => sequence_ok (step_state s ch) armed'
    | None => false
    end
  else true.

(** The (state, byte) pairs for which the table has neither a
    transition nor an action. *)
Definition unhandled (s : State.t) (ch : byte) : bool :=
  let b := Byte.to_N ch in
  match s with
  | State.Undefined => true
  | State.Ground | State.DCS_Ignore | State.OSC_String | State.PM_String => false
  | State.DCS_Intermediate => ((48 <=? b) && (b <=? 63)) || (128 <=? b)
  | State.APC_String =>
      (b <? 32) && negb ((b =? 7) || (b =? 24) || (b =? 26) || (b =? 27))
  | State.IgnoreUntilST => 32 <=? b
  | _ => 128 <=? b
  end.

Definition reports_error (s : State.t) (ch : byte) : bool :=
  existsb is_error (step_events s ch).

End ParserSpec.

(** ** Locator: reachable states *)

Module LocatorSpec.
Import Locator.

Section Spec.
Variable button_code : MouseButton.t -> Z.

Inductive op : Type :=
| SelectLocatorEvents (e : DECLocatorEvent) (enabled : bool)
| DisableLocatorReporting
| EnableLocatorReporting (u : CoordinateUnits)
| EnableLocatorReportingOnce (u : CoordinateUnits)
| EnableFilterRectangle (r : DECLocatorRectangle)
| DisableFilterRectangle
| FetchReplyAndClear
| UpdateMouseMove (c : CellLocation) (p : MousePixelPosition)
| UpdateMousePress (b : MouseButton.t) (pressed : bool)
| Update (b : MouseButton.t) (pressed : bool) (c : CellLocation) (p : MousePixelPosition).

Definition run_op (o : op) (l : DECTextLocator) : DECTextLocator :=
  match o with
  | SelectLocatorEvents e b => selectLocatorEvents e b l
  | DisableLocatorReporting => disableLocatorReporting l
  | EnableLocatorReporting u => enableLocatorReporting u l
  | EnableLocatorReportingOnce u => enableLocatorReportingOnce u l
  | EnableFilterRectangle r => enableFilterRectangle r l
  | DisableFilterRectangle => disableFilterRectangle l
  | FetchReplyAndClear => snd (fetchReplyAndClear l)
  | UpdateMouseMove c p => updateMouseMove c p l
  | UpdateMousePress b pressed => updateMousePress button_code b pressed l
  | Update b pressed c p => update b pressed c p l
  end.

Inductive reachable : DECTextLocator -> Prop :=
| reach_fresh : reachable (fresh button_code)
| reach_step o l : reachable l -> reachable (run_op o l).

(** A sequence of operations, first to last. *)
Definition run_ops (ops : list op) (l : DECTextLocator) : DECTextLocator :=
  fold_left (fun l o => run_op o l) ops l.

(** The operations that deliver mouse input, and [update] among
    them. *)
Definition is_mouse_op (o : op) : bool :=
  match o with
  | UpdateMouseMove _ _ | UpdateMousePress _ _ | Update _ _ _ _ => true
  | _ => false
  end.

Definition is_update (o : op) : bool :=
  match o with
  | Update _ _ _ _ => true
  | _ => false
  end.

(** The row and column [updateMousePress] reports: the cell position
    or the pixel position, by the units selected. *)
Definition reported_position (l : DECTextLocator) : Z * Z :=
  match _units l with
  | Cells => (line (_cellPosition l), column (_cellPosition l))
  | Pixels => (y (_pixelPosition l), x (_pixelPosition l))
  end.
End Spec.

(** Enumerator values used to run the locator on concrete inputs; the
    specification's scenario has the left button reported as [1]. *)
Definition sample_code (b : MouseButton.t) : Z :=
  match b with
  | MouseButton.None => 0
  | MouseButton.Left => 1
  | MouseButton.Middle => 2
  | MouseButton.Right => 3
  | MouseButton.WheelUp => 4
  | MouseButton.WheelDown => 5
  end.

(** The locator of the specification's scenario: [Enabled], cell
    units, [ButtonDown] selected. *)
Definition armed (button_code : MouseButton.t -> Z) : DECTextLocator :=
  selectLocatorEvents ButtonDown true
    (enableLocatorReporting Cells (fresh button_code)).

End LocatorSpec.

(** * Theorems *)

(** ** LRU cache *)

Module LRUFacts.
Import LRU LRUSpec.

Lemma bind_Done {S A B} (m : M S A) (k : A -> M S B) s b t :
  bind m k s = Done b t <-> exists a s', m s = Done a s' /\ k a s' = Done b t.
Proof.
  unfold bind. destruct (m s) as [a s'|f]; split.
  - eauto.
  - intros (a0 & s0 & E & K). by inversion E; subst.
  - discriminate.
  - intros (a0 & s0 & E & K). discriminate.
Qed.

Lemma assert_Done {S} (b : bool) (s t : S) u :
  assert b s = Done u t <-> b = true /\ t = s.
Proof.
  unfold assert, ret, raise. destruct b, u; split.
  - intros E. by inversion E.
  - by intros [_ ->].
  - discriminate.
  - by intros [? _].
Qed.

Section Facts.
Context {Key : Type} `{Countable Key} `{Movable Key} {Value : Type}.
Variable key_default : Key.
Variable value_default : Value.
Local Abbreviation Cache := (LRUCache (Key:=Key) (Value:=Value)).
Implicit Types (c : Cache) (i j : N) (k : Key) (v : Value).

Lemma read_item_Done i c it c' :
  read_item i c = Done it c' <-> item_at c i = Some it /\ c' = c.
Proof.
  unfold read_item. destruct (item_at c i); split.
  - intros E. by inversion E.
  - intros [E ->]. by inversion E.
  - discriminate.
  - by intros [? _].
Qed.

Lemma write_item_Done i f c u c' :
  write_item i f c = Done u c' <-> in_range c i = true /\ c' = upd_item i f c.
Proof.
  unfold write_item. destruct (in_range c i), u; split.
  - intros E. by inversion E.
  - by intros [_ ->].
  - discriminate.
  - by intros [? _].
Qed.

Lemma in_range_lt c i : in_range c i = true <-> i < N.of_nat (length (items_ c)).
Proof. unfold in_range. apply N.ltb_lt. Qed.

Lemma in_range_upd i f c j : in_range (upd_item i f c) j = in_range c j.
Proof. unfold in_range, upd_item. simpl. by rewrite length_alter. Qed.

Lemma item_at_Some c i it : item_at c i = Some it -> in_range c i = true.
Proof. unfold item_at. by destruct (in_range c i). Qed.

Lemma item_at_in_range c i : in_range c i = true -> is_Some (item_at c i).
Proof.
  intros Hr. unfold item_at. rewrite Hr. apply lookup_lt_is_Some.
  apply in_range_lt in Hr. lia.
Qed.

Lemma item_at_upd i f c j :
  item_at (upd_item i f c) j =
  if decide (j = i) then f <$> item_at c j else item_at c j.
Proof.
  unfold item_at. rewrite in_range_upd. unfold upd_item. simpl.
  destruct (in_range c j); case_decide; subst; try done.
  - apply list_lookup_alter_eq.
  - apply list_lookup_alter_ne. lia.
Qed.

Lemma key_at_upd_keep i f c j :
  (forall it, key (f it) = key it) ->
  key_at (upd_item i f c) j = key_at c j.
Proof.
  intros Hf. unfold key_at. rewrite item_at_upd.
  case_decide; [|done]. destruct (item_at c j); simpl; [|done]. by rewrite Hf.
Qed.

Lemma value_at_upd_keep i f c j :
  (forall it, value (f it) = value it) ->
  value_at (upd_item i f c) j = value_at c j.
Proof.
  intros Hf. unfold value_at. rewrite item_at_upd.
  case_decide; [|done]. destruct (item_at c j); simpl; [|done]. by rewrite Hf.
Qed.

Lemma gets_Done {A} (proj : Cache -> A) c a c' :
  gets proj c = Done a c' <-> a = proj c /\ c' = c.
Proof. unfold gets. split; [intros E; by inversion E | by intros [-> ->]]. Qed.

Lemma ret_Done {A} (x : A) c a c' :
  ret x c = Done a c' <-> a = x /\ c' = c.
Proof. unfold ret. split; [intros E; by inversion E | by intros [-> ->]]. Qed.

Lemma modify_Done (upd : Cache -> Cache) c u c' :
  modify upd c = Done u c' <-> c' = upd c.
Proof. unfold modify. destruct u. split; [intros E; by inversion E | by intros ->]. Qed.

Ltac minv :=
  repeat (match goal with
  | E : bind _ _ _ = Done _ _ |- _ =>
      apply bind_Done in E; destruct E as (? & ? & ? & E); cbv beta in E
  | E : ret _ _ = Done _ _ |- _ => apply ret_Done in E; destruct E as [? ?]
  | E : gets _ _ = Done _ _ |- _ => apply gets_Done in E; destruct E as [? ?]
  | E : modify _ _ = Done _ _ |- _ => apply modify_Done in E
  | E : assert _ _ = Done _ _ |- _ => apply assert_Done in E; destruct E as [? ?]
  | E : read_item _ _ = Done _ _ |- _ => apply read_item_Done in E; destruct E as [? ?]
  | E : write_item _ _ _ = Done _ _ |- _ => apply write_item_Done in E; destruct E as [? ?]
  | E : raise _ _ = Done _ _ |- _ => discriminate E
  | E : (if ?b then _ else _) _ = Done _ _ |- _ => destruct b eqn:?
  | E : match ?x with Some _ => _ | None => _ end _ = Done _ _ |- _ => destruct x eqn:?
  end; subst).


(** Frame facts: which observations a primitive update leaves alone. *)
Lemma in_range_put_head h c j : in_range (put_head h c) j = in_range c j.
Proof. reflexivity. Qed.
Lemma in_range_put_tail t c j : in_range (put_tail t c) j = in_range c j.
Proof. reflexivity. Qed.
Lemma in_range_put_mapping m c j : in_range (put_mapping m c) j = in_range c j.
Proof. reflexivity. Qed.
Lemma item_at_put_head h c j : item_at (put_head h c) j = item_at c j.
Proof. reflexivity. Qed.
Lemma item_at_put_tail t c j : item_at (put_tail t c) j = item_at c j.
Proof. reflexivity. Qed.
Lemma item_at_put_mapping m c j : item_at (put_mapping m c) j = item_at c j.
Proof. reflexivity. Qed.
Lemma key_at_put_head h c j : key_at (put_head h c) j = key_at c j.
Proof. reflexivity. Qed.
Lemma key_at_put_tail t c j : key_at (put_tail t c) j = key_at c j.
Proof. reflexivity. Qed.
Lemma key_at_put_mapping m c j : key_at (put_mapping m c) j = key_at c j.
Proof. reflexivity. Qed.
Lemma value_at_put_head h c j : value_at (put_head h c) j = value_at c j.
Proof. reflexivity. Qed.
Lemma value_at_put_tail t c j : value_at (put_tail t c) j = value_at c j.
Proof. reflexivity. Qed.
Lemma value_at_put_mapping m c j : value_at (put_mapping m c) j = value_at c j.
Proof. reflexivity. Qed.

Lemma key_at_upd_prev i p c j : key_at (upd_item i (with_prev p) c) j = key_at c j.
Proof. by apply key_at_upd_keep. Qed.
Lemma key_at_upd_next i n c j : key_at (upd_item i (with_next n) c) j = key_at c j.
Proof. by apply key_at_upd_keep. Qed.
Lemma key_at_upd_value i v c j : key_at (upd_item i (with_value v) c) j = key_at c j.
Proof. by apply key_at_upd_keep. Qed.
Lemma value_at_upd_prev i p c j : value_at (upd_item i (with_prev p) c) j = value_at c j.
Proof. by apply value_at_upd_keep. Qed.
Lemma value_at_upd_next i n c j : value_at (upd_item i (with_next n) c) j = value_at c j.
Proof. by apply value_at_upd_keep. Qed.
Lemma value_at_upd_key i k c j : value_at (upd_item i (with_key k) c) j = value_at c j.
Proof. by apply value_at_upd_keep. Qed.

Lemma item_at_None c i : in_range c i = false -> item_at c i = None.
Proof. unfold item_at. by intros ->. Qed.

Lemma key_at_upd_key i k c j :
  key_at (upd_item i (with_key k) c) j =
  if decide (j = i) then (if in_range c j then Some k else None) else key_at c j.
Proof.
  unfold key_at. rewrite item_at_upd. case_decide; [|done].
  destruct (in_range c j) eqn:Hr.
  - by destruct (item_at_in_range _ _ Hr) as [it ->].
  - by rewrite item_at_None.
Qed.

Lemma value_at_upd_value i v c j :
  value_at (upd_item i (with_value v) c) j =
  if decide (j = i) then (if in_range c j then Some v else None) else value_at c j.
Proof.
  unfold value_at. rewrite item_at_upd. case_decide; [|done].
  destruct (in_range c j) eqn:Hr.
  - by destruct (item_at_in_range _ _ Hr) as [it ->].
  - by rewrite item_at_None.
Qed.

Lemma head_upd i f c : head_ (upd_item i f c) = head_ c.
Proof. reflexivity. Qed.
Lemma tail_upd i f c : tail_ (upd_item i f c) = tail_ c.
Proof. reflexivity. Qed.
Lemma mapping_upd i f c : itemByKeyMapping_ (upd_item i f c) = itemByKeyMapping_ c.
Proof. reflexivity. Qed.
Lemma capacity_upd i f c : capacity_ (upd_item i f c) = capacity_ c.
Proof. reflexivity. Qed.
Lemma size_upd i f c : size (upd_item i f c) = size c.
Proof. reflexivity. Qed.
Lemma head_put_head h c : head_ (put_head h c) = h.
Proof. reflexivity. Qed.
Lemma tail_put_head h c : tail_ (put_head h c) = tail_ c.
Proof. reflexivity. Qed.
Lemma mapping_put_head h c : itemByKeyMapping_ (put_head h c) = itemByKeyMapping_ c.
Proof. reflexivity. Qed.
Lemma capacity_put_head h c : capacity_ (put_head h c) = capacity_ c.
Proof. reflexivity. Qed.
Lemma size_put_head h c : size (put_head h c) = size c.
Proof. reflexivity. Qed.
Lemma head_put_tail t c : head_ (put_tail t c) = head_ c.
Proof. reflexivity. Qed.
Lemma tail_put_tail t c : tail_ (put_tail t c) = t.
Proof. reflexivity. Qed.
Lemma mapping_put_tail t c : itemByKeyMapping_ (put_tail t c) = itemByKeyMapping_ c.
Proof. reflexivity. Qed.
Lemma capacity_put_tail t c : capacity_ (put_tail t c) = capacity_ c.
Proof. reflexivity. Qed.
Lemma size_put_tail t c : size (put_tail t c) = size c.
Proof. reflexivity. Qed.
Lemma head_put_mapping m c : head_ (put_mapping m c) = head_ c.
Proof. reflexivity. Qed.
Lemma tail_put_mapping m c : tail_ (put_mapping m c) = tail_ c.
Proof. reflexivity. Qed.
Lemma mapping_put_mapping m c : itemByKeyMapping_ (put_mapping m c) = m.
Proof. reflexivity. Qed.
Lemma capacity_put_mapping m c : capacity_ (put_mapping m c) = capacity_ c.
Proof. reflexivity. Qed.
Lemma length_upd i f c : length (items_ (upd_item i f c)) = length (items_ c).
Proof. apply length_alter. Qed.
Lemma length_put_head h c : length (items_ (put_head h c)) = length (items_ c).
Proof. reflexivity. Qed.
Lemma length_put_tail t c : length (items_ (put_tail t c)) = length (items_ c).
Proof. reflexivity. Qed.
Lemma length_put_mapping m c : length (items_ (put_mapping m c)) = length (items_ c).
Proof. reflexivity. Qed.

Create Rewrite HintDb lru.
Hint Rewrite head_upd tail_upd mapping_upd capacity_upd size_upd
  head_put_head tail_put_head mapping_put_head capacity_put_head size_put_head
  head_put_tail tail_put_tail mapping_put_tail capacity_put_tail size_put_tail
  head_put_mapping tail_put_mapping mapping_put_mapping capacity_put_mapping
  length_upd length_put_head length_put_tail length_put_mapping
  item_at_put_head item_at_put_tail item_at_put_mapping : lru.
Hint Rewrite in_range_upd in_range_put_head in_range_put_tail in_range_put_mapping
  key_at_put_head key_at_put_tail key_at_put_mapping
  value_at_put_head value_at_put_tail value_at_put_mapping
  key_at_upd_prev key_at_upd_next key_at_upd_value
  value_at_upd_prev value_at_upd_next value_at_upd_key : lru.

Lemma try_get_Done k c r c' :
  try_get k c = Done r c' ->
  r = itemByKeyMapping_ c !! k /\
  itemByKeyMapping_ c' = itemByKeyMapping_ c /\
  capacity_ c' = capacity_ c /\
  length (items_ c') = length (items_ c) /\
  tail_ c' = tail_ c /\
  (forall j, key_at c' j = key_at c j) /\
  (forall j, value_at c' j = value_at c j) /\
  match r with
  | Some i => head_ c' = i /\ in_range c i = true
  | None => c' = c
  end.
Proof.
  intros E. unfold try_get, set_head in E. minv.
  - repeat split; try done; simpl.
    + by rewrite !length_alter.
    + intros j. by autorewrite with lru.
    + intros j. by autorewrite with lru.
    + eauto using item_at_Some.
  - repeat split; try done.
    + symmetry. by apply N.eqb_eq, negb_false_iff.
    + eauto using item_at_Some.
  - done.
Qed.
(** Forward execution of the primitives. *)
Lemma bind_write_ok {B} i f (k : unit -> M Cache B) c :
  in_range c i = true -> bind (write_item i f) k c = k tt (upd_item i f c).
Proof. intros Hr. unfold bind, write_item. by rewrite Hr. Qed.

Lemma bind_read_ok {B} i (k : Item -> M Cache B) c it :
  item_at c i = Some it -> bind (read_item i) k c = k it c.
Proof. intros Hr. unfold bind, read_item. by rewrite Hr. Qed.

Lemma size_eq c c' :
  itemByKeyMapping_ c' = itemByKeyMapping_ c -> size c' = size c.
Proof. unfold size. by intros ->. Qed.

Lemma wf_slot_in_range c k i :
  wf c -> itemByKeyMapping_ c !! k = Some i -> in_range c i = true.
Proof.
  intros W Hk. apply in_range_lt. destruct (wf_map _ W _ _ Hk) as [Hlt _].
  pose proof (wf_size _ W). pose proof (wf_length _ W). lia.
Qed.

Lemma wf_nonempty c k i :
  wf c -> itemByKeyMapping_ c !! k = Some i -> size c <> 0.
Proof. intros W Hk. destruct (wf_map _ W _ _ Hk) as [Hlt _]. lia. Qed.

Lemma wf_head_in_range c :
  wf c -> size c <> 0 -> in_range c (head_ c) = true.
Proof.
  intros W Hne. apply in_range_lt. pose proof (wf_head _ W Hne).
  pose proof (wf_size _ W). pose proof (wf_length _ W). lia.
Qed.

Lemma wf_slot_not_npos c i : wf c -> in_range c i = true -> i <> npos.
Proof.
  intros W Hr%in_range_lt. pose proof (wf_cap _ W). pose proof (wf_length _ W). lia.
Qed.

(** Running straight-line code forwards: every subscript is in range. *)
Ltac unfold_m :=
  unfold set_head, set_tail, set_mapping, assert;
  unfold bind, gets, ret, raise, modify, read_item, write_item.

Ltac run :=
  repeat match goal with
  | E : in_range ?c ?i = true |- context [in_range ?c ?i] => rewrite E
  | E : item_at ?c ?i = Some _ |- context [item_at ?c ?i] => rewrite E
  | E : (?a =? ?b) = _ |- context [?a =? ?b] => rewrite E
  | |- context [item_at (upd_item _ _ _) _] => rewrite item_at_upd
  | |- context [decide (_ = _)] => case_decide
  | _ => progress autorewrite with lru
  | _ => progress simpl
  end.

Lemma item_at_upd_is_Some i f c j :
  is_Some (item_at (upd_item i f c) j) <-> is_Some (item_at c j).
Proof.
  rewrite item_at_upd. case_decide; [|done]. by rewrite fmap_is_Some.
Qed.

Lemma wf_sound c : wf c -> sound c.
Proof.
  intros W. split; try apply W.
  - intros k i Hk. eauto using wf_slot_in_range.
  - intros Hne. by apply wf_head_in_range.
Qed.

Lemma mapped_nonempty c k i : itemByKeyMapping_ c !! k = Some i -> size c <> 0.
Proof.
  intros Hk Hz. unfold size in Hz.
  assert (itemByKeyMapping_ c = ∅) as He by (apply map_size_empty_inv; lia).
  by rewrite He, lookup_empty in Hk.
Qed.

Lemma sound_slot_not_npos c i : sound c -> in_range c i = true -> i <> npos.
Proof.
  intros Hs Hr%in_range_lt.
  pose proof (sound_cap _ Hs). pose proof (sound_length _ Hs). lia.
Qed.

(** [try_get] never faults on a sound cache. *)
Lemma try_get_total_sound k c :
  sound c -> exists c', try_get k c = Done (itemByKeyMapping_ c !! k) c'.
Proof.
  intros Hs. unfold try_get. unfold_m.
  destruct (itemByKeyMapping_ c !! k) as [i|] eqn:Hk; [|by eexists].
  pose proof (sound_map _ Hs _ _ Hk) as Hi.
  pose proof (sound_head _ Hs (mapped_nonempty _ _ _ Hk)) as Hh.
  pose proof (sound_slot_not_npos _ _ Hs Hi) as Hn%N.eqb_neq.
  destruct (item_at_in_range _ _ Hi) as [it Hit].
  rewrite Hit.
  destruct (negb (i =? head_ c)) eqn:Hne.
  - run; by eexists.
  - run; by eexists.
Qed.

Lemma try_get_total k c :
  wf c -> exists c', try_get k c = Done (itemByKeyMapping_ c !! k) c'.
Proof. intros W. by apply try_get_total_sound, wf_sound. Qed.

Lemma try_get_wf k c r c' : wf c -> try_get k c = Done r c' -> wf c'.
Proof.
  intros W E. apply try_get_Done in E.
  destruct E as (Hr & Hm & Hc & Hl & Ht & Hk & Hv & Hh).
  pose proof (size_eq _ _ Hm) as Hs.
  split.
  - rewrite Hl, Hc. apply W.
  - rewrite Hc. apply W.
  - rewrite Hs, Hc. apply W.
  - intros k' i. rewrite Hm, Hs, Hk. apply W.
  - rewrite Hs. intros Hne. destruct r as [i|].
    + destruct Hh as [-> _]. symmetry in Hr. by destruct (wf_map _ W _ _ Hr).
    + subst c'. by apply W.
  - rewrite Hs, Ht. apply W.
Qed.

Lemma map_emplace_fresh k i (m : gmap Key N) :
  m !! k = None -> map_emplace k i m = <[k := i]> m.
Proof. unfold map_emplace. by intros ->. Qed.

Lemma size_insert_fresh c c' k i :
  itemByKeyMapping_ c !! k = None ->
  itemByKeyMapping_ c' = <[k := i]> (itemByKeyMapping_ c) ->
  size c' = size c + 1.
Proof.
  intros Hk Hm. unfold size. rewrite Hm, map_size_insert_None by done. lia.
Qed.

(** What a successful [prepend_internal] does: the slot [size()]
    receives the key and the value, and the mapping an entry for the
    moved-from key unless it has one. *)
Lemma prepend_internal_spec k v c u c' :
  prepend_internal k v c = Done u c' ->
  size c < capacity_ c /\
  in_range c (size c) = true /\
  itemByKeyMapping_ c' = map_emplace (moved_from k) (size c) (itemByKeyMapping_ c) /\
  capacity_ c' = capacity_ c /\
  length (items_ c') = length (items_ c) /\
  head_ c' = size c /\
  tail_ c' <> npos /\
  (forall j, key_at c' j = if decide (j = size c) then Some k else key_at c j) /\
  (forall j, value_at c' j = if decide (j = size c) then Some v else value_at c j).
Proof.
  intros E. unfold prepend_internal, set_head, set_tail, set_mapping in E.
  minv.
  all: match goal with
       | Hlt : (size _ <? capacity_ _) = true |- _ => apply N.ltb_lt in Hlt
       end.
  all: autorewrite with lru in *.
  all: repeat split; try done.
  all: try match goal with
       | Ht : negb (_ =? npos) = true |- _ <> npos =>
           by apply N.eqb_neq, negb_true_iff
       end.
  all: intros j; autorewrite with lru;
       rewrite ?key_at_upd_key, ?value_at_upd_value; autorewrite with lru;
       rewrite ?key_at_upd_key, ?value_at_upd_value; autorewrite with lru.
  all: case_decide; subst; try done.
  all: match goal with Hr : in_range _ _ = true |- _ => by rewrite Hr end.
Qed.

Create Rewrite HintDb lru_items.
Hint Rewrite item_at_upd : lru_items.

(** *** Keys whose move is a copy

    For [int] keys, the keys of the cache's tests, and for every key
    type whose moved-from object still holds the key,
    [prepend_internal] enters the key itself in the mapping.  What
    depends on it is stated under the hypothesis [moved_copy]; for a
    key type that does not satisfy it, [prepend_internal] stores the
    key in the slot and another one in the mapping, and a cache need
    not be well formed. *)

Section CopyKeys.
Hypothesis moved_copy : forall k : Key, moved_from k = k.

(** What a successful [prepend_internal] of a fresh key does. *)
Lemma prepend_internal_Done k v c u c' :
  wf c -> itemByKeyMapping_ c !! k = None ->
  prepend_internal k v c = Done u c' ->
  size c < capacity_ c /\
  itemByKeyMapping_ c' = <[k := size c]> (itemByKeyMapping_ c) /\
  capacity_ c' = capacity_ c /\
  length (items_ c') = length (items_ c) /\
  head_ c' = size c /\
  tail_ c' <> npos /\
  (forall j, key_at c' j = if decide (j = size c) then Some k else key_at c j) /\
  (forall j, value_at c' j = if decide (j = size c) then Some v else value_at c j).
Proof.
  intros W Hk E.
  destruct (prepend_internal_spec _ _ _ _ _ E) as (Hlt & _ & Hm & Hrest).
  rewrite moved_copy, map_emplace_fresh in Hm by done. done.
Qed.

(** What a successful [evict_one_and_push_front] for a fresh key does. *)
Lemma evict_one_and_push_front_Done k c slot c' :
  itemByKeyMapping_ c !! k = None ->
  evict_one_and_push_front k c = Done slot c' ->
  exists victim,
    itemByKeyMapping_ c !! victim = Some slot /\
    itemByKeyMapping_ c' = <[k := slot]> (delete victim (itemByKeyMapping_ c)) /\
    capacity_ c' = capacity_ c /\
    length (items_ c') = length (items_ c) /\
    head_ c' = slot /\
    tail_ c' <> npos /\
    in_range c slot = true /\
    (forall j, key_at c' j = if decide (j = slot) then Some k else key_at c j) /\
    (forall j, value_at c' j = value_at c j).
Proof.
  intros Hk E. unfold evict_one_and_push_front, set_head, set_tail, set_mapping in E.
  minv. autorewrite with lru in *.
  match goal with
  | Ha : item_at c (tail_ c) = Some ?x, Hb : item_at c (tail_ c) = Some ?y |- _ =>
      rewrite Ha in Hb; inversion Hb; subst; clear Hb
  end.
  match goal with
  | Hv : itemByKeyMapping_ c !! key ?tl = Some _ |- _ => exists (key tl)
  end.
  rewrite map_emplace_fresh by (rewrite lookup_delete_ne; [done|congruence]).
  repeat split; try done.
  - by apply N.eqb_neq, negb_true_iff.
  - intros j. autorewrite with lru. rewrite key_at_upd_key. autorewrite with lru.
    case_decide; [|done].
    subst. match goal with Hr : in_range c _ = true |- _ => by rewrite Hr end.
  - intros j. by autorewrite with lru.
Qed.

(** Placing through eviction. *)
Lemma evict_store_placement k v c slot c1 :
  itemByKeyMapping_ c !! k = None -> size c = capacity_ c ->
  evict_one_and_push_front k c = Done slot c1 ->
  in_range c1 slot = true ->
  placement c k v (upd_item slot (with_value v) c1).
Proof.
  intros Hk Hfull He Hr1.
  apply evict_one_and_push_front_Done in He; [|done].
  destruct He as (victim & Hv & Hm & Hcap & Hl & Hh & Ht & Hs & Hka & Hva).
  exists slot, (delete victim (itemByKeyMapping_ c)). split; [right; eauto|].
  autorewrite with lru. repeat split; try done.
  - intros j. autorewrite with lru. apply Hka.
  - intros j. rewrite value_at_upd_value. case_decide; [|apply Hva].
    subst j. by rewrite Hr1.
Qed.

(** Placing in the first unused slot. *)
Lemma prepend_placement k v c u c' :
  wf c -> itemByKeyMapping_ c !! k = None ->
  prepend_internal k v c = Done u c' ->
  placement c k v c'.
Proof.
  intros W Hk He.
  apply prepend_internal_Done in He; [|done..].
  destruct He as (Hlt & Hm & Hcap & Hl & Hh & Ht & Hka & Hva).
  exists (size c), (itemByKeyMapping_ c). split; [by left|].
  repeat split; try done.
  apply in_range_lt. pose proof (wf_length _ W). lia.
Qed.

Lemma emplace_Done k v c u c' :
  wf c -> emplace k v c = Done u c' ->
  itemByKeyMapping_ c !! k = None /\ placement c k v c'.
Proof.
  intros W E. unfold emplace, contains in E. minv.
  all: match goal with
       | Ht : try_get _ _ = Done _ _ |- _ =>
           apply try_get_Done in Ht; destruct Ht as (Hr & _ & _ & _ & _ & _ & _ & Hc)
       end.
  all: match goal with
       | Hp : negb (match ?p with Some _ => true | None => false end) = true |- _ =>
           destruct p; [discriminate Hp|]; subst
       end.
  all: symmetry in Hr; split; [done|].
  - match goal with Hsz : (size _ =? capacity_ _) = true |- _ => apply N.eqb_eq in Hsz end.
    eauto using evict_store_placement.
  - eauto using prepend_placement.
Qed.

Lemma try_emplace_Done k v c r c' :
  wf c -> try_emplace k v c = Done r c' ->
  (r = false /\ is_Some (itemByKeyMapping_ c !! k) /\
   try_get k c = Done (itemByKeyMapping_ c !! k) c') \/
  (r = true /\ itemByKeyMapping_ c !! k = None /\ placement c k v c').
Proof.
  intros W E. unfold try_emplace in E. minv.
  all: match goal with
       | Ht : try_get _ _ = Done _ _ |- _ =>
           pose proof (try_get_Done _ _ _ _ Ht) as (Hr & _ & _ & _ & _ & _ & _ & Hc)
       end.
  - left. rewrite <- Hr. eauto.
  - right. subst. symmetry in Hr. split; [done|]. split; [done|].
    match goal with Hsz : (size _ =? capacity_ _) = true |- _ => apply N.eqb_eq in Hsz end.
    eauto using evict_store_placement.
  - right. subst. symmetry in Hr. split; [done|]. split; [done|].
    eauto using prepend_placement.
Qed.

Lemma repr_loop_Done fuel : forall pos c u c',
  repr_loop fuel pos c = Done u c' -> c' = c.
Proof.
  induction fuel as [|fuel IH]; intros pos c u c' E; simpl in E.
  - destruct (pos =? npos); minv. done.
  - destruct (pos =? npos); minv; eauto.
Qed.

Lemma repr_Done c u c' : repr c = Done u c' -> c' = c.
Proof. unfold repr. intros E. minv. eauto using repr_loop_Done. Qed.

Lemma get_or_emplace_Done k v c r c' :
  wf c -> get_or_emplace k v c = Done r c' ->
  (is_Some (itemByKeyMapping_ c !! k) /\
   try_get k c = Done (itemByKeyMapping_ c !! k) c') \/
  (itemByKeyMapping_ c !! k = None /\ placement c k v c').
Proof.
  intros W E. unfold get_or_emplace in E. minv.
  all: match goal with
       | Ht : try_get _ _ = Done _ _ |- _ =>
           pose proof (try_get_Done _ _ _ _ Ht) as (Hr & _ & _ & _ & _ & _ & _ & Hc)
       end.
  - left. rewrite <- Hr. eauto.
  - right. subst.
    match goal with Hp : repr _ = Done _ _ |- _ => apply repr_Done in Hp; subst end.
    eauto using emplace_Done.
Qed.

Lemma placed_facts c k slot base c' :
  wf c -> itemByKeyMapping_ c !! k = None ->
  placed c slot base ->
  itemByKeyMapping_ c' = <[k := slot]> base ->
  size c <= size c' /\ size c' <= capacity_ c /\ slot < size c' /\
  forall k' i, base !! k' = Some i ->
               itemByKeyMapping_ c !! k' = Some i /\ i <> slot.
Proof.
  intros W Hk [(-> & -> & Hlt)|(victim & Hv & -> & Hfull)] Hm.
  - rewrite (size_insert_fresh c c' k (size c)) by done.
    split; [lia|]. split; [lia|]. split; [lia|].
    intros k' i Hi. split; [done|]. destruct (wf_map _ W _ _ Hi). lia.
  - assert (size c' = size c) as Hs.
    { unfold size. rewrite Hm, map_size_insert_None.
      - rewrite map_size_delete_Some by eauto.
        destruct (wf_map _ W _ _ Hv) as [Hlt _]. unfold size in Hlt. lia.
      - rewrite lookup_delete_ne; [done|congruence]. }
    rewrite Hs. destruct (wf_map _ W _ _ Hv) as [Hlt Hkv].
    split; [lia|]. split; [lia|]. split; [lia|].
    intros k' i [Hne Hi]%lookup_delete_Some. split; [done|].
    intros ->. destruct (wf_map _ W _ _ Hi) as [_ Hki]. congruence.
Qed.

Lemma placement_wf k v c c' :
  wf c -> itemByKeyMapping_ c !! k = None -> placement c k v c' -> wf c'.
Proof.
  intros W Hk (slot & base & Hp & Hm & Hc & Hl & Hh & Ht & Hr & Hka & Hva).
  destruct (placed_facts _ _ _ _ _ W Hk Hp Hm) as (Hge & Hle & Hslot & Hbase).
  split.
  - rewrite Hl, Hc. apply W.
  - rewrite Hc. apply W.
  - by rewrite Hc.
  - intros k' i. rewrite Hm, Hka. intros [[-> ->]|[Hne Hi]]%lookup_insert_Some.
    + split; [done|]. by rewrite decide_True.
    + destruct (Hbase _ _ Hi) as [Hi' Hns]. rewrite decide_False by done.
      destruct (wf_map _ W _ _ Hi'). split; [lia|done].
  - intros _. by rewrite Hh.
  - done.
Qed.

Lemma emplace_wf k v c u c' : wf c -> emplace k v c = Done u c' -> wf c'.
Proof.
  intros W E. destruct (emplace_Done _ _ _ _ _ W E) as [Hk Hp].
  eauto using placement_wf.
Qed.

Lemma try_emplace_wf k v c r c' : wf c -> try_emplace k v c = Done r c' -> wf c'.
Proof.
  intros W E.
  destruct (try_emplace_Done _ _ _ _ _ W E) as [(_ & _ & Ht)|(_ & Hk & Hp)];
    eauto using try_get_wf, placement_wf.
Qed.

Lemma get_or_emplace_wf k v c r c' :
  wf c -> get_or_emplace k v c = Done r c' -> wf c'.
Proof.
  intros W E.
  destruct (get_or_emplace_Done _ _ _ _ _ W E) as [(_ & Ht)|(Hk & Hp)];
    eauto using try_get_wf, placement_wf.
Qed.

Lemma lookup_contents c k :
  contents c !! k = itemByKeyMapping_ c !! k ≫= value_at c.
Proof. unfold contents. apply lookup_omap. Qed.

(** On a sound cache the mapping and the abstract contents have the
    same keys. *)
Lemma contents_None_sound c k :
  sound c -> contents c !! k = None <-> itemByKeyMapping_ c !! k = None.
Proof.
  intros Hs. rewrite lookup_contents.
  destruct (itemByKeyMapping_ c !! k) as [i|] eqn:Hk; simpl; [|done].
  destruct (item_at_in_range _ _ (sound_map _ Hs _ _ Hk)) as [it Hit].
  unfold value_at. rewrite Hit. simpl. split; discriminate.
Qed.

Lemma contents_None c k :
  wf c -> contents c !! k = None <-> itemByKeyMapping_ c !! k = None.
Proof. intros W. by apply contents_None_sound, wf_sound. Qed.

Lemma try_get_contents k c r c' :
  try_get k c = Done r c' -> contents c' = contents c.
Proof.
  intros E. apply try_get_Done in E.
  destruct E as (_ & Hm & _ & _ & _ & _ & Hv & _).
  apply map_eq. intros k'. rewrite !lookup_contents, Hm.
  destruct (itemByKeyMapping_ c !! k'); simpl; [apply Hv|done].
Qed.

(** Placing a fresh key stores the value under it; every other key
    keeps its value or is the one evicted. *)
Lemma placement_contents k v c c' :
  wf c -> itemByKeyMapping_ c !! k = None -> placement c k v c' ->
  (size c < capacity_ c /\ contents c' = <[k := v]> (contents c)) \/
  (size c = capacity_ c /\
   exists victim, is_Some (contents c !! victim) /\
                  contents c' = <[k := v]> (delete victim (contents c))).
Proof.
  intros W Hk (slot & base & Hp & Hm & Hc & Hl & Hh & Ht & Hr & Hka & Hva).
  destruct (placed_facts _ _ _ _ _ W Hk Hp Hm) as (Hge & Hle & Hslot & Hbase).
  assert (forall k', contents c' !! k' =
                     <[k := v]> (omap (value_at c) base) !! k') as Hlook.
  { intros k'. rewrite lookup_contents, Hm.
    destruct (decide (k = k')) as [->|Hne].
    - rewrite !lookup_insert_eq. simpl. by rewrite Hva, decide_True.
    - rewrite !lookup_insert_ne by done. rewrite lookup_omap.
      destruct (base !! k') as [i|] eqn:Hi; simpl; [|done].
      destruct (Hbase _ _ Hi) as [_ Hns]. by rewrite Hva, decide_False. }
  destruct Hp as [(-> & -> & Hlt)|(victim & Hv & -> & Hfull)].
  - left. split; [done|]. apply map_eq. intros k'. by rewrite Hlook.
  - right. split; [done|]. exists victim. split.
    + apply not_eq_None_Some. rewrite contents_None by done. congruence.
    + apply map_eq. intros k'. rewrite Hlook.
      destruct (decide (k = k')) as [->|Hne].
      * by rewrite !lookup_insert_eq.
      * rewrite !lookup_insert_ne by done. rewrite lookup_omap.
        destruct (decide (victim = k')) as [->|Hne'].
        -- by rewrite !lookup_delete_eq.
        -- rewrite !lookup_delete_ne by done. by rewrite lookup_contents.
Qed.

(** [emplace] stores the value under the key. *)
Lemma emplace_contents k v c u c' :
  wf c -> emplace k v c = Done u c' ->
  contents c !! k = None /\
  ((size c < capacity_ c /\ contents c' = <[k := v]> (contents c)) \/
   (size c = capacity_ c /\
    exists victim, is_Some (contents c !! victim) /\
                   contents c' = <[k := v]> (delete victim (contents c)))).
Proof.
  intros W E. destruct (emplace_Done _ _ _ _ _ W E) as [Hk Hp].
  split; [by apply contents_None|]. eauto using placement_contents.
Qed.

Lemma write_value_wf i v c : wf c -> wf (upd_item i (with_value v) c).
Proof.
  intros W. split; autorewrite with lru; try apply W.
  intros k' j. rewrite key_at_upd_value. apply W.
Qed.

Lemma subscript_assign_wf k v c u c' :
  wf c -> subscript_assign value_default k v c = Done u c' -> wf c'.
Proof.
  intros W E. unfold subscript_assign in E. minv.
  - apply write_value_wf. eauto using try_get_wf.
  - apply write_value_wf.
    match goal with
    | Ht : try_get _ _ = Done None _ |- _ =>
        apply try_get_Done in Ht; destruct Ht as (_ & _ & _ & _ & _ & _ & _ & ->)
    end.
    eauto using emplace_wf.
Qed.

(** [cache[k] = v] leaves [v] stored under [k]. *)
Lemma subscript_assign_contents k v c u c' :
  wf c -> subscript_assign value_default k v c = Done u c' ->
  contents c' !! k = Some v.
Proof.
  intros W E. unfold subscript_assign in E. minv.
  - match goal with
    | Ht : try_get _ _ = Done (Some ?i) ?c1 |- _ =>
        pose proof (try_get_Done _ _ _ _ Ht) as (Hr & Hm & _ & _ & _ & _ & _ & _)
    end.
    rewrite lookup_contents. autorewrite with lru. rewrite Hm, <- Hr. simpl.
    rewrite value_at_upd_value, decide_True by done.
    match goal with Hi : in_range _ _ = true |- _ => by rewrite Hi end.
  - match goal with
    | Ht : try_get _ _ = Done None _ |- _ =>
        apply try_get_Done in Ht; destruct Ht as (_ & _ & _ & _ & _ & _ & _ & ->)
    end.
    match goal with
    | He : emplace _ _ _ = Done _ _ |- _ =>
        destruct (emplace_Done _ _ _ _ _ W He)
          as (Hk & slot & base & Hp & Hm & Hc & Hl & Hh & Ht & Hr & Hka & Hva)
    end.
    rewrite lookup_contents. autorewrite with lru. rewrite Hm, lookup_insert_eq. simpl.
    rewrite Hh, value_at_upd_value, decide_True by done.
    match goal with Hi : in_range _ _ = true |- _ => rewrite Hh in Hi; by rewrite Hi end.
Qed.

(** [clear()]'s loop resets exactly the slots [i, i + n). *)
Lemma clear_loop_spec n : forall i c,
  i + N.of_nat n <= N.of_nat (length (items_ c)) ->
  exists c', clear_loop key_default value_default n i c = Done tt c' /\
    head_ c' = head_ c /\ tail_ c' = tail_ c /\
    itemByKeyMapping_ c' = itemByKeyMapping_ c /\
    capacity_ c' = capacity_ c /\
    length (items_ c') = length (items_ c) /\
    forall j, item_at c' j =
              if decide (i <= j < i + N.of_nat n)
              then Item_clear key_default value_default <$> item_at c j
              else item_at c j.
Proof.
  induction n as [|n IH]; intros i c Hle.
  - exists c. repeat split; try done. intros j. rewrite decide_False by lia. done.
  - assert (in_range c i = true) as Hi by (apply in_range_lt; lia).
    destruct (IH (i + 1) (upd_item i (Item_clear key_default value_default) c))
      as (c' & E & Hh & Ht & Hm & Hc & Hl & Hit).
    { rewrite length_upd. lia. }
    exists c'. simpl. rewrite bind_write_ok by done.
    autorewrite with lru in *. repeat split; try done.
    intros j. rewrite Hit, item_at_upd.
    repeat case_decide; try lia; done.
Qed.

Lemma clear_spec_sound c :
  sound c ->
  exists c', clear key_default value_default c = Done tt c' /\
    head_ c' = head_ c /\ tail_ c' = tail_ c /\
    itemByKeyMapping_ c' = ∅ /\
    capacity_ c' = capacity_ c /\
    length (items_ c') = length (items_ c) /\
    forall j, item_at c' j =
              if decide (j < size c)
              then Item_clear key_default value_default <$> item_at c j
              else item_at c j.
Proof.
  intros W. destruct (clear_loop_spec (N.to_nat (size c)) 0 c)
    as (c1 & E & Hh & Ht & Hm & Hc & Hl & Hit).
  { pose proof (sound_size _ W). pose proof (sound_length _ W). lia. }
  exists (put_mapping ∅ c1). unfold clear, set_mapping. unfold_m. rewrite E.
  autorewrite with lru. repeat split; try done.
  intros j. autorewrite with lru. rewrite Hit.
  repeat case_decide; try lia; done.
Qed.

Lemma clear_spec c :
  wf c ->
  exists c', clear key_default value_default c = Done tt c' /\
    head_ c' = head_ c /\ tail_ c' = tail_ c /\
    itemByKeyMapping_ c' = ∅ /\
    capacity_ c' = capacity_ c /\
    length (items_ c') = length (items_ c) /\
    forall j, item_at c' j =
              if decide (j < size c)
              then Item_clear key_default value_default <$> item_at c j
              else item_at c j.
Proof. intros W. by apply clear_spec_sound, wf_sound. Qed.

Lemma size_empty c : itemByKeyMapping_ c = ∅ -> size c = 0.
Proof. unfold size. intros ->. by rewrite map_size_empty. Qed.

Lemma clear_wf c u c' :
  wf c -> clear key_default value_default c = Done u c' -> wf c'.
Proof.
  intros W E. destruct (clear_spec c W) as (c1 & E1 & Hh & Ht & Hm & Hc & Hl & Hit).
  rewrite E1 in E. inversion E; subst c1.
  pose proof (size_empty _ Hm) as Hs.
  split.
  - rewrite Hl, Hc. apply W.
  - rewrite Hc. apply W.
  - rewrite Hs. lia.
  - intros k i. by rewrite Hm, lookup_empty.
  - by rewrite Hs.
  - by rewrite Hs.
Qed.

Lemma create_wf cap : cap <= npos -> wf (create key_default value_default cap).
Proof.
  intros Hle. split; simpl; try done.
  - rewrite length_replicate. lia.
  - unfold size. simpl. rewrite map_size_empty. lia.
Qed.

(** When moving a key copies it, every cache built by the public
    operations is well formed. *)
Lemma reachable_wf c : reachable key_default value_default c -> wf c.
Proof.
  induction 1 as [cap Hle|o c c' _ IH E].
  - by apply create_wf.
  - destruct o; simpl in E.
    + unfold touch in E. minv. eauto using try_get_wf.
    + eauto using emplace_wf.
    + minv. eauto using try_emplace_wf.
    + minv. eauto using get_or_emplace_wf.
    + eauto using subscript_assign_wf.
    + eauto using clear_wf.
Qed.

(** *** Further properties of the cache *)

Lemma in_range_same_length c c' i :
  length (items_ c') = length (items_ c) -> in_range c' i = in_range c i.
Proof. unfold in_range. by intros ->. Qed.

Lemma try_get_head_ok k c r c' :
  head_ok c -> try_get k c = Done r c' -> head_ok c'.
Proof.
  intros Hh E. apply try_get_Done in E.
  destruct E as (_ & _ & _ & Hl & _ & _ & _ & Hr). destruct r as [i|].
  - destruct Hr as [Hi' Hi]. right. by rewrite Hi', (in_range_same_length _ _ _ Hl).
  - by subst.
Qed.

Lemma placement_head_ok k v c c' : placement c k v c' -> head_ok c'.
Proof.
  intros (slot & base & _ & _ & _ & Hl & Hs & _ & Hr & _). right.
  by rewrite Hs, (in_range_same_length _ _ _ Hl).
Qed.

Lemma upd_head_ok i f c : head_ok c -> head_ok (upd_item i f c).
Proof. unfold head_ok. by autorewrite with lru. Qed.

Lemma run_op_head_ok o c c' :
  wf c -> head_ok c -> run_op key_default value_default o c = Done tt c' -> head_ok c'.
Proof.
  intros W Hh E. destruct o; simpl in E.
  - unfold touch in E. minv. eauto using try_get_head_ok.
  - destruct (emplace_Done _ _ _ _ _ W E) as [_ Hp]. eauto using placement_head_ok.
  - minv. match goal with Ht : try_emplace _ _ _ = Done _ _ |- _ =>
      destruct (try_emplace_Done _ _ _ _ _ W Ht) as [(_ & _ & Hg)|(_ & _ & Hp)] end;
      eauto using try_get_head_ok, placement_head_ok.
  - minv. match goal with Ht : get_or_emplace _ _ _ = Done _ _ |- _ =>
      destruct (get_or_emplace_Done _ _ _ _ _ W Ht) as [(_ & Hg)|(_ & Hp)] end;
      eauto using try_get_head_ok, placement_head_ok.
  - unfold subscript_assign in E. minv.
    + apply upd_head_ok. eauto using try_get_head_ok.
    + apply upd_head_ok.
      match goal with
      | Ht : try_get _ _ = Done None _ |- _ =>
          apply try_get_Done in Ht; destruct Ht as (_ & _ & _ & _ & _ & _ & _ & ->)
      end.
      match goal with He : emplace _ _ _ = Done _ _ |- _ =>
        destruct (emplace_Done _ _ _ _ _ W He) as [_ Hp] end.
      eauto using placement_head_ok.
  - destruct (clear_spec c W) as (c1 & E1 & Hh1 & _ & _ & _ & Hl & _).
    rewrite E1 in E. injection E as <-.
    unfold head_ok. rewrite Hh1, (in_range_same_length _ _ _ Hl). done.
Qed.


Lemma reachable_head_ok c : reachable key_default value_default c -> head_ok c.
Proof.
  induction 1 as [cap Hle|o c c' Hr IH E]; [by left|].
  eauto using run_op_head_ok, reachable_wf.
Qed.

(** Reading a stored value: [at] on a well-formed cache. *)
Lemma at_stored k v c :
  wf c -> contents c !! k = Some v ->
  exists c', at_ k c = Done v c' /\ contents c' = contents c /\ wf c'.
Proof.
  intros W Hv.
  destruct (try_get_total k c W) as (c' & E).
  pose proof (try_get_Done _ _ _ _ E) as (_ & Hm & _ & Hl & _ & _ & Hva & Hh).
  rewrite lookup_contents in Hv.
  destruct (itemByKeyMapping_ c !! k) as [i|] eqn:Hk; [|discriminate Hv]. simpl in Hv.
  destruct Hh as [_ Hr].
  exists c'. split; [|eauto using try_get_contents, try_get_wf].
  unfold at_. unfold bind at 1. rewrite E.
  destruct (item_at_in_range c' i) as [it Hit].
  { by rewrite (in_range_same_length _ _ _ Hl). }
  unfold bind, read_item. rewrite Hit. simpl.
  rewrite <- Hva in Hv. unfold value_at in Hv. rewrite Hit in Hv. simpl in Hv.
  by injection Hv as ->.
Qed.

(** X1: the invariants of every cache a program can hold when moving
    a key copies it ([moved_copy]): the size is at most the capacity,
    which is the number of slots; a key is in the mapping exactly when
    a value is stored for it; every key of the mapping is mapped to one
    of the first [size()] slots, which holds that key; two keys never
    share a slot; and [head_] names one of the first [size()] slots
    unless the cache is empty. *)
Theorem reachable_invariants c :
  reachable key_default value_default c ->
  size c <= capacity_ c /\
  N.of_nat (length (items_ c)) = capacity_ c /\
  (forall k, is_Some (itemByKeyMapping_ c !! k) <-> is_Some (contents c !! k)) /\
  (forall k i, itemByKeyMapping_ c !! k = Some i -> i < size c /\ key_at c i = Some k) /\
  (forall k1 k2 i, itemByKeyMapping_ c !! k1 = Some i ->
                   itemByKeyMapping_ c !! k2 = Some i -> k1 = k2) /\
  (size c <> 0 -> head_ c < size c).
Proof.
  intros W%reachable_wf. split; [apply W|]. split; [apply W|]. split; [|split; [|split]].
  - intros k. rewrite <- !not_eq_None_Some. by rewrite contents_None.
  - apply W.
  - intros k1 k2 i H1 H2.
    destruct (wf_map _ W _ _ H1) as [_ E1]. destruct (wf_map _ W _ _ H2) as [_ E2].
    congruence.
  - apply W.
Qed.

(** X5: when moving a key copies it ([moved_copy]), whatever is
    stored under a key can be read back: after [emplace(k, v)], after
    [cache[k] = v] and after a [try_emplace(k, v)] that returns true,
    [at(k)] returns [v]. *)
Theorem store_then_at k v c c' :
  reachable key_default value_default c ->
  emplace k v c = Done tt c' \/
  subscript_assign value_default k v c = Done tt c' \/
  try_emplace k v c = Done true c' ->
  exists c'', at_ k c' = Done v c''.
Proof.
  intros W%reachable_wf E.
  assert (wf c' /\ contents c' !! k = Some v) as [W' Hv].
  { destruct E as [E|[E|E]].
    - split; [eauto using emplace_wf|].
      destruct (emplace_contents _ _ _ _ _ W E) as [_ [[_ ->]|[_ (vk & _ & ->)]]];
        apply lookup_insert_eq.
    - split; [eauto using subscript_assign_wf|eauto using subscript_assign_contents].
    - split; [eauto using try_emplace_wf|].
      destruct (try_emplace_Done _ _ _ _ _ W E) as [(? & _)|(_ & Hk & Hp)]; [done|].
      destruct (placement_contents _ _ _ _ W Hk Hp) as [[_ ->]|[_ (vk & _ & ->)]];
        apply lookup_insert_eq. }
  destruct (at_stored _ _ _ W' Hv) as (c'' & E' & _). eauto.
Qed.

(** X8: when moving a key copies it ([moved_copy]),
    [get_or_emplace(k, v)], when it returns, returns the value that was
    stored for [k] if there was one and [v] otherwise, and that value
    is stored for [k] afterwards. *)
Theorem get_or_emplace_returns_stored k v c r c' :
  reachable key_default value_default c ->
  get_or_emplace k v c = Done r c' ->
  r = default v (contents c !! k) /\ contents c' !! k = Some r.
Proof.
  intros W%reachable_wf E.
  pose proof (get_or_emplace_wf _ _ _ _ _ W E) as W'.
  unfold get_or_emplace in E. minv.
  - match goal with
    | Ht : try_get _ _ = Done (Some ?i) ?c1 |- _ =>
        pose proof (try_get_Done _ _ _ _ Ht) as (Hr & Hm & _ & _ & _ & _ & Hva & _);
        pose proof (try_get_contents _ _ _ _ Ht) as Hc
    end.
    match goal with
    | Hread : item_at _ _ = Some ?it |- _ =>
        assert (contents c !! k = Some (value it)) as Hv
          by (rewrite lookup_contents, <- Hr; simpl; rewrite <- Hva; unfold value_at;
              by rewrite Hread)
    end.
    rewrite Hc, Hv. done.
  - match goal with
    | Ht : try_get _ _ = Done None _ |- _ =>
        apply try_get_Done in Ht; destruct Ht as (Hr & _ & _ & _ & _ & _ & _ & ->)
    end.
    match goal with Hp : repr _ = Done _ _ |- _ => apply repr_Done in Hp; subst end.
    match goal with He : emplace _ _ _ = Done _ _ |- _ =>
      destruct (emplace_Done _ _ _ _ _ W He)
        as (Hk & slot & base & Hp & Hm & Hc & Hl & Hh & Ht & Hs & Hka & Hva)
    end.
    match goal with Hit : item_at _ _ = Some _ |- _ => rename Hit into Hread end.
    assert (contents c !! k = None) as -> by (by apply contents_None).
    simpl. rewrite Hh in Hread.
    pose proof (Hva slot) as Hvs. rewrite decide_True in Hvs by done.
    unfold value_at in Hvs. rewrite Hread in Hvs. simpl in Hvs. injection Hvs as ->.
    split; [done|].
    rewrite lookup_contents, Hm, lookup_insert_eq. simpl.
    by rewrite Hva, decide_True.
Qed.

(** Placing a fresh key while there is room never faults. *)
Lemma emplace_fresh_total k v c :
  wf c -> head_ok c -> itemByKeyMapping_ c !! k = None -> size c < capacity_ c ->
  exists c', emplace k v c = Done tt c'.
Proof.
  intros W Hh Hk Hlt.
  pose proof (wf_length _ W) as Hlen. pose proof (wf_cap _ W) as Hcap.
  assert ((size c =? capacity_ c) = false) as Hne by (apply N.eqb_neq; lia).
  assert ((size c <? capacity_ c) = true) as Hltb by (by apply N.ltb_lt).
  assert (in_range c (size c) = true) as Hs by (apply in_range_lt; lia).
  assert ((size c =? npos) = false) as Hnp by (apply N.eqb_neq; lia).
  destruct (item_at_in_range _ _ Hs) as [it0 Hit0].
  unfold emplace, contains, try_get, prepend_internal. unfold_m.
  rewrite Hk. simpl. rewrite Hne, Hltb, Hs. simpl.
  autorewrite with lru. rewrite Hs. autorewrite with lru. rewrite Hs.
  destruct (head_ c =? npos) eqn:Hhd; simpl.
  - destruct (tail_ c =? npos) eqn:Htl; simpl; rewrite ?Hnp, ?Htl; simpl;
      run; by eexists.
  - destruct Hh as [Hh|Hh]; [apply N.eqb_neq in Hhd; done|].
    autorewrite with lru. rewrite Hh.
    destruct (tail_ c =? npos) eqn:Htl; simpl; rewrite ?Hnp, ?Htl; simpl;
      run; by eexists.
Qed.

Lemma emplace_with_room_aux k v c :
  reachable key_default value_default c ->
  contents c !! k = None -> size c < capacity_ c ->
  exists c', emplace k v c = Done tt c' /\
             size c' = size c + 1 /\
             contents c' = <[k := v]> (contents c).
Proof.
  intros R Hk Hlt. pose proof (reachable_wf _ R) as W.
  apply contents_None in Hk; [|done].
  destruct (emplace_fresh_total k v c W (reachable_head_ok _ R) Hk Hlt) as (c' & E).
  exists c'. split; [done|].
  destruct (emplace_Done _ _ _ _ _ W E) as (_ & slot & base & Hp & Hm & _).
  destruct (emplace_contents _ _ _ _ _ W E) as [_ [[_ Hc]|[Hfull _]]]; [|lia].
  split; [|done].
  destruct Hp as [(-> & -> & _)|(? & _ & _ & Hfull)]; [|lia].
  by apply (size_insert_fresh c c' k (size c)).
Qed.

(** X9: when moving a key copies it ([moved_copy]), on a cache a
    program can hold that is not full, [emplace] of a key with no
    stored value returns; the size grows by one, the value is stored
    under the key and every other key keeps its value. *)
Theorem emplace_with_room k v c :
  reachable key_default value_default c ->
  contents c !! k = None -> size c < capacity_ c ->
  exists c', emplace k v c = Done tt c' /\
             size c' = size c + 1 /\
             contents c' = <[k := v]> (contents c).
Proof. apply emplace_with_room_aux. Qed.

(** The slot [prepend_internal] fills is linked to the old [head_],
    whatever that was. *)
Lemma prepend_internal_next k v c u c' :
  prepend_internal k v c = Done u c' ->
  head_ c' = size c /\ next <$> item_at c' (size c) = Some (head_ c).
Proof.
  intros E. unfold prepend_internal, set_head, set_tail, set_mapping in E. minv.
  all: autorewrite with lru in *.
  all: split; [done|].
  all: match goal with
       | Hr : in_range ?c0 (size ?c0) = true |- _ =>
           destruct (item_at_in_range _ _ Hr) as [it0 Hit0]
       end.
  all: rewrite ?item_at_upd; repeat case_decide; try done; rewrite Hit0; done.
Qed.

Lemma emplace_next k v c u c' :
  size c < capacity_ c -> emplace k v c = Done u c' ->
  head_ c' = size c /\ next <$> item_at c' (size c) = Some (head_ c).
Proof.
  intros Hlt E. unfold emplace, contains in E. minv.
  all: match goal with
       | Ht : try_get _ _ = Done _ _ |- _ =>
           apply try_get_Done in Ht; destruct Ht as (_ & _ & _ & _ & _ & _ & _ & Hc)
       end.
  all: match goal with
       | Hp : negb (match ?p with Some _ => true | None => false end) = true |- _ =>
           destruct p; [discriminate Hp|]; subst
       end.
  - match goal with Hsz : (size _ =? capacity_ _) = true |- _ => apply N.eqb_eq in Hsz end.
    lia.
  - eauto using prepend_internal_next.
Qed.

(** *** The list of used slots under insertion *)

Lemma item_at_npos c : wf c -> item_at c npos = None.
Proof.
  intros W. apply item_at_None. apply N.ltb_ge.
  pose proof (wf_length _ W). pose proof (wf_cap _ W). lia.
Qed.

(** What [emplace] writes when there is room. *)
Lemma emplace_room_items k v c u c' :
  wf c -> size c < capacity_ c -> head_ c <> size c ->
  emplace k v c = Done u c' ->
  head_ c' = size c /\
  tail_ c' = (if tail_ c =? npos then size c else tail_ c) /\
  forall j, item_at c' j =
            if decide (j = size c)
            then (fun it => mkItem k v (prev it) (head_ c)) <$> item_at c j
            else if decide (j = head_ c) then with_prev (size c) <$> item_at c j
                 else item_at c j.
Proof.
  intros W Hlt Hhs E. unfold emplace, contains in E. minv.
  all: match goal with
       | Ht : try_get _ _ = Done _ _ |- _ =>
           apply try_get_Done in Ht; destruct Ht as (_ & _ & _ & _ & _ & _ & _ & Hc)
       end.
  all: match goal with
       | Hp : negb (match ?p with Some _ => true | None => false end) = true |- _ =>
           destruct p; [discriminate Hp|]; subst
       end.
  { match goal with Hsz : (size _ =? capacity_ _) = true |- _ => apply N.eqb_eq in Hsz end.
    lia. }
  match goal with He : prepend_internal _ _ _ = Done _ _ |- _ => rename He into E end.
  unfold prepend_internal, set_head, set_tail, set_mapping in E. minv.
  all: autorewrite with lru in *.
  all: repeat match goal with
       | Hb : negb (_ =? _) = false |- _ => apply negb_false_iff in Hb
       | Hb : negb (_ =? _) = true |- _ => apply negb_true_iff in Hb
       end.
  all: repeat match goal with
       | Hb : (?a =? ?b) = _ |- context [?a =? ?b] => rewrite Hb
       end.
  all: split; [done|]. all: split; [done|].
  all: intros j; autorewrite with lru_items lru.
  all: repeat case_decide; subst; try done; try congruence.
  all: try (by destruct (item_at c (size c))).
  all: match goal with
       | Hb : (head_ ?c0 =? npos) = true |- _ =>
           apply N.eqb_eq in Hb; rewrite Hb; by rewrite item_at_npos
       end.
Qed.

Lemma linked_lt c L s : linked c L -> s ∈ L -> s < size c.
Proof. intros HL Hs. by apply (linked_used _ _ HL). Qed.

Lemma linked_not_npos c L s : wf c -> linked c L -> s ∈ L -> s <> npos.
Proof.
  intros W HL Hs%(linked_lt _ _ _ HL).
  pose proof (wf_size _ W). pose proof (wf_cap _ W). lia.
Qed.

(** [head_] of a linked cache is the first slot of the list. *)
Lemma linked_head_cases c L :
  linked c L ->
  (L = [] /\ head_ c = npos) \/ (L !! 0%nat = Some (head_ c) /\ head_ c < size c).
Proof.
  intros HL. rewrite (linked_head _ _ HL). destruct L as [|h L]; simpl; [by left|].
  right. split; [done|]. apply (linked_lt _ _ _ HL). by left.
Qed.

Lemma linked_head_ne_size c L :
  wf c -> size c < capacity_ c -> linked c L -> head_ c <> size c.
Proof.
  intros W Hlt HL. destruct (linked_head_cases _ _ HL) as [[_ ->]|[_ Hh]]; [|lia].
  pose proof (wf_cap _ W). lia.
Qed.

(** Insertion with room left puts the new slot in front of the list. *)
Lemma emplace_room_linked k v c u c' L :
  wf c -> linked c L -> size c < capacity_ c ->
  emplace k v c = Done u c' ->
  linked c' (size c :: L).
Proof.
  intros W HL Hlt E.
  pose proof (linked_head_ne_size _ _ W Hlt HL) as Hhs.
  destruct (emplace_Done _ _ _ _ _ W E) as (Hk & slot & base & Hp & Hm & _).
  destruct Hp as [(-> & -> & _)|(? & _ & _ & Hfull)]; [|lia].
  pose proof (size_insert_fresh _ _ _ _ Hk Hm) as Hs.
  destruct (emplace_room_items _ _ _ _ _ W Hlt Hhs E) as (Hh & Ht & Hit).
  assert (in_range c (size c) = true) as Hr
    by (apply in_range_lt; pose proof (wf_length _ W); lia).
  destruct (item_at_in_range _ _ Hr) as [it0 Hit0].
  split.
  - apply NoDup_cons. split; [|apply HL].
    intros Hin%(linked_lt _ _ _ HL). lia.
  - simpl. rewrite Hs. pose proof (linked_length _ _ HL). lia.
  - by rewrite Hh.
  - rewrite Ht, (linked_tail _ _ HL), last_cons.
    destruct (last L) as [t|] eqn:Hl; simpl; [|done].
    assert (t <> npos) as Hnp%N.eqb_neq.
    { apply (linked_not_npos c L); [done..|].
      rewrite last_lookup in Hl. by eapply list_elem_of_lookup_2. }
    by rewrite Hnp.
  - intros i s Hi. destruct i as [|i]; simpl in Hi.
    + injection Hi as <-. rewrite Hit, decide_True, Hit0 by done.
      eexists. split; [done|]. simpl. split.
      * by apply (linked_unused _ _ HL (size c)).
      * unfold slot_after. simpl. by rewrite (linked_head _ _ HL), head_lookup.
    + destruct (linked_items _ _ HL _ _ Hi) as (it & Hs' & Hp & Hn).
      assert (s < size c) as Hlts
        by (apply (linked_lt _ _ _ HL); by eapply list_elem_of_lookup_2).
      rewrite Hit, decide_False, Hs' by lia.
      destruct (linked_head_cases _ _ HL) as [[-> _]|[Hh0 _]]; [done|].
      case_decide as Hd.
      * subst s.
        assert (i = 0%nat) as -> by (eapply NoDup_lookup; [apply HL|done..]).
        eexists. split; [done|]. simpl. split; [done|]. by rewrite Hn.
      * destruct i as [|i]; [congruence|].
        eexists. split; [done|]. by rewrite Hp, Hn.
  - intros s. rewrite elem_of_cons, (linked_used _ _ HL), Hs. lia.
  - intros s [->|Hin]%elem_of_cons.
    + exists k. rewrite Hm. apply lookup_insert_eq.
    + destruct (linked_mapped _ _ HL _ Hin) as [k' Hk']. exists k'.
      rewrite Hm, lookup_insert_ne; [done|]. congruence.
  - intros s it Hle. rewrite Hs in Hle. rewrite Hit, decide_False by lia.
    destruct (linked_head_cases _ _ HL) as [[_ Hh0]|[_ Hh0]].
    + rewrite Hh0. case_decide; [subst; by rewrite item_at_npos|].
      apply (linked_unused _ _ HL). lia.
    + rewrite decide_False by lia. apply (linked_unused _ _ HL). lia.
Qed.

Lemma linked_in_range c L s : wf c -> linked c L -> s ∈ L -> in_range c s = true.
Proof.
  intros W HL Hs%(linked_lt _ _ _ HL). apply in_range_lt.
  pose proof (wf_size _ W). pose proof (wf_length _ W). lia.
Qed.

(** The two last slots of a linked list of at least two slots. *)
Lemma linked_two_last c L1 p t :
  wf c -> linked c (L1 ++ [p; t]) ->
  tail_ c = t /\ p <> t /\ head_ c <> t /\
  in_range c t = true /\ in_range c p = true /\ in_range c (head_ c) = true /\
  t <> npos /\ p <> npos /\
  (L1 ++ [p; t]) !! 0%nat = Some (head_ c) /\
  exists tl, item_at c t = Some tl /\ prev tl = p /\
             itemByKeyMapping_ c !! key tl = Some t.
Proof.
  intros W HL.
  assert ((L1 ++ [p; t]) !! length L1 = Some p) as Hp
    by (by rewrite lookup_app_r, Nat.sub_diag by lia).
  assert ((L1 ++ [p; t]) !! S (length L1) = Some t) as Ht
    by (rewrite lookup_app_r by lia; by replace (S (length L1) - length L1)%nat with 1%nat by lia).
  pose proof (list_elem_of_lookup_2 _ _ _ Hp) as Hpin.
  pose proof (list_elem_of_lookup_2 _ _ _ Ht) as Htin.
  destruct (linked_head_cases _ _ HL) as [[Hnil _]|[Hh0 Hhlt]];
    [by destruct L1|].
  pose proof (list_elem_of_lookup_2 _ _ _ Hh0) as Hhin.
  split.
  { rewrite (linked_tail _ _ HL).
    replace (L1 ++ [p; t]) with ((L1 ++ [p]) ++ [t]) by (by rewrite <- app_assoc).
    by rewrite last_snoc. }
  split.
  { intros ->. pose proof (NoDup_lookup _ _ _ _ (linked_nodup _ _ HL) Hp Ht). lia. }
  split.
  { intros Heq. rewrite Heq in Hh0.
    pose proof (NoDup_lookup _ _ _ _ (linked_nodup _ _ HL) Hh0 Ht). lia. }
  repeat split; eauto using linked_in_range, linked_not_npos.
  destruct (linked_items _ _ HL _ _ Ht) as (tl & Htl & Hprev & _).
  exists tl. split; [done|]. split.
  { rewrite Hprev. unfold slot_before. by rewrite Hp. }
  destruct (linked_mapped _ _ HL _ Htin) as [k' Hk'].
  destruct (wf_map _ W _ _ Hk') as [_ Hkey]. unfold key_at in Hkey.
  rewrite Htl in Hkey. simpl in Hkey. injection Hkey as ->. done.
Qed.

(** What [emplace] of a fresh key writes when the cache is full and
    its list has at least two slots. *)
Lemma emplace_full_items k v c L1 p t :
  wf c -> linked c (L1 ++ [p; t]) -> size c = capacity_ c ->
  itemByKeyMapping_ c !! k = None ->
  exists c', emplace k v c = Done tt c' /\
    head_ c' = t /\ tail_ c' = p /\
    forall j, item_at c' j =
              if decide (j = t)
              then (fun _ => mkItem k v npos (head_ c)) <$> item_at c j
              else (if decide (j = p) then with_next npos else id)
                     <$> ((if decide (j = head_ c) then with_prev t else id)
                            <$> item_at c j).
Proof.
  intros W HL Hfull Hk.
  destruct (linked_two_last _ _ _ _ W HL)
    as (Ht & Hpt & Hht & Hrt & Hrp & Hrh & Htn & Hpn & _ & tl & Htl & Hprev & Hm).
  apply N.eqb_eq in Hfull. apply N.eqb_neq in Htn, Hpn.
  subst p. rewrite <- Ht in *.
  unfold emplace, contains, try_get, evict_one_and_push_front. unfold_m.
  rewrite Hk. simpl. rewrite Hfull, Htl, Hm, Htl. simpl.
  run; try congruence.
  all: eexists; split; [reflexivity|].
  all: split; [done|]; split; [done|].
  all: intros j; autorewrite with lru_items lru. 
  all: repeat case_decide; subst; try done; try congruence.
  all: match goal with |- context [item_at ?c0 ?i] => by destruct (item_at c0 i) end.
Qed.

Lemma lookup_all_but_last (L1 : list N) p t (i : nat) :
  (i <= length L1)%nat -> (L1 ++ [p; t]) !! i = (L1 ++ [p]) !! i.
Proof.
  intros Hi. replace (L1 ++ [p; t]) with ((L1 ++ [p]) ++ [t]) by (by rewrite <- app_assoc).
  apply lookup_app_l. rewrite length_app. simpl. lia.
Qed.

(** Insertion into a full cache moves the last slot of the list to
    the front. *)
Lemma emplace_full_linked k v c L1 p t :
  wf c -> linked c (L1 ++ [p; t]) -> size c = capacity_ c ->
  itemByKeyMapping_ c !! k = None ->
  exists c', emplace k v c = Done tt c' /\ linked c' (t :: L1 ++ [p]).
Proof.
  intros W HL Hfull Hk.
  destruct (emplace_full_items k v _ _ _ _ W HL Hfull Hk) as (c' & E & Hh & Ht & Hit).
  exists c'. split; [done|].
  destruct (linked_two_last _ _ _ _ W HL)
    as (Htl & Hpt & Hht & Hrt & Hrp & Hrh & Htn & Hpn & Hh0 & tl & Htl' & Hprev & Hm).
  destruct (emplace_Done _ _ _ _ _ W E)
    as (_ & slot & base & Hp & Hmap & _ & _ & Hslot & _).
  rewrite Hh in Hslot. subst slot.
  destruct (placed_facts _ _ _ _ _ W Hk Hp Hmap) as (Hge & Hle & _ & _).
  assert (size c' = size c) as Hs by lia.
  destruct Hp as [(_ & ? & ?)|(victim & Hv & -> & _)]; [lia|].
  assert (t :: L1 ++ [p] ≡ₚ L1 ++ [p; t]) as HP.
  { replace (L1 ++ [p; t]) with ((L1 ++ [p]) ++ [t]) by (by rewrite <- app_assoc).
    apply Permutation_cons_append. }
  assert (NoDup (t :: L1 ++ [p])) as HN by (rewrite HP; apply HL).
  assert ((L1 ++ [p]) !! length L1 = Some p) as Hpl
    by (by rewrite lookup_app_r, Nat.sub_diag by lia).
  split.
  - done.
  - rewrite Hs, <- (linked_length _ _ HL). by rewrite HP.
  - by rewrite Hh.
  - by rewrite Ht, last_cons, last_snoc.
  - intros i s Hi. destruct i as [|i]; simpl in Hi.
    + injection Hi as <-. rewrite Hit, decide_True, Htl' by done.
      eexists. split; [done|]. simpl. split; [done|].
      unfold slot_after. simpl. rewrite <- (lookup_all_but_last _ _ t) by lia. by rewrite Hh0.
    + assert (i <= length L1)%nat as Hil.
      { apply lookup_lt_Some in Hi. rewrite length_app in Hi. simpl in Hi. lia. }
      assert (s <> t) as Hst.
      { intros ->. apply NoDup_cons in HN as [HN _]. apply HN.
        by eapply list_elem_of_lookup_2. }
      pose proof Hi as Hi'. rewrite <- (lookup_all_but_last _ _ t) in Hi' by done.
      destruct (linked_items _ _ HL _ _ Hi') as (it & Hs' & Hpr & Hnx).
      rewrite Hit, decide_False, Hs' by done.
      eexists. split; [reflexivity|]. split.
      * assert (prev ((if decide (s = p) then with_next npos else id)
                        ((if decide (s = head_ c) then with_prev t else id) it)) =
                if decide (s = head_ c) then t else prev it) as ->
          by (by repeat case_decide).
        case_decide as Hd.
        -- rewrite Hd in Hi'.
           pose proof (NoDup_lookup _ _ _ _ (linked_nodup _ _ HL) Hi' Hh0). by subst i.
        -- destruct i as [|i]; [congruence|].
           rewrite Hpr. unfold slot_before. simpl.
           by rewrite lookup_all_but_last by lia.
      * assert (next ((if decide (s = p) then with_next npos else id)
                        ((if decide (s = head_ c) then with_prev t else id) it)) =
                if decide (s = p) then npos else next it) as ->
          by (by repeat case_decide).
        unfold slot_after. simpl. case_decide as Hd.
        -- rewrite Hd in Hi.
           pose proof (NoDup_lookup _ _ _ _ (NoDup_cons_1_2 _ _ HN) Hi Hpl). subst i.
           rewrite lookup_ge_None_2; [done|]. rewrite length_app. simpl. lia.
        -- assert (i <> length L1) by (intros ->; congruence).
           rewrite Hnx. unfold slot_after. by rewrite lookup_all_but_last by lia.
  - intros s. by rewrite HP, Hs, (linked_used _ _ HL).
  - intros s Hin. destruct (decide (s = t)) as [->|Hst].
    + exists k. rewrite Hmap. apply lookup_insert_eq.
    + rewrite HP in Hin. destruct (linked_mapped _ _ HL _ Hin) as [k' Hk']. exists k'.
      rewrite Hmap, lookup_insert_ne, lookup_delete_ne; [done|congruence..].
  - intros s it Hsz. rewrite Hs in Hsz.
    assert (forall x, x ∈ L1 ++ [p; t] -> s <> x) as Hout.
    { intros x Hx%(linked_lt _ _ _ HL). lia. }
    rewrite Hit, !decide_False.
    + simpl. destruct (item_at c s) eqn:Hcs; simpl; [|done].
      intros [= <-]. apply (linked_unused _ _ HL s); [lia|done].
    + apply Hout. by eapply list_elem_of_lookup_2.
    + apply Hout. rewrite <- HP. right. apply elem_of_app. right. by left.
    + apply Hout. rewrite <- HP. by left.
Qed.

(** *** Caches that hold their entries in a known order *)

Lemma entry_at_key_value c s :
  entry_at c s = match key_at c s, value_at c s with
                 | Some k, Some v => Some (k, v)
                 | _, _ => None
                 end.
Proof. unfold entry_at, key_at, value_at. by destruct (item_at c s). Qed.

Lemma placement_entry k v c c' :
  placement c k v c' ->
  forall j, entry_at c' j = if decide (j = head_ c') then Some (k, v) else entry_at c j.
Proof.
  intros (slot & base & _ & _ & _ & _ & Hh & _ & _ & Hka & Hva) j.
  rewrite !entry_at_key_value, Hka, Hva, Hh. by case_decide.
Qed.

Lemma represents_lookup_slot c L (order : list (Key * Value)) (n : nat) s :
  entry_at c <$> L = Some <$> order -> L !! n = Some s ->
  exists e, order !! n = Some e /\ entry_at c s = Some e.
Proof.
  intros He Hs. apply (f_equal (fun l => l !! n)) in He.
  rewrite !list_lookup_fmap, Hs in He. simpl in He.
  destruct (order !! n) as [e|]; [|done]. simpl in He. exists e. split; [done|]. congruence.
Qed.

Lemma represents_lookup_entry c L (order : list (Key * Value)) (n : nat) e :
  entry_at c <$> L = Some <$> order -> order !! n = Some e ->
  exists s, L !! n = Some s /\ entry_at c s = Some e.
Proof.
  intros He Ho. apply (f_equal (fun l => l !! n)) in He.
  rewrite !list_lookup_fmap, Ho in He. simpl in He.
  destruct (L !! n) as [s|]; [|done]. simpl in He. exists s. split; [done|]. congruence.
Qed.

Lemma represents_length c L (order : list (Key * Value)) :
  entry_at c <$> L = Some <$> order -> length order = length L.
Proof. intros He. apply (f_equal length) in He. by rewrite !length_fmap in He. Qed.

Lemma linked_slot_key c L s k v :
  wf c -> linked c L -> s ∈ L -> entry_at c s = Some (k, v) ->
  itemByKeyMapping_ c !! k = Some s.
Proof.
  intros W HL Hs He. destruct (linked_mapped _ _ HL _ Hs) as [k' Hk'].
  destruct (wf_map _ W _ _ Hk') as [_ Hkey].
  rewrite entry_at_key_value, Hkey in He.
  destruct (value_at c s); [|done]. congruence.
Qed.

Lemma mapped_entry c L (order : list (Key * Value)) k i :
  wf c -> linked c L -> entry_at c <$> L = Some <$> order ->
  itemByKeyMapping_ c !! k = Some i ->
  exists (n : nat) v,
    L !! n = Some i /\ order !! n = Some (k, v) /\ value_at c i = Some v.
Proof.
  intros W HL He Hk. destruct (wf_map _ W _ _ Hk) as [Hlt Hkey].
  apply (linked_used _ _ HL) in Hlt. apply list_elem_of_lookup_1 in Hlt as [n Hn].
  destruct (represents_lookup_slot _ _ _ _ _ He Hn) as (e & Ho & Hent).
  rewrite entry_at_key_value, Hkey in Hent.
  destruct (value_at c i) as [v|] eqn:Hv; [|done].
  injection Hent as <-. eauto.
Qed.

Lemma represents_fresh c order k :
  wf c -> represents c order -> k ∉ order.*1 -> itemByKeyMapping_ c !! k = None.
Proof.
  intros W (L & HL & He) Hk.
  destruct (itemByKeyMapping_ c !! k) as [i|] eqn:Hi; [|done].
  destruct (mapped_entry _ _ _ _ _ W HL He Hi) as (n & v & _ & Ho & _).
  destruct Hk. apply list_elem_of_fmap. exists (k, v). split; [done|].
  by eapply list_elem_of_lookup_2.
Qed.

Lemma represents_NoDup c order : wf c -> represents c order -> NoDup order.*1.
Proof.
  intros W (L & HL & He). apply NoDup_alt. intros i j k Hi Hj.
  rewrite list_lookup_fmap in Hi, Hj.
  destruct (order !! i) as [[k1 v1]|] eqn:Hoi; [|done].
  destruct (order !! j) as [[k2 v2]|] eqn:Hoj; [|done].
  simpl in *. injection Hi as ->. injection Hj as ->.
  destruct (represents_lookup_entry _ _ _ _ _ He Hoi) as (s1 & Hs1 & He1).
  destruct (represents_lookup_entry _ _ _ _ _ He Hoj) as (s2 & Hs2 & He2).
  pose proof (linked_slot_key _ _ _ _ _ W HL (list_elem_of_lookup_2 _ _ _ Hs1) He1) as M1.
  pose proof (linked_slot_key _ _ _ _ _ W HL (list_elem_of_lookup_2 _ _ _ Hs2) He2) as M2.
  rewrite M1 in M2. injection M2 as ->. eapply NoDup_lookup; [apply HL|done..].
Qed.

Lemma represents_contents c order :
  wf c -> represents c order -> contents c = list_to_map order.
Proof.
  intros W HR. pose proof (represents_NoDup _ _ W HR) as HN.
  destruct HR as (L & HL & He).
  apply map_eq. intros k. apply option_eq. intros v.
  rewrite <- elem_of_list_to_map by done. rewrite lookup_contents. split.
  - intros Hv. destruct (itemByKeyMapping_ c !! k) as [i|] eqn:Hi; [|done]. simpl in Hv.
    destruct (mapped_entry _ _ _ _ _ W HL He Hi) as (n & v' & _ & Ho & Hv').
    rewrite Hv in Hv'. injection Hv' as ->. by eapply list_elem_of_lookup_2.
  - intros [n Hn]%list_elem_of_lookup_1.
    destruct (represents_lookup_entry _ _ _ _ _ He Hn) as (s & Hs & Hent).
    rewrite (linked_slot_key _ _ _ _ _ W HL (list_elem_of_lookup_2 _ _ _ Hs) Hent). simpl.
    rewrite entry_at_key_value in Hent.
    destruct (key_at c s), (value_at c s); try done. congruence.
Qed.

Lemma represents_size c order :
  represents c order -> size c = N.of_nat (length order).
Proof.
  intros (L & HL & He). by rewrite (represents_length _ _ _ He), (linked_length _ _ HL).
Qed.

(** The loop of [keys()] on a linked cache, started at any slot of
    the list. *)
Lemma keys_loop_linked c L (order : list (Key * Value)) :
  wf c -> linked c L -> entry_at c <$> L = Some <$> order ->
  forall (n i : nat), (i + n = length L)%nat ->
    keys_loop n (default npos (L !! i)) c = Done (drop i order).*1 c.
Proof.
  intros W HL He. induction n as [|n IH]; intros i Hi.
  - rewrite lookup_ge_None_2 by lia. simpl.
    rewrite drop_ge; [done|]. rewrite (represents_length _ _ _ He). lia.
  - destruct (lookup_lt_is_Some_2 L i) as [s Hs]; [lia|].
    rewrite Hs. simpl.
    assert ((s =? npos) = false) as ->.
    { apply N.eqb_neq. eapply linked_not_npos; eauto using list_elem_of_lookup_2. }
    destruct (linked_items _ _ HL _ _ Hs) as (it & Hit & _ & Hnx).
    rewrite Hit, Hnx. unfold slot_after. rewrite IH by lia.
    destruct (represents_lookup_slot _ _ _ _ _ He Hs) as (e & Ho & Hent).
    rewrite (drop_S _ _ _ Ho). simpl. unfold entry_at in Hent.
    rewrite Hit in Hent. simpl in Hent. by injection Hent as <-.
Qed.

Lemma keys_represents c order :
  wf c -> represents c order -> keys key_default c = Done order.*1 c.
Proof.
  intros W (L & HL & He). unfold keys.
  pose proof (keys_loop_linked c L order W HL He (length L) 0%nat) as Hk.
  rewrite <- head_lookup, <- (linked_head _ _ HL) in Hk.
  replace (N.to_nat (size c)) with (length L)
    by (rewrite <- (linked_length _ _ HL); lia).
  rewrite Hk by lia. rewrite drop_0.
  rewrite length_fmap, (represents_length _ _ _ He), Nat.sub_diag. simpl.
  by rewrite app_nil_r.
Qed.

Lemma list_two_last {A} (L : list A) :
  (2 <= length L)%nat -> exists L1 p t, L = L1 ++ [p; t].
Proof.
  intros Hl. destruct L as [|t L _] using rev_ind; [simpl in Hl; lia|].
  destruct L as [|p L _] using rev_ind; [simpl in Hl; lia|].
  exists L, p, t. by rewrite <- app_assoc.
Qed.

Lemma create_wf_linked cap :
  cap <= npos -> linked (create key_default value_default cap) [].
Proof.
  intros Hle. split; simpl; try done.
  - apply NoDup_nil_2.
  - intros s. unfold size. simpl. rewrite map_size_empty. split; [by intros ?%elem_of_nil|lia].
  - intros s ?%elem_of_nil. done.
  - intros s it _. unfold item_at. destruct (in_range _ s); [|done]. simpl.
    intros [-> _]%lookup_replicate. done.
Qed.

(** [emplace] of a fresh key into a cache of capacity two or more that
    holds its entries in the order [order]. *)
Lemma emplace_represents k v c order :
  wf c -> represents c order -> size c < capacity_ c \/ 2 <= capacity_ c ->
  k ∉ order.*1 ->
  exists c', emplace k v c = Done tt c' /\ wf c' /\ capacity_ c' = capacity_ c /\
             represents c' (take (N.to_nat (capacity_ c)) ((k, v) :: order)).
Proof.
  intros W HR Hcap Hk. pose proof (represents_fresh _ _ _ W HR Hk) as Hm.
  destruct HR as (L & HL & He).
  pose proof (represents_length _ _ _ He) as Hlen.
  pose proof (linked_length _ _ HL) as Hsz.
  pose proof (wf_size _ W) as Hle.
  assert (forall c' L', emplace k v c = Done tt c' -> linked c' L' ->
            head L' = Some (head_ c') ->
            entry_at c' <$> L' =
            Some (k, v) :: (entry_at c <$> (drop 1 L'))) as Hentries.
  { intros c' L' E HL' Hh. destruct (emplace_Done _ _ _ _ _ W E) as [_ Hp].
    pose proof (placement_entry _ _ _ _ Hp) as Hent.
    destruct L' as [|s L']; [done|]. injection Hh as ->. simpl. rewrite drop_0.
    rewrite Hent, decide_True by done. f_equal.
    apply list_fmap_ext. intros i s Hs. rewrite Hent, decide_False; [done|].
    intros ->. pose proof (linked_nodup _ _ HL') as [Hn _]%NoDup_cons.
    apply Hn. by eapply list_elem_of_lookup_2. }
  destruct (decide (size c < capacity_ c)) as [Hlt|Hge].
  - assert (head_ok c) as Hok.
    { destruct (linked_head_cases _ _ HL) as [[_ Hh]|[Hh _]]; [by left|right].
      eauto using linked_in_range, list_elem_of_lookup_2. }
    destruct (emplace_fresh_total k v c W Hok Hm Hlt) as (c' & E).
    pose proof (emplace_room_linked _ _ _ _ _ _ W HL Hlt E) as HL'.
    destruct (emplace_Done _ _ _ _ _ W E) as (_ & slot & base & _ & _ & Hc & _).
    exists c'. split; [done|]. split; [eauto using emplace_wf|]. split; [done|].
    exists (size c :: L). split; [done|].
    rewrite take_ge by (simpl; lia).
    rewrite (Hentries _ _ E HL') by (by rewrite (linked_head _ _ HL')).
    simpl. rewrite drop_0. by rewrite He.
  - assert (size c = capacity_ c) as Hfull by lia.
    destruct Hcap as [?|Hcap]; [done|].
    destruct (list_two_last L) as (L1 & p & t & ->); [lia|].
    destruct (emplace_full_linked k v _ _ _ _ W HL Hfull Hm) as (c' & E & HL').
    destruct (emplace_Done _ _ _ _ _ W E) as (_ & slot & base & _ & _ & Hc & _).
    exists c'. split; [done|]. split; [eauto using emplace_wf|]. split; [done|].
    exists (t :: L1 ++ [p]). split; [done|].
    rewrite (Hentries _ _ E HL') by (by rewrite (linked_head _ _ HL')).
    simpl (drop 1 _). rewrite drop_0.
    rewrite length_app in Hsz. simpl in Hsz.
    replace (N.to_nat (capacity_ c)) with (S (S (length L1))) by lia.
    simpl (take _ _). rewrite fmap_cons. f_equal.
    rewrite fmap_take, <- He, <- fmap_take. f_equal.
    replace (L1 ++ [p; t]) with ((L1 ++ [p]) ++ [t]) by (by rewrite <- app_assoc).
    rewrite take_app_length'; [done|]. rewrite length_app. simpl. lia.
Qed.

Lemma take_app_take {A} (n : nat) (l l' : list A) :
  take n (l ++ take n l') = take n (l ++ l').
Proof. rewrite !take_app, take_take. f_equal. f_equal. lia. Qed.

(** A run of [emplace]s of distinct fresh keys. *)
Lemma emplace_all_represents kvs : forall c order,
  wf c -> represents c order -> 2 <= capacity_ c ->
  NoDup (kvs.*1 ++ order.*1) ->
  exists c', emplace_all kvs c = Done tt c' /\ wf c' /\ capacity_ c' = capacity_ c /\
             represents c' (take (N.to_nat (capacity_ c)) (rev kvs ++ order)).
Proof.
  induction kvs as [|[k v] kvs IH]; intros c order W HR Hcap HN.
  - exists c. split; [done|]. split; [done|]. split; [done|]. simpl.
    rewrite take_ge; [done|].
    pose proof (represents_size _ _ HR). pose proof (wf_size _ W). lia.
  - simpl in HN. apply NoDup_cons in HN as [Hk HN].
    assert (k ∉ order.*1) as Hko by (intros ?; apply Hk, elem_of_app; by right).
    destruct (emplace_represents k v c order W HR (or_intror Hcap) Hko)
      as (c1 & E1 & W1 & Hc1 & HR1).
    destruct (IH c1 _ W1 HR1) as (c' & E & W' & Hc' & HR'); [lia| |].
    { apply NoDup_app in HN as (HN1 & HN2 & HN3). apply NoDup_app.
      split; [done|]. rewrite fmap_take. simpl. split.
      - intros x Hx Hin.
        pose proof (elem_of_sublist _ _ _ Hin (sublist_take _ _)) as Hin'.
        clear Hin. apply elem_of_cons in Hin' as [->|Hin].
        + apply Hk, elem_of_app. by left.
        + by apply (HN2 x).
      - eapply sublist_NoDup; [|apply sublist_take]. apply NoDup_cons.
        split; [done|done]. }
    exists c'. simpl. unfold bind. rewrite E1. split; [done|]. split; [done|].
    split; [congruence|].
    rewrite Hc1, take_app_take in HR'. by rewrite <- app_assoc.
Qed.

(** [emplace] of a fresh key into a full cache of capacity 0 or 1. *)
Lemma emplace_small_full k v c order :
  wf c -> represents c order -> size c = capacity_ c -> capacity_ c <= 1 ->
  k ∉ order.*1 -> emplace k v c = Fail BadIndex.
Proof.
  intros W HR Hfull Hcap Hk. pose proof (represents_fresh _ _ _ W HR Hk) as Hm.
  destruct HR as (L & HL & He).
  pose proof (linked_length _ _ HL) as Hsz.
  pose proof (linked_tail _ _ HL) as Ht.
  pose proof (item_at_npos _ W) as Hnp.
  apply N.eqb_eq in Hfull.
  unfold emplace, contains, try_get, evict_one_and_push_front. unfold_m.
  rewrite Hm. simpl. rewrite Hfull.
  destruct L as [|t [|t' L]]; simpl in *; [by rewrite Ht, Hnp| |apply N.eqb_eq in Hfull; lia].
  assert (t ∈ [t]) as Hin by (by left).
  pose proof (linked_in_range _ _ _ W HL Hin) as Hr.
  destruct (linked_items _ _ HL 0%nat t) as (tl & Htl & Hprev & _); [done|].
  simpl in Hprev.
  rewrite Ht, Htl.
  rewrite (linked_slot_key c [t] t (key tl) (value tl) W HL Hin)
    by (unfold entry_at; by rewrite Htl).
  rewrite Htl, Hprev. simpl.
  assert (in_range c (head_ c) = true) as Hrh by (by rewrite (linked_head _ _ HL)).
  assert (in_range c npos = false) as Hrn.
  { apply N.ltb_ge. pose proof (wf_length _ W). pose proof (wf_cap _ W). lia. }
  autorewrite with lru. rewrite Hrh. autorewrite with lru. rewrite Hr.
  autorewrite with lru. rewrite Hr.
  autorewrite with lru. rewrite Hr. autorewrite with lru. by rewrite Hrn.
Qed.

(** X12: when moving a key copies it ([moved_copy]), [emplace] of a
    key that is not stored, into a cache that holds its entries in a
    known order and is not full or has capacity two or more: the call
    returns, the new entry comes first, and if the cache was full the
    last entry of the order, the one used least recently, is the one
    dropped. *)
Theorem emplace_evicts_the_last k v c order :
  wf c -> represents c order -> size c < capacity_ c \/ 2 <= capacity_ c ->
  k ∉ order.*1 ->
  exists c', emplace k v c = Done tt c' /\ wf c' /\ capacity_ c' = capacity_ c /\
             represents c' (take (N.to_nat (capacity_ c)) ((k, v) :: order)).
Proof. apply emplace_represents. Qed.

(** X13: when moving a key copies it ([moved_copy]), a new cache of
    capacity two or more that is only ever inserted into, with keys
    that are all different, works first in first out: every [emplace]
    returns, and afterwards the cache holds the last [capacity] entries
    inserted; [keys()] lists them latest first. *)
Theorem emplace_only_is_fifo cap kvs :
  2 <= cap <= npos -> NoDup kvs.*1 ->
  exists c', emplace_all kvs (create key_default value_default cap) = Done tt c' /\
    size c' = N.min cap (N.of_nat (length kvs)) /\
    keys key_default c' = Done (take (N.to_nat cap) (rev kvs)).*1 c' /\
    contents c' = list_to_map (take (N.to_nat cap) (rev kvs)).
Proof.
  intros [Hlo Hhi] HN.
  destruct (emplace_all_represents kvs (create key_default value_default cap) [])
    as (c' & E & W' & _ & HR).
  - by apply create_wf.
  - exists []. split; [by apply create_wf_linked|done].
  - done.
  - simpl. by rewrite app_nil_r.
  - simpl in HR. rewrite app_nil_r in HR.
    exists c'. split; [done|].
    split; [|eauto using keys_represents, represents_contents].
    rewrite (represents_size _ _ HR), length_take, length_rev. lia.
Qed.

(** *** A lookup behind the head *)

(** What [try_get] writes when the key found is not at the head. *)
Lemma try_get_items k c x :
  wf c -> itemByKeyMapping_ c !! k = Some x -> x <> head_ c ->
  exists itx c',
    item_at c x = Some itx /\
    try_get k c = Done (Some x) c' /\
    head_ c' = x /\
    forall j, item_at c' j =
              if decide (j = x)
              then Some (mkItem (key itx) (value itx) npos (head_ c))
              else if decide (j = head_ c)
                   then (fun it => mkItem (key it) (value it) x (next itx)) <$> item_at c j
                   else item_at c j.
Proof.
  intros W Hk Hne.
  pose proof (wf_slot_in_range _ _ _ W Hk) as Hi.
  pose proof (wf_head_in_range _ W (wf_nonempty _ _ _ W Hk)) as Hh.
  pose proof (wf_slot_not_npos _ _ W Hi) as Hn%N.eqb_neq.
  destruct (item_at_in_range _ _ Hi) as [itx Hit].
  assert ((x =? head_ c) = false) as Hxh by (by apply N.eqb_neq).
  exists itx. unfold try_get. unfold_m. rewrite Hk, Hit, Hxh. simpl.
  run; try congruence.
  all: eexists; split; [done|]; split; [reflexivity|]; split; [done|].
  all: intros j; autorewrite with lru_items lru.
  all: repeat case_decide; subst; try done; try congruence.
  all: rewrite ?Hit; try done.
  all: match goal with |- context [item_at ?c0 ?i] => by destruct (item_at c0 i) end.
Qed.

(** The loop of [keys()] over the rest of a list whose slots are as
    they were in a linked cache. *)
Lemma keys_loop_suffix c c' L (order : list (Key * Value)) (i0 : nat) :
  wf c -> linked c L -> entry_at c <$> L = Some <$> order ->
  (forall (j : nat) s, (i0 <= j)%nat -> L !! j = Some s -> item_at c' s = item_at c s) ->
  forall (n i : nat), (i0 <= i)%nat -> (length L <= i + n)%nat ->
    keys_loop n (default npos (L !! i)) c' = Done (drop i order).*1 c'.
Proof.
  intros W HL He Hagree. induction n as [|n IH]; intros i Hi0 Hi.
  - rewrite lookup_ge_None_2 by lia. simpl.
    rewrite drop_ge; [done|]. rewrite (represents_length _ _ _ He). lia.
  - destruct (L !! i) as [s|] eqn:Hs; simpl.
    + assert ((s =? npos) = false) as ->.
      { apply N.eqb_neq. eapply linked_not_npos; eauto using list_elem_of_lookup_2. }
      destruct (linked_items _ _ HL _ _ Hs) as (it & Hit & _ & Hnx).
      rewrite (Hagree _ _ Hi0 Hs), Hit, Hnx. unfold slot_after. rewrite IH by lia.
      destruct (represents_lookup_slot _ _ _ _ _ He Hs) as (e & Ho & Hent).
      rewrite (drop_S _ _ _ Ho). simpl. unfold entry_at in Hent.
      rewrite Hit in Hent. simpl in Hent. by injection Hent as <-.
    + apply lookup_ge_None_1 in Hs.
      rewrite drop_ge; [done|]. rewrite (represents_length _ _ _ He). lia.
Qed.

(** *** Iterating over the cache *)

(** Every one of the first [size()] slots is the slot of a key: the
    mapping sends the keys to different slots among them, and there
    are as many keys as slots. *)
Lemma wf_slots_mapped c j :
  wf c -> j < size c -> exists k, itemByKeyMapping_ c !! k = Some j.
Proof.
  intros W Hj.
  set (slots := (fun kv : Key * N => N.to_nat kv.2) <$> map_to_list (itemByKeyMapping_ c)).
  assert (NoDup slots) as HN.
  { apply NoDup_fmap_2_strong; [|apply NoDup_map_to_list].
    intros [k1 i1] [k2 i2] H1%elem_of_map_to_list H2%elem_of_map_to_list Heq.
    simpl in Heq. assert (i1 = i2) as -> by lia.
    destruct (wf_map _ W _ _ H1) as [_ E1]. destruct (wf_map _ W _ _ H2) as [_ E2].
    f_equal. congruence. }
  assert (slots ≡ₚ seq 0 (N.to_nat (size c))) as HP.
  { apply submseteq_length_Permutation.
    - apply NoDup_submseteq; [done|].
      intros x [[k i] [-> Hin]]%list_elem_of_fmap. simpl.
      apply elem_of_map_to_list in Hin. destruct (wf_map _ W _ _ Hin) as [Hlt _].
      apply elem_of_seq. lia.
    - rewrite length_seq. unfold slots. rewrite length_fmap, length_map_to_list.
      unfold size. lia. }
  assert (N.to_nat j ∈ slots) as Hin by (rewrite HP; apply elem_of_seq; lia).
  apply list_elem_of_fmap in Hin as [[k i] [Heq Hin]]. simpl in Heq.
  apply elem_of_map_to_list in Hin. exists k. by replace j with i by lia.
Qed.

Lemma wf_slot_key c j it :
  wf c -> j < size c -> item_at c j = Some it ->
  itemByKeyMapping_ c !! key it = Some j.
Proof.
  intros W Hj Hit. destruct (wf_slots_mapped _ _ W Hj) as [k Hk].
  destruct (wf_map _ W _ _ Hk) as [_ Hkey]. unfold key_at in Hkey.
  rewrite Hit in Hkey. simpl in Hkey. by injection Hkey as ->.
Qed.

Lemma take_items_lookup c (j : nat) :
  wf c ->
  take (N.to_nat (size c)) (items_ c) !! j =
  if decide (j < N.to_nat (size c))%nat then item_at c (N.of_nat j) else None.
Proof.
  intros W. rewrite lookup_take. case_decide as Hj; [|done].
  unfold item_at.
  assert (in_range c (N.of_nat j) = true) as ->.
  { apply in_range_lt. pose proof (wf_size _ W). pose proof (wf_length _ W). lia. }
  by rewrite Nat2N.id.
Qed.

(** X16: when moving a key copies it ([moved_copy]), iterating from
    [begin()] to [end()] visits every entry once.  On every cache a
    program can hold, the range is the first [size()] slots; no two of
    them hold the same key, and the keys and values they hold are
    exactly the entries stored. *)
Theorem iteration_visits_every_entry_once c :
  reachable key_default value_default c ->
  exists its,
    begin_end c = Done its c /\
    length its = N.to_nat (size c) /\
    NoDup (key <$> its) /\
    list_to_map ((fun it => (key it, value it)) <$> its) = contents c.
Proof.
  intros W%reachable_wf.
  pose proof (wf_size _ W) as Hsz. pose proof (wf_length _ W) as Hlen.
  exists (take (N.to_nat (size c)) (items_ c)).
  assert (forall (j : nat) it,
            take (N.to_nat (size c)) (items_ c) !! j = Some it ->
            itemByKeyMapping_ c !! key it = Some (N.of_nat j) /\
            item_at c (N.of_nat j) = Some it) as Hslot.
  { intros j it. rewrite take_items_lookup by done. case_decide; [|done].
    intros Hit. split; [|done]. apply wf_slot_key; [done|lia|done]. }
  assert (NoDup (key <$> take (N.to_nat (size c)) (items_ c))) as HN.
  { apply NoDup_alt. intros i j k Hi Hj. rewrite list_lookup_fmap in Hi, Hj.
    destruct (take _ _ !! i) as [iti|] eqn:Ei; [|done].
    destruct (take _ _ !! j) as [itj|] eqn:Ej; [|done].
    simpl in Hi, Hj. injection Hi as Hi. injection Hj as Hj.
    destruct (Hslot _ _ Ei) as [Mi _]. destruct (Hslot _ _ Ej) as [Mj _].
    rewrite Hi in Mi. rewrite Hj, Mi in Mj. injection Mj as Mj. lia. }
  split; [|split; [|split]].
  - unfold begin_end. unfold_m.
    assert ((size c <=? N.of_nat (length (items_ c))) = true) as ->
      by (apply N.leb_le; lia).
    done.
  - rewrite length_take. lia.
  - done.
  - apply map_eq. intros k. apply option_eq. intros v.
    rewrite <- elem_of_list_to_map by (by rewrite <- list_fmap_compose).
    rewrite lookup_contents. split.
    + intros (it & [= -> ->] & [j Hj]%list_elem_of_lookup_1)%list_elem_of_fmap.
      destruct (Hslot _ _ Hj) as [Mj Hit]. rewrite Mj. simpl.
      unfold value_at. by rewrite Hit.
    + intros Hv. destruct (itemByKeyMapping_ c !! k) as [i|] eqn:Hk; [|done].
      simpl in Hv. destruct (wf_map _ W _ _ Hk) as [Hi Hkey].
      unfold value_at in Hv. unfold key_at in Hkey.
      destruct (item_at c i) as [it|] eqn:Hit; [|done].
      simpl in Hv, Hkey. injection Hv as <-. injection Hkey as <-.
      apply list_elem_of_fmap. exists it. split; [done|].
      apply (list_elem_of_lookup_2 _ (N.to_nat i)).
      rewrite take_items_lookup, decide_True by (done || lia).
      by rewrite N2Nat.id.
Qed.

End CopyKeys.

(** *** Whatever a moved-from key holds

    What follows does not depend on what a key holds after it has been
    moved. *)

Lemma upd_sound i f c : sound c -> sound (upd_item i f c).
Proof.
  intros Hs. split; autorewrite with lru; try apply Hs.
  intros k j Hk. rewrite in_range_upd. by eapply sound_map.
Qed.

Lemma try_get_sound k c r c' : sound c -> try_get k c = Done r c' -> sound c'.
Proof.
  intros W E. apply try_get_Done in E.
  destruct E as (Hr & Hm & Hc & Hl & Ht & _ & _ & Hh).
  pose proof (size_eq _ _ Hm) as Hs.
  split.
  - rewrite Hl, Hc. apply W.
  - rewrite Hc. apply W.
  - rewrite Hs, Hc. apply W.
  - intros k' i. rewrite Hm, (in_range_same_length _ _ _ Hl). apply W.
  - rewrite Hs, (in_range_same_length _ _ _ Hl). intros Hne. destruct r as [i|].
    + by destruct Hh as [-> ?].
    + subst c'. by apply W.
  - rewrite Hs, Ht. apply W.
Qed.

Lemma map_emplace_lookup k i (m : gmap Key N) k' i' :
  map_emplace k i m !! k' = Some i' -> m !! k' = Some i' \/ i' = i.
Proof.
  unfold map_emplace. destruct (m !! k) eqn:Hk; [by left|].
  intros [[_ ->]|[_ Hi]]%lookup_insert_Some; [by right|by left].
Qed.

Lemma map_emplace_size k i (m : gmap Key N) :
  (base.size (map_emplace k i m) <= S (base.size m))%nat.
Proof.
  unfold map_emplace. destruct (m !! k) eqn:Hk; [lia|].
  rewrite map_size_insert_None by done. lia.
Qed.

Lemma prepend_internal_sound k v c u c' :
  sound c -> prepend_internal k v c = Done u c' -> sound c'.
Proof.
  intros W E.
  destruct (prepend_internal_spec _ _ _ _ _ E) as (Hlt & Hr & Hm & Hc & Hl & Hh & Ht & _).
  split.
  - rewrite Hl, Hc. apply W.
  - rewrite Hc. apply W.
  - rewrite Hc. unfold size in *. rewrite Hm.
    pose proof (map_emplace_size (moved_from k) (N.of_nat (base.size (itemByKeyMapping_ c)))
                  (itemByKeyMapping_ c)). lia.
  - intros k' i. rewrite Hm, (in_range_same_length _ _ _ Hl).
    intros [Hi| ->]%map_emplace_lookup; [by eapply sound_map|done].
  - intros _. by rewrite Hh, (in_range_same_length _ _ _ Hl).
  - done.
Qed.

Lemma evict_one_and_push_front_sound k c slot c' :
  sound c -> itemByKeyMapping_ c !! k = None ->
  evict_one_and_push_front k c = Done slot c' ->
  sound c'.
Proof.
  intros W Hk E.
  destruct (evict_one_and_push_front_Done _ _ _ _ Hk E)
    as (victim & Hv & Hm & Hc & Hl & Hh & Ht & Hr & _).
  assert (size c' = size c) as Hs.
  { unfold size. rewrite Hm, map_size_insert_None.
    - rewrite map_size_delete_Some by eauto.
      pose proof (mapped_nonempty _ _ _ Hv) as Hne. unfold size in Hne. lia.
    - rewrite lookup_delete_ne; [done|congruence]. }
  split.
  - rewrite Hl, Hc. apply W.
  - rewrite Hc. apply W.
  - rewrite Hs, Hc. apply W.
  - intros k' i. rewrite Hm, (in_range_same_length _ _ _ Hl).
    intros [[_ <-]|[_ [_ Hi]%lookup_delete_Some]]%lookup_insert_Some;
      [done|by eapply sound_map].
  - intros _. by rewrite Hh, (in_range_same_length _ _ _ Hl).
  - done.
Qed.

(** [emplace] when there is room is [prepend_internal]. *)
Lemma emplace_room_spec k v c u c' :
  size c < capacity_ c -> emplace k v c = Done u c' ->
  size c < capacity_ c /\
  in_range c (size c) = true /\
  itemByKeyMapping_ c' = map_emplace (moved_from k) (size c) (itemByKeyMapping_ c) /\
  capacity_ c' = capacity_ c /\
  length (items_ c') = length (items_ c) /\
  head_ c' = size c /\
  tail_ c' <> npos /\
  (forall j, key_at c' j = if decide (j = size c) then Some k else key_at c j) /\
  (forall j, value_at c' j = if decide (j = size c) then Some v else value_at c j).
Proof.
  intros Hlt E. unfold emplace, contains in E. minv.
  all: match goal with
       | Ht : try_get _ _ = Done _ _ |- _ =>
           apply try_get_Done in Ht; destruct Ht as (_ & _ & _ & _ & _ & _ & _ & Hc)
       end.
  all: match goal with
       | Hp : negb (match ?p with Some _ => true | None => false end) = true |- _ =>
           destruct p; [discriminate Hp|]; subst
       end.
  - match goal with Hsz : (size _ =? capacity_ _) = true |- _ => apply N.eqb_eq in Hsz end.
    lia.
  - eauto using prepend_internal_spec.
Qed.

Lemma emplace_sound k v c u c' : sound c -> emplace k v c = Done u c' -> sound c'.
Proof.
  intros W E. unfold emplace, contains in E. minv.
  all: match goal with
       | Ht : try_get _ _ = Done _ _ |- _ =>
           apply try_get_Done in Ht; destruct Ht as (Hr & _ & _ & _ & _ & _ & _ & Hc)
       end.
  all: match goal with
       | Hp : negb (match ?p with Some _ => true | None => false end) = true |- _ =>
           destruct p; [discriminate Hp|]; subst
       end.
  - apply upd_sound. eauto using evict_one_and_push_front_sound.
  - eauto using prepend_internal_sound.
Qed.

Lemma try_emplace_sound k v c r c' :
  sound c -> try_emplace k v c = Done r c' -> sound c'.
Proof.
  intros W E. unfold try_emplace in E. minv.
  all: match goal with
       | Ht : try_get _ _ = Done _ _ |- _ =>
           pose proof (try_get_Done _ _ _ _ Ht) as (Hr & _ & _ & _ & _ & _ & _ & Hc)
       end.
  - eauto using try_get_sound.
  - subst. apply upd_sound. eauto using evict_one_and_push_front_sound.
  - subst. eauto using prepend_internal_sound.
Qed.

Lemma get_or_emplace_sound k v c r c' :
  sound c -> get_or_emplace k v c = Done r c' -> sound c'.
Proof.
  intros W E. unfold get_or_emplace in E. minv.
  - eauto using try_get_sound.
  - match goal with Hp : repr _ = Done _ _ |- _ => apply repr_Done in Hp; subst end.
    eauto using emplace_sound, try_get_sound.
Qed.

Lemma subscript_assign_sound k v c u c' :
  sound c -> subscript_assign value_default k v c = Done u c' -> sound c'.
Proof.
  intros W E. unfold subscript_assign in E. minv.
  - apply upd_sound. eauto using try_get_sound.
  - apply upd_sound. eauto using emplace_sound, try_get_sound.
Qed.

Lemma clear_sound c u c' :
  sound c -> clear key_default value_default c = Done u c' -> sound c'.
Proof.
  intros W E. destruct (clear_spec_sound c W) as (c1 & E1 & Hh & Ht & Hm & Hc & Hl & Hit).
  rewrite E1 in E. inversion E; subst c1.
  pose proof (size_empty _ Hm) as Hs.
  split.
  - rewrite Hl, Hc. apply W.
  - rewrite Hc. apply W.
  - rewrite Hs. lia.
  - intros k i. by rewrite Hm, lookup_empty.
  - by rewrite Hs.
  - by rewrite Hs.
Qed.

(** Every cache built by the public operations is sound. *)
Lemma reachable_sound c : reachable key_default value_default c -> sound c.
Proof.
  induction 1 as [cap Hle|o c c' _ IH E].
  - by apply wf_sound, create_wf.
  - destruct o; simpl in E.
    + unfold touch in E. minv. eauto using try_get_sound.
    + eauto using emplace_sound.
    + minv. eauto using try_emplace_sound.
    + minv. eauto using get_or_emplace_sound.
    + eauto using subscript_assign_sound.
    + eauto using clear_sound.
Qed.

(** C7: on every reachable cache, [at(k)] throws [std::out_of_range]
    exactly when no value is stored for [k], and when a value [v] is
    stored for [k] it returns [v] (and leaves the stored values as
    they were). *)
Theorem at_throws_iff_absent k c :
  reachable key_default value_default c ->
  (at_ k c = Fail OutOfRange <-> contents c !! k = None) /\
  (forall v, contents c !! k = Some v <->
             exists c', at_ k c = Done v c' /\ contents c' = contents c).
Proof.
  intros W%reachable_sound.
  destruct (try_get_total_sound k c W) as (c' & E).
  pose proof (try_get_Done _ _ _ _ E) as (_ & Hm & _ & _ & _ & _ & Hv & Hh).
  pose proof (try_get_contents _ _ _ _ E) as Hc.
  assert (at_ k c = match itemByKeyMapping_ c !! k ≫= value_at c with
                    | Some v => Done v c'
                    | None => Fail OutOfRange
                    end) as Hat.
  { unfold at_. unfold bind at 1. rewrite E.
    destruct (itemByKeyMapping_ c !! k) as [i|] eqn:Hk; simpl; [|done].
    destruct Hh as [_ Hr].
    destruct (item_at_in_range c' i) as [it Hit].
    { unfold in_range in *. by rewrite (proj1 (proj2 (proj2 (proj2 (try_get_Done _ _ _ _ E))))). }
    unfold bind, read_item. rewrite Hit. simpl.
    rewrite <- Hv. unfold value_at. by rewrite Hit. }
  rewrite Hat, lookup_contents.
  destruct (itemByKeyMapping_ c !! k ≫= value_at c) as [v|]; split.
  - split; discriminate.
  - intros v'. split.
    + intros [= ->]. eauto.
    + by intros (c'' & [= -> ->] & _).
  - done.
  - intros v'. split; [discriminate|]. by intros (c'' & ? & _).
Qed.

(** C9, as amended: on every reachable non-empty cache [clear()]
    returns; afterwards the size is 0 and [contains(k)] is false for
    every key; [head_] and [tail_] still hold their values from before
    the call, neither being [npos]; so the traversal from [head_] is
    not empty, it starts at the slot the stale [head_] names, and
    [keys()] does not return: it stores into element 0 of a result of
    no elements.  [clear()] has reset the first [size()] slots: when
    [head_] named one of them, as it always does when moving a key
    copies it, the traversal visits that one slot only. *)
Theorem clear_leaves_head_and_tail c :
  reachable key_default value_default c -> size c <> 0 ->
  exists c',
    clear key_default value_default c = Done tt c' /\
    size c' = 0 /\
    (forall k, contains k c' = Done false c') /\
    head_ c' = head_ c /\ tail_ c' = tail_ c /\
    head_ c' <> npos /\ tail_ c' <> npos /\
    (exists rest, traversal c' = head_ c :: rest) /\
    (head_ c < size c -> traversal c' = [head_ c]) /\
    keys key_default c' = Fail BadIndex.
Proof.
  intros W%reachable_sound Hne.
  destruct (clear_spec_sound c W) as (c' & E & Hh & Ht & Hm & Hc & Hl & Hit).
  pose proof (sound_head _ W Hne) as Hr.
  pose proof (sound_slot_not_npos _ _ W Hr) as Hnp.
  exists c'. split; [done|]. split; [by apply size_empty|].
  split; [|split; [done|split; [done|]]].
  { intros k. unfold contains, try_get. unfold_m. by rewrite Hm, lookup_empty. }
  rewrite Hh, Ht. split; [done|]. split; [by apply W|].
  apply N.eqb_neq in Hnp.
  destruct (item_at_in_range _ _ Hr) as [it Hhd].
  split; [|split].
  - unfold traversal. simpl. rewrite Hh, Hnp, Hit, Hhd.
    case_decide; simpl; eauto.
  - intros Hlt. unfold traversal. simpl.
    rewrite Hh, Hnp, Hit, decide_True, Hhd by done. simpl.
    destruct (length (items_ c')); done.
  - unfold keys. rewrite (size_empty _ Hm). simpl. by rewrite Hh, Hnp.
Qed.

(** X2: on every cache a program can hold, [contains(k)] returns
    whether a value is stored for [k], and it leaves the stored values
    as they are. *)
Theorem contains_tells_stored k c :
  reachable key_default value_default c ->
  exists c', contains k c = Done (bool_decide (is_Some (contents c !! k))) c' /\
             contents c' = contents c.
Proof.
  intros W%reachable_sound.
  destruct (try_get_total_sound k c W) as (c' & E).
  exists c'. split; [|eauto using try_get_contents].
  unfold contains. unfold bind. rewrite E. unfold ret. f_equal.
  destruct (itemByKeyMapping_ c !! k) as [i|] eqn:Hk.
  - rewrite bool_decide_eq_true_2; [done|].
    apply not_eq_None_Some. rewrite contents_None_sound by done. congruence.
  - rewrite bool_decide_eq_false_2; [done|].
    rewrite <- not_eq_None_Some. rewrite contents_None_sound by done. tauto.
Qed.

(** X3: a lookup of the key that is already at the head changes
    nothing at all. *)
Theorem try_get_of_head_is_identity k c :
  reachable key_default value_default c ->
  itemByKeyMapping_ c !! k = Some (head_ c) ->
  try_get k c = Done (Some (head_ c)) c.
Proof.
  intros W%reachable_sound Hk.
  pose proof (sound_map _ W _ _ Hk) as Hi.
  destruct (item_at_in_range _ _ Hi) as [it Hit].
  unfold try_get. unfold_m. rewrite Hk, Hit, N.eqb_refl. simpl. by rewrite Hit.
Qed.

(** X4: a lookup that returns, found or not, changes neither the
    size, nor the capacity, nor any stored value, nor [tail_]; and one
    that does not find the key changes nothing. *)
Theorem try_get_keeps_size_and_values k c r c' :
  try_get k c = Done r c' ->
  size c' = size c /\ capacity_ c' = capacity_ c /\
  contents c' = contents c /\ tail_ c' = tail_ c /\
  (r = None -> c' = c).
Proof.
  intros E. pose proof (try_get_contents _ _ _ _ E) as Hc.
  apply try_get_Done in E. destruct E as (_ & Hm & Hcap & _ & Ht & _ & _ & Hr).
  repeat split; try done.
  - by apply size_eq.
  - intros ->. done.
Qed.

(** X6: [emplace] of a key that has a stored value stops on its
    assertion [!contains(_key)]. *)
Theorem emplace_of_stored_key_asserts k v c :
  reachable key_default value_default c ->
  is_Some (contents c !! k) ->
  emplace k v c = Fail AssertFailed.
Proof.
  intros W%reachable_sound Hs.
  destruct (try_get_total_sound k c W) as (c' & E).
  apply not_eq_None_Some in Hs. rewrite contents_None_sound in Hs by done.
  destruct (itemByKeyMapping_ c !! k) as [i|]; [|done].
  unfold emplace, contains. unfold bind. by rewrite E.
Qed.

(** X7: [try_emplace] of a key that has a stored value returns false
    and stores nothing: the value under the key, and under every other
    key, is what it was. *)
Theorem try_emplace_of_stored_key k v c :
  reachable key_default value_default c ->
  is_Some (contents c !! k) ->
  exists c', try_emplace k v c = Done false c' /\ contents c' = contents c.
Proof.
  intros W%reachable_sound Hs.
  destruct (try_get_total_sound k c W) as (c' & E).
  apply not_eq_None_Some in Hs. rewrite contents_None_sound in Hs by done.
  destruct (itemByKeyMapping_ c !! k) as [i|]; [|done].
  exists c'. split; [|eauto using try_get_contents].
  unfold try_emplace. unfold bind. by rewrite E.
Qed.

(** X10: a cache that has been cleared while it held entries cannot
    list its keys after the next insertion: [clear()] returns and so
    does the [emplace(k, v)] that follows, which leaves one entry
    stored, under what is left of the key after its move ([k] itself
    when moving is copying); but the new slot is linked to the [head_]
    left over from before the [clear()], and [keys()] stores a second
    key into its result of one element. *)
Theorem keys_faults_after_clear_and_emplace k v c :
  reachable key_default value_default c -> size c <> 0 ->
  exists c1 c2,
    clear key_default value_default c = Done tt c1 /\
    emplace k v c1 = Done tt c2 /\
    size c2 = 1 /\ contents c2 = {[moved_from k := v]} /\
    keys key_default c2 = Fail BadIndex.
Proof.
  intros R Hne. pose proof (reachable_sound _ R) as W.
  destruct (clear_spec_sound c W) as (c1 & E1 & Hh & Ht & Hm & Hc & Hl & _).
  pose proof (size_empty _ Hm) as Hs1.
  assert (size c1 < capacity_ c1) as Hroom.
  { rewrite Hs1, Hc. pose proof (sound_size _ W). lia. }
  assert (wf c1) as W1.
  { split.
    - rewrite Hl, Hc. apply W.
    - rewrite Hc. apply W.
    - lia.
    - intros k' i. by rewrite Hm, lookup_empty.
    - done.
    - done. }
  assert (head_ok c1) as Hok.
  { right. rewrite Hh, (in_range_same_length _ _ _ Hl). by apply W. }
  destruct (emplace_fresh_total k v c1 W1 Hok) as (c2 & E2);
    [by rewrite Hm, lookup_empty|done|].
  destruct (emplace_room_spec _ _ _ _ _ Hroom E2) as (_ & _ & Hm2 & _ & _ & _ & _ & _ & Hv2).
  rewrite Hm, Hs1 in Hm2. unfold map_emplace in Hm2. rewrite lookup_empty in Hm2.
  assert (size c2 = 1) as Hs2.
  { unfold size. rewrite Hm2, map_size_insert_None, map_size_empty by apply lookup_empty.
    lia. }
  exists c1, c2. split; [done|]. split; [done|]. split; [done|]. split.
  - unfold contents. rewrite Hm2, insert_empty, omap_singleton.
    rewrite Hv2, Hs1, decide_True by done. done.
  - destruct (emplace_next _ _ _ _ _ Hroom E2) as [Hh2 Hn2]. rewrite Hs1 in *.
    unfold keys. rewrite Hs2, Hh2. simpl.
    destruct (item_at c2 0) as [it|]; [|done]. simpl in Hn2. injection Hn2 as Hn2.
    rewrite Hn2, Hh.
    pose proof (sound_slot_not_npos _ _ W (sound_head _ W Hne)) as Hnp.
    apply N.eqb_neq in Hnp. by rewrite Hnp.
Qed.

(** X29: where moving a key changes it, the cache cannot find what it
    has been given.  For a key [k] that its move does not leave as it
    was, [emplace(k, v)] on a new cache of capacity one or more
    returns and the size is 1; slot 0 holds [k], but the value is
    stored under the moved-from key, so [contains(k)] is false and
    [at(k)] throws. *)
Theorem emplace_keys_by_what_is_left cap k v :
  0 < cap <= npos -> moved_from k <> k ->
  exists c',
    emplace k v (create key_default value_default cap) = Done tt c' /\
    size c' = 1 /\
    contents c' = {[moved_from k := v]} /\
    key_at c' 0 = Some k /\
    contains k c' = Done false c' /\
    at_ k c' = Fail OutOfRange.
Proof.
  intros [Hlo Hhi] Hne.
  pose proof (create_wf cap Hhi) as W.
  set (c := create key_default value_default cap) in *.
  assert (itemByKeyMapping_ c = ∅) as Hm by done.
  pose proof (size_empty _ Hm) as Hs.
  assert (size c < capacity_ c) as Hroom by (rewrite Hs; simpl; lia).
  destruct (emplace_fresh_total k v c W) as (c' & E);
    [by left|by rewrite Hm, lookup_empty|done|].
  destruct (emplace_room_spec _ _ _ _ _ Hroom E)
    as (_ & _ & Hm' & _ & _ & _ & _ & Hk' & Hv').
  rewrite Hm, Hs in Hm'. unfold map_emplace in Hm'. rewrite lookup_empty in Hm'.
  assert (itemByKeyMapping_ c' !! k = None) as Hk.
  { rewrite Hm', lookup_insert_ne by done. apply lookup_empty. }
  exists c'. split; [done|]. split; [|split; [|split; [|split]]].
  - unfold size. rewrite Hm', map_size_insert_None, map_size_empty by apply lookup_empty.
    lia.
  - unfold contents. rewrite Hm', insert_empty, omap_singleton.
    rewrite Hv', Hs, decide_True by done. done.
  - rewrite Hk', Hs, decide_True by done. done.
  - unfold contains, try_get. unfold bind, gets, ret. by rewrite Hk.
  - unfold at_, try_get. unfold bind, gets, ret, raise. by rewrite Hk.
Qed.

(** *** What such caches show *)

(** X11: what a cache that holds its entries in a known order shows:
    [keys()] returns the keys in that order, most recently used first,
    and leaves the cache as it is; the values stored are those of the
    entries; the size is their number; and no key occurs twice. *)
Theorem ordered_cache_observations c order :
  wf c -> represents c order ->
  keys key_default c = Done order.*1 c /\
  contents c = list_to_map order /\
  size c = N.of_nat (length order) /\
  NoDup order.*1.
Proof.
  intros W HR. split; [by apply keys_represents|].
  split; [by apply represents_contents|].
  split; [by apply represents_size|by eapply represents_NoDup].
Qed.

(** X14: a cache of capacity 0 or 1 that holds its entries in order
    and is full cannot take another key: [emplace] stops on a subscript
    outside [items_] (the slot before the last one, which does not
    exist). *)
Theorem emplace_into_small_full_cache_faults k v c order :
  wf c -> represents c order -> size c = capacity_ c -> capacity_ c <= 1 ->
  k ∉ order.*1 -> emplace k v c = Fail BadIndex.
Proof. apply emplace_small_full. Qed.

(** X15: a lookup of a key that is further back than the second place
    loses entries from view.  In a cache that holds its entries in
    order, [try_get] of the key at place [i + 1] (the head being place
    0) returns its slot, and [keys()] then lists that key, the key of
    the old head, and the keys that came after place [i + 1]: the [i]
    keys that were between the head and the key found are not listed
    any more, and the result is filled up with as many
    value-initialised keys. *)
Theorem lookup_behind_the_head_unlinks c order (i : nat) k v k0 v0 :
  wf c -> represents c order ->
  order !! 0%nat = Some (k0, v0) -> order !! S i = Some (k, v) ->
  exists c' x,
    try_get k c = Done (Some x) c' /\
    keys key_default c' =
      Done (k :: k0 :: (drop (S (S i)) order).*1 ++ replicate i key_default) c'.
Proof.
  intros W (L & HL & He) Hfst Hi.
  destruct (represents_lookup_entry _ _ _ _ _ He Hfst) as (h & Hh & Hhe).
  destruct (represents_lookup_entry _ _ _ _ _ He Hi) as (x & Hx & Hxe).
  pose proof (list_elem_of_lookup_2 _ _ _ Hh) as Hhin.
  pose proof (list_elem_of_lookup_2 _ _ _ Hx) as Hxin.
  pose proof (linked_slot_key _ _ _ _ _ W HL Hxin Hxe) as Hk.
  assert (head_ c = h) as Hhead.
  { destruct (linked_head_cases _ _ HL) as [[-> _]|[Hh' _]]; [done|]. congruence. }
  assert (x <> h) as Hxh.
  { intros ->. pose proof (NoDup_lookup _ _ _ _ (linked_nodup _ _ HL) Hh Hx). lia. }
  destruct (try_get_items k c x W Hk) as (itx & c' & Hitx & E & Hh' & Hit);
    [by rewrite Hhead|].
  exists c', x. split; [done|].
  pose proof (try_get_Done _ _ _ _ E) as (_ & Hm & _).
  pose proof (linked_length _ _ HL) as Hlen.
  pose proof (represents_length _ _ _ He) as Hlo.
  assert (S i < length L)%nat as Hlt by (by eapply lookup_lt_Some).
  unfold keys. rewrite (size_eq _ _ Hm), Hh'.
  replace (N.to_nat (size c)) with (S (S (length L - 2))) by lia.
  assert ((x =? npos) = false) as Hxn
    by (apply N.eqb_neq; eauto using linked_not_npos).
  assert ((h =? npos) = false) as Hhn
    by (apply N.eqb_neq; eauto using linked_not_npos).
  destruct (linked_items _ _ HL _ _ Hx) as (itx' & Hitx' & _ & Hnx).
  rewrite Hitx in Hitx'. injection Hitx' as <-.
  destruct (linked_items _ _ HL _ _ Hh) as (ith & Hith & _ & _).
  cbn [keys_loop]. rewrite Hxn, Hit, decide_True by done.
  cbn [next key]. rewrite Hhead, Hhn, Hit, decide_False, decide_True, Hith by done.
  cbn [fmap option_fmap option_map next key]. rewrite Hnx. unfold slot_after.
  rewrite (keys_loop_suffix c c' L order (S (S i)) W HL He); [|..|lia|lia].
  - unfold entry_at in Hxe, Hhe. rewrite Hitx in Hxe. rewrite Hith in Hhe.
    simpl in Hxe, Hhe. injection Hxe as -> _. injection Hhe as -> _.
    f_equal. simpl. f_equal. f_equal. f_equal. f_equal.
    rewrite length_fmap, length_drop. lia.
  - intros j s Hj Hs. rewrite Hit, Hhead, !decide_False; [done|..].
    + intros ->. pose proof (NoDup_lookup _ _ _ _ (linked_nodup _ _ HL) Hh Hs). lia.
    + intros ->. pose proof (NoDup_lookup _ _ _ _ (linked_nodup _ _ HL) Hx Hs). lia.
Qed.

End Facts.

(** C2 (the code departs from the claim): [int] keys, [char] values,
    capacity 2, after [emplace(1,'a')] and [emplace(2,'b')].  The slots
    are linked 1 -> 0 and [tail_] is slot 0, whose predecessor is slot 1.
    [try_get(1)] finds slot 0 and makes it the head, the links now
    being 0 -> 1, but [tail_] is still slot 0: it has not advanced to
    the predecessor, and it is not the last slot of the list.  The size
    is unchanged. *)
Theorem try_get_does_not_advance_tail :
  match two_entries empty2 with
  | Done _ c =>
      traversal c = [1; 0] /\ tail_ c = 0 /\ prev <$> item_at c 0 = Some 1 /\
      size c = 2 /\
      match try_get 1%Z c with
      | Done r c' =>
          r = Some 0 /\ head_ c' = 0 /\ traversal c' = [0; 1] /\
          tail_ c' = 0 /\ size c' = 2
      | Fail _ => False
      end
  | Fail _ => False
  end.
Proof. vm_compute. repeat split; reflexivity. Qed.

(** C3 (the code departs from the claim): the scenario
    [insert(1,'a'), insert(2,'b'), get(1), insert(3,'c')] on a cache of
    capacity 2.  After the lookup [head_] and [tail_] both name the slot
    of key 1 and the keys read [1; 2]; the last insertion then takes the
    slot of key 1, the key just used, for eviction and stores through
    [items_[npos]], outside the vector: it does not return, so neither
    the key order [3; 1] nor [contains(2) = false] is produced. *)
Theorem scenario_insert_after_lookup_faults :
  match (two_entries ;;; try_get 1%Z) empty2 with
  | Done r c =>
      r = Some 0 /\ head_ c = 0 /\ tail_ c = 0 /\
      key <$> item_at c (tail_ c) = Some 1%Z /\
      prev <$> item_at c (tail_ c) = Some npos /\
      (exists c', keys 0%Z c = Done [1%Z; 2%Z] c') /\
      emplace 3%Z "c"%char c = Fail BadIndex
  | Fail _ => False
  end /\
  (two_entries ;;; try_get 1%Z ;;; emplace 3%Z "c"%char) empty2 = Fail BadIndex.
Proof.
  vm_compute. repeat split; try reflexivity. eexists. reflexivity.
Qed.

(** C9 (counterexample to the claim as stated): with two entries in a
    cache of capacity 2 the list before [clear()] is 1 -> 0; after it
    the traversal from the stale [head_] visits slot 1 alone, not the
    list that was there before. *)
Lemma clear_resets_the_links :
  match two_entries empty2 with
  | Done _ c =>
      size c <> 0 /\ traversal c = [1; 0] /\
      match clear 0%Z "000"%char c with
      | Done _ c' => traversal c' = [1] /\ traversal c' <> traversal c
      | Fail _ => False
      end
  | Fail _ => False
  end.
Proof. vm_compute. repeat split; try reflexivity; discriminate. Qed.

(** Moving an [int] key copies it. *)
Lemma int_moved_copy : forall k : Z, moved_from k = k.
Proof. reflexivity. Qed.

Lemma two_cache_reachable : reachable 0%Z "000"%char two_cache.
Proof.
  apply (reach_step _ _ (Emplace 2%Z "b"%char) one_entry).
  - apply (reach_step _ _ (Emplace 1%Z "a"%char) empty2).
    + apply reach_create. by vm_compute.
    + by vm_compute.
  - by vm_compute.
Defined.

Lemma at_throws_iff_absent_witness :
  reachable 0%Z "000"%char two_cache /\
  ((at_ 2%Z two_cache = Fail OutOfRange <-> contents two_cache !! 2%Z = None) /\
   (forall v, contents two_cache !! 2%Z = Some v <->
              exists c', at_ 2%Z two_cache = Done v c' /\
                         contents c' = contents two_cache)).
Proof.
  split; [exact two_cache_reachable|].
  exact (at_throws_iff_absent 0%Z "000"%char 2%Z two_cache two_cache_reachable).
Defined.

Lemma clear_leaves_head_and_tail_witness :
  reachable 0%Z "000"%char two_cache /\ size two_cache <> 0 /\
  exists c',
    clear 0%Z "000"%char two_cache = Done tt c' /\
    size c' = 0 /\
    (forall k, contains k c' = Done false c') /\
    head_ c' = head_ two_cache /\ tail_ c' = tail_ two_cache /\
    head_ c' <> npos /\ tail_ c' <> npos /\
    (exists rest, traversal c' = head_ two_cache :: rest) /\
    (head_ two_cache < size two_cache -> traversal c' = [head_ two_cache]) /\
    keys 0%Z c' = Fail BadIndex.
Proof.
  assert (size two_cache <> 0) as Hne by (by vm_compute).
  split; [exact two_cache_reachable|]. split; [exact Hne|].
  exact (clear_leaves_head_and_tail 0%Z "000"%char two_cache two_cache_reachable Hne).
Defined.

(** What is stored in the two-entry cache, and what [at] does on it. *)
Example two_cache_lookups :
  contents two_cache !! 1%Z = Some "a"%char /\
  contents two_cache !! 2%Z = Some "b"%char /\
  contents two_cache !! 3%Z = None /\
  at_ 3%Z two_cache = Fail OutOfRange /\
  (exists c', at_ 1%Z two_cache = Done "a"%char c').
Proof. vm_compute. repeat split; try reflexivity. eexists. reflexivity. Qed.

(** *** The theorems at work on concrete caches *)

Lemma one_entry_reachable : reachable 0%Z "000"%char one_entry.
Proof.
  apply (reach_step _ _ (Emplace 1%Z "a"%char) empty2).
  - apply reach_create. by vm_compute.
  - by vm_compute.
Defined.

Lemma two_cache_wf : wf two_cache.
Proof. exact (reachable_wf 0%Z "000"%char int_moved_copy two_cache two_cache_reachable). Qed.

Lemma not_in_list (k : Z) (l : list Z) : bool_decide (k ∉ l) = true -> k ∉ l.
Proof. apply bool_decide_eq_true_1. Qed.

Lemma NoDup_list (l : list Z) : bool_decide (NoDup l) = true -> NoDup l.
Proof. apply bool_decide_eq_true_1. Qed.

(** The caches built by insertions alone hold their entries in order. *)
Lemma built_represents cap (kvs : list (Z * ascii)) c :
  2 <= cap <= npos -> NoDup kvs.*1 ->
  emplace_all kvs (create 0%Z "000"%char cap) = Done tt c ->
  wf c /\ represents c (take (N.to_nat cap) (rev kvs)).
Proof.
  intros [Hlo Hhi] HN E.
  destruct (emplace_all_represents int_moved_copy kvs (create 0%Z "000"%char cap) [])
    as (c' & E' & W' & _ & HR).
  - by apply create_wf.
  - exists []. split; [by apply create_wf_linked|done].
  - done.
  - simpl. by rewrite app_nil_r.
  - rewrite E in E'. injection E' as <-. simpl in HR. by rewrite app_nil_r in HR.
Qed.

Lemma two_cache_represents : represents two_cache [(2%Z, "b"%char); (1%Z, "a"%char)].
Proof.
  apply (built_represents 2 [(1%Z, "a"%char); (2%Z, "b"%char)] two_cache).
  - by vm_compute.
  - apply NoDup_list. by vm_compute.
  - by vm_compute.
Qed.

Lemma three_cache_represents :
  wf three_cache /\
  represents three_cache [(3%Z, "c"%char); (2%Z, "b"%char); (1%Z, "a"%char)].
Proof.
  apply (built_represents 3 three_entries three_cache).
  - by vm_compute.
  - apply NoDup_list. by vm_compute.
  - by vm_compute.
Qed.

Lemma one_full_represents : wf one_full /\ represents one_full [(1%Z, "a"%char)].
Proof.
  destruct (emplace_represents int_moved_copy 1%Z "a"%char (create 0%Z "000"%char 1) [])
    as (c' & E & W' & _ & HR).
  - apply create_wf. by vm_compute.
  - exists []. split; [apply create_wf_linked; by vm_compute|done].
  - left. by vm_compute.
  - apply not_elem_of_nil.
  - assert (emplace 1%Z "a"%char (create 0%Z "000"%char 1) = Done tt one_full) as E'
      by (by vm_compute).
    rewrite E' in E. injection E as <-. done.
Qed.

Lemma reachable_invariants_witness :
  (forall k : Z, moved_from k = k) /\
  reachable 0%Z "000"%char two_cache /\
  (size two_cache <= capacity_ two_cache /\
   N.of_nat (length (items_ two_cache)) = capacity_ two_cache /\
   (forall k, is_Some (itemByKeyMapping_ two_cache !! k) <->
              is_Some (contents two_cache !! k)) /\
   (forall k i, itemByKeyMapping_ two_cache !! k = Some i ->
                i < size two_cache /\ key_at two_cache i = Some k) /\
   (forall k1 k2 i, itemByKeyMapping_ two_cache !! k1 = Some i ->
                    itemByKeyMapping_ two_cache !! k2 = Some i -> k1 = k2) /\
   (size two_cache <> 0 -> head_ two_cache < size two_cache)).
Proof.
  split; [exact int_moved_copy|]. split; [exact two_cache_reachable|].
  exact (reachable_invariants 0%Z "000"%char int_moved_copy two_cache
           two_cache_reachable).
Defined.

Lemma contains_tells_stored_witness :
  reachable 0%Z "000"%char two_cache /\
  exists c', contains 1%Z two_cache
             = Done (bool_decide (is_Some (contents two_cache !! 1%Z))) c' /\
             contents c' = contents two_cache.
Proof.
  split; [exact two_cache_reachable|].
  exact (contains_tells_stored 0%Z "000"%char 1%Z two_cache two_cache_reachable).
Defined.

Lemma try_get_of_head_is_identity_witness :
  reachable 0%Z "000"%char two_cache /\
  itemByKeyMapping_ two_cache !! 2%Z = Some (head_ two_cache) /\
  try_get 2%Z two_cache = Done (Some (head_ two_cache)) two_cache.
Proof.
  assert (itemByKeyMapping_ two_cache !! 2%Z = Some (head_ two_cache)) as Hk
    by (by vm_compute).
  split; [exact two_cache_reachable|]. split; [exact Hk|].
  exact (try_get_of_head_is_identity 0%Z "000"%char 2%Z two_cache two_cache_reachable Hk).
Defined.

Lemma try_get_keeps_size_and_values_witness :
  try_get 1%Z two_cache = Done (Some 0) (state_after (try_get 1%Z two_cache)) /\
  (size (state_after (try_get 1%Z two_cache)) = size two_cache /\
   capacity_ (state_after (try_get 1%Z two_cache)) = capacity_ two_cache /\
   contents (state_after (try_get 1%Z two_cache)) = contents two_cache /\
   tail_ (state_after (try_get 1%Z two_cache)) = tail_ two_cache /\
   (Some 0 = None -> state_after (try_get 1%Z two_cache) = two_cache)).
Proof.
  assert (try_get 1%Z two_cache = Done (Some 0) (state_after (try_get 1%Z two_cache)))
    as E by (by vm_compute).
  split; [exact E|].
  exact (try_get_keeps_size_and_values 1%Z two_cache (Some 0) _ E).
Defined.

Lemma store_then_at_witness :
  (forall k : Z, moved_from k = k) /\
  reachable 0%Z "000"%char one_entry /\
  (emplace 2%Z "b"%char one_entry = Done tt two_cache \/
   subscript_assign "000"%char 2%Z "b"%char one_entry = Done tt two_cache \/
   try_emplace 2%Z "b"%char one_entry = Done true two_cache) /\
  exists c'', at_ 2%Z two_cache = Done "b"%char c''.
Proof.
  assert (emplace 2%Z "b"%char one_entry = Done tt two_cache \/
          subscript_assign "000"%char 2%Z "b"%char one_entry = Done tt two_cache \/
          try_emplace 2%Z "b"%char one_entry = Done true two_cache) as E
    by (left; by vm_compute).
  split; [exact int_moved_copy|].
  split; [exact one_entry_reachable|]. split; [exact E|].
  exact (store_then_at 0%Z "000"%char int_moved_copy 2%Z "b"%char one_entry two_cache
           one_entry_reachable E).
Defined.

Lemma two_cache_stores_1 : is_Some (contents two_cache !! 1%Z).
Proof. exists "a"%char. by vm_compute. Qed.

Lemma emplace_of_stored_key_asserts_witness :
  reachable 0%Z "000"%char two_cache /\
  is_Some (contents two_cache !! 1%Z) /\
  emplace 1%Z "z"%char two_cache = Fail AssertFailed.
Proof.
  split; [exact two_cache_reachable|]. split; [exact two_cache_stores_1|].
  exact (emplace_of_stored_key_asserts 0%Z "000"%char 1%Z "z"%char two_cache
           two_cache_reachable two_cache_stores_1).
Defined.

Lemma try_emplace_of_stored_key_witness :
  reachable 0%Z "000"%char two_cache /\
  is_Some (contents two_cache !! 1%Z) /\
  exists c', try_emplace 1%Z "z"%char two_cache = Done false c' /\
             contents c' = contents two_cache.
Proof.
  split; [exact two_cache_reachable|]. split; [exact two_cache_stores_1|].
  exact (try_emplace_of_stored_key 0%Z "000"%char 1%Z "z"%char two_cache
           two_cache_reachable two_cache_stores_1).
Defined.

Lemma get_or_emplace_returns_stored_witness :
  (forall k : Z, moved_from k = k) /\
  reachable 0%Z "000"%char two_cache /\
  get_or_emplace 1%Z "z"%char two_cache
  = Done "a"%char (state_after (get_or_emplace 1%Z "z"%char two_cache)) /\
  ("a"%char = default "z"%char (contents two_cache !! 1%Z) /\
   contents (state_after (get_or_emplace 1%Z "z"%char two_cache)) !! 1%Z
   = Some "a"%char).
Proof.
  assert (get_or_emplace 1%Z "z"%char two_cache
          = Done "a"%char (state_after (get_or_emplace 1%Z "z"%char two_cache))) as E
    by (by vm_compute).
  split; [exact int_moved_copy|].
  split; [exact two_cache_reachable|]. split; [exact E|].
  exact (get_or_emplace_returns_stored 0%Z "000"%char int_moved_copy 1%Z "z"%char
           two_cache "a"%char _ two_cache_reachable E).
Defined.

Lemma emplace_with_room_witness :
  (forall k : Z, moved_from k = k) /\
  reachable 0%Z "000"%char one_entry /\
  contents one_entry !! 2%Z = None /\
  size one_entry < capacity_ one_entry /\
  exists c', emplace 2%Z "b"%char one_entry = Done tt c' /\
             size c' = size one_entry + 1 /\
             contents c' = <[2%Z := "b"%char]> (contents one_entry).
Proof.
  assert (contents one_entry !! 2%Z = None) as Hk by (by vm_compute).
  assert (size one_entry < capacity_ one_entry) as Hlt by (by vm_compute).
  split; [exact int_moved_copy|].
  split; [exact one_entry_reachable|]. split; [exact Hk|]. split; [exact Hlt|].
  exact (emplace_with_room 0%Z "000"%char int_moved_copy 2%Z "b"%char one_entry
           one_entry_reachable Hk Hlt).
Defined.

Lemma keys_faults_after_clear_and_emplace_witness :
  reachable 0%Z "000"%char two_cache /\ size two_cache <> 0 /\
  exists c1 c2,
    clear 0%Z "000"%char two_cache = Done tt c1 /\
    emplace 7%Z "g"%char c1 = Done tt c2 /\
    size c2 = 1 /\ contents c2 = {[7%Z := "g"%char]} /\
    keys 0%Z c2 = Fail BadIndex.
Proof.
  assert (size two_cache <> 0) as Hne by (by vm_compute).
  split; [exact two_cache_reachable|]. split; [exact Hne|].
  exact (keys_faults_after_clear_and_emplace 0%Z "000"%char 7%Z "g"%char two_cache
           two_cache_reachable Hne).
Defined.

Lemma emplace_keys_by_what_is_left_witness :
  0 < 2 <= npos /\ moved_from "a"%string <> "a"%string /\
  exists c',
    emplace "a"%string "x"%char (create EmptyString "000"%char 2) = Done tt c' /\
    size c' = 1 /\
    contents c' = {[EmptyString := "x"%char]} /\
    key_at c' 0 = Some "a"%string /\
    contains "a"%string c' = Done false c' /\
    at_ "a"%string c' = Fail OutOfRange.
Proof.
  assert (0 < 2 <= npos) as Hc by (by vm_compute).
  assert (moved_from "a"%string <> "a"%string) as Hne by discriminate.
  split; [exact Hc|]. split; [exact Hne|].
  exact (emplace_keys_by_what_is_left EmptyString "000"%char 2 "a"%string "x"%char Hc Hne).
Defined.

Lemma ordered_cache_observations_witness :
  wf two_cache /\
  represents two_cache [(2%Z, "b"%char); (1%Z, "a"%char)] /\
  (keys 0%Z two_cache = Done [2%Z; 1%Z] two_cache /\
   contents two_cache = list_to_map [(2%Z, "b"%char); (1%Z, "a"%char)] /\
   size two_cache = 2 /\
   NoDup [2%Z; 1%Z]).
Proof.
  split; [exact two_cache_wf|]. split; [exact two_cache_represents|].
  exact (ordered_cache_observations 0%Z two_cache _ two_cache_wf two_cache_represents).
Defined.

Lemma emplace_evicts_the_last_witness :
  (forall k : Z, moved_from k = k) /\
  wf two_cache /\
  represents two_cache [(2%Z, "b"%char); (1%Z, "a"%char)] /\
  (size two_cache < capacity_ two_cache \/ 2 <= capacity_ two_cache) /\
  (3%Z ∉ [2%Z; 1%Z]) /\
  exists c', emplace 3%Z "c"%char two_cache = Done tt c' /\ wf c' /\
             capacity_ c' = capacity_ two_cache /\
             represents c' [(3%Z, "c"%char); (2%Z, "b"%char)].
Proof.
  assert (size two_cache < capacity_ two_cache \/ 2 <= capacity_ two_cache) as Hc
    by (right; by vm_compute).
  assert (3%Z ∉ [2%Z; 1%Z]) as Hk by (apply not_in_list; by vm_compute).
  split; [exact int_moved_copy|].
  split; [exact two_cache_wf|]. split; [exact two_cache_represents|].
  split; [exact Hc|]. split; [exact Hk|].
  exact (emplace_evicts_the_last int_moved_copy 3%Z "c"%char two_cache _
           two_cache_wf two_cache_represents Hc Hk).
Defined.

Lemma emplace_only_is_fifo_witness :
  (forall k : Z, moved_from k = k) /\
  2 <= 2 <= npos /\ NoDup [1%Z; 2%Z; 3%Z] /\
  exists c', emplace_all three_entries (create 0%Z "000"%char 2) = Done tt c' /\
    size c' = 2 /\
    keys 0%Z c' = Done [3%Z; 2%Z] c' /\
    contents c' = list_to_map [(3%Z, "c"%char); (2%Z, "b"%char)].
Proof.
  assert (2 <= 2 <= npos) as Hc by (by vm_compute).
  assert (NoDup [1%Z; 2%Z; 3%Z]) as HN by (apply NoDup_list; by vm_compute).
  split; [exact int_moved_copy|]. split; [exact Hc|]. split; [exact HN|].
  exact (emplace_only_is_fifo 0%Z "000"%char int_moved_copy 2 three_entries Hc HN).
Defined.

Lemma emplace_into_small_full_cache_faults_witness :
  wf one_full /\ represents one_full [(1%Z, "a"%char)] /\
  size one_full = capacity_ one_full /\ capacity_ one_full <= 1 /\
  (2%Z ∉ [1%Z]) /\
  emplace 2%Z "b"%char one_full = Fail BadIndex.
Proof.
  assert (size one_full = capacity_ one_full) as Hf by (by vm_compute).
  assert (capacity_ one_full <= 1) as Hc by (by vm_compute).
  assert (2%Z ∉ [1%Z]) as Hk by (apply not_in_list; by vm_compute).
  split; [exact (proj1 one_full_represents)|].
  split; [exact (proj2 one_full_represents)|].
  split; [exact Hf|]. split; [exact Hc|]. split; [exact Hk|].
  exact (emplace_into_small_full_cache_faults 2%Z "b"%char one_full _
           (proj1 one_full_represents) (proj2 one_full_represents) Hf Hc Hk).
Defined.

Lemma lookup_behind_the_head_unlinks_witness :
  wf three_cache /\
  represents three_cache [(3%Z, "c"%char); (2%Z, "b"%char); (1%Z, "a"%char)] /\
  exists c' x,
    try_get 1%Z three_cache = Done (Some x) c' /\
    keys 0%Z c' = Done [1%Z; 3%Z; 0%Z] c'.
Proof.
  split; [exact (proj1 three_cache_represents)|].
  split; [exact (proj2 three_cache_represents)|].
  exact (lookup_behind_the_head_unlinks 0%Z three_cache _ 1%nat 1%Z "a"%char 3%Z "c"%char
           (proj1 three_cache_represents) (proj2 three_cache_represents)
           eq_refl eq_refl).
Defined.

Lemma iteration_visits_every_entry_once_witness :
  (forall k : Z, moved_from k = k) /\
  reachable 0%Z "000"%char two_cache /\
  exists its,
    begin_end two_cache = Done its two_cache /\
    length its = N.to_nat (size two_cache) /\
    NoDup (key <$> its) /\
    list_to_map ((fun it => (key it, value it)) <$> its) = contents two_cache.
Proof.
  split; [exact int_moved_copy|]. split; [exact two_cache_reachable|].
  exact (iteration_visits_every_entry_once 0%Z "000"%char int_moved_copy two_cache
           two_cache_reachable).
Defined.

End LRUFacts.

(** ** Parser *)

Module ParserFacts.
Import VTParser ParserSpec.

Lemma State_eqb_eq a b : State.eqb a b = true <-> a = b.
Proof. destruct a, b; vm_compute; split; congruence. Qed.

Lemma State_eqb_neq a b : State.eqb a b = false <-> a <> b.
Proof. rewrite <- State_eqb_eq. destruct (State.eqb a b); split; congruence. Qed.

Lemma is_undefined_true a : Action.is_undefined a = true <-> a = Action.Undefined.
Proof. destruct a; simpl; split; congruence. Qed.

Lemma after_nil p : after p (state_ p) [] = p.
Proof. destruct p. unfold after. simpl. by rewrite app_nil_r. Qed.

Lemma after_after p s1 e1 s2 e2 :
  after (after p s1 e1) s2 e2 = after p s2 (e1 ++ e2).
Proof. unfold after. simpl. by rewrite app_assoc. Qed.

Lemma emit_after e p : emit e p = Done tt (after p (state_ p) [e]).
Proof. reflexivity. Qed.

Lemma set_state_after s p : set_state s p = Done tt (after p s []).
Proof. unfold set_state, modify, after. by rewrite app_nil_r. Qed.

(** [handle] makes the listener call of its action, if it has one. *)
Lemma handle_after a ch p :
  handle a ch p = Done tt (after p (state_ p) (calls a ch)).
Proof.
  unfold handle, calls. destruct (listener_call a ch).
  - apply emit_after.
  - by rewrite after_nil.
Qed.

Lemma bind_eq {S A B} (m : M S A) (k : A -> M S B) s a s' :
  m s = Done a s' -> bind m k s = k a s'.
Proof. unfold bind. by intros ->. Qed.

Lemma calls_at_most_one a ch : (length (calls a ch) <= 1)%nat.
Proof. unfold calls. destruct (listener_call a ch); simpl; lia. Qed.

(** The body of [dispatch], with the state read. *)
Lemma dispatch_unfold table ch p :
  dispatch table ch p =
  (if negb (State.eqb (transitions table (state_ p) ch) State.Undefined) then
     handle (exitEvents table (state_ p)) ch ;;;
     handle (events table (state_ p) ch) ch ;;;
     set_state (transitions table (state_ p) ch) ;;;
     handle (entryEvents table (transitions table (state_ p) ch)) ch
   else if negb (Action.is_undefined (events table (state_ p) ch))
        then handle (events table (state_ p) ch) ch
        else emit (error (state_ p) ch)) p.
Proof. reflexivity. Qed.

(** The three listener calls of a transition, in the order made. *)
Lemma dispatch_transition table ch p t :
  (handle (exitEvents table (state_ p)) ch ;;;
   handle (events table (state_ p) ch) ch ;;;
   set_state t ;;;
   handle (entryEvents table t) ch) p =
  Done tt (after p t (calls (exitEvents table (state_ p)) ch
                      ++ calls (events table (state_ p) ch) ch
                      ++ calls (entryEvents table t) ch)).
Proof.
  rewrite (bind_eq _ _ _ _ _ (handle_after _ _ _)).
  rewrite (bind_eq _ _ _ _ _ (handle_after _ _ _)).
  rewrite (bind_eq _ _ _ _ _ (set_state_after _ _)).
  rewrite handle_after. simpl.
  by rewrite !after_after.
Qed.

(** C1: a byte for which the table has a transition makes the parser
    call the listener with the exit action of the current state, then
    the action of the transition, then the entry action of the new
    state (each only if there is one), and puts it in the new state; a
    byte with no transition but with an action in the current state
    makes it call that action only; any other byte makes it call
    [error].  This holds of any table, the parser's own included. *)
Theorem dispatch_exit_event_entry table p ch :
  let s := state_ p in
  let t := transitions table s ch in
  let a := events table s ch in
  (t <> State.Undefined ->
   dispatch table ch p =
   Done tt (after p t (calls (exitEvents table s) ch ++ calls a ch
                             ++ calls (entryEvents table t) ch))) /\
  (t = State.Undefined -> a <> Action.Undefined ->
   dispatch table ch p = Done tt (after p s (calls a ch))) /\
  (t = State.Undefined -> a = Action.Undefined ->
   dispatch table ch p = Done tt (after p s [error s ch])).
Proof.
  intros s t a. rewrite dispatch_unfold. fold s t a.
  split; [|split].
  - intros Ht%State_eqb_neq. rewrite Ht. simpl. apply dispatch_transition.
  - intros Ht%State_eqb_eq Ha. rewrite Ht. simpl.
    destruct (Action.is_undefined a) eqn:Hu.
    + by apply is_undefined_true in Hu.
    + apply handle_after.
  - intros Ht%State_eqb_eq Ha%is_undefined_true. rewrite Ht, Ha. simpl.
    apply emit_after.
Qed.

(** The same as one equation, for the parser's table. *)
Lemma dispatch_step p ch :
  dispatch get ch p =
  Done tt (after p (step_state (state_ p) ch) (step_events (state_ p) ch)).
Proof.
  rewrite dispatch_unfold. unfold step_state, step_events.
  destruct (State.eqb (transitions get (state_ p) ch) State.Undefined);
    cbv beta iota delta [negb].
  - destruct (Action.is_undefined (events get (state_ p) ch));
      cbv beta iota delta [negb].
    + apply emit_after.
    + apply handle_after.
  - apply dispatch_transition.
Qed.

(** Enumerating states and bytes. *)
Lemma State_all_complete s : In s State.all.
Proof. destruct s; simpl; tauto. Qed.

Lemma all_bytes_complete b : In b all_bytes.
Proof.
  apply list_elem_of_In, list_elem_of_omap. exists (Byte.to_N b). split.
  - apply list_elem_of_In, in_map_iff. exists (N.to_nat (Byte.to_N b)). split.
    + apply N2Nat.id.
    + apply in_seq. pose proof (Byte.to_N_bounded b). lia.
  - apply Byte.of_to_N.
Qed.

(** The table keeps the OSC bookkeeping: checked on all 17 x 256
    pairs. *)
Lemma osc_step_ok_all s ch : osc_step_ok s ch = true.
Proof.
  assert (forallb (fun s => forallb (osc_step_ok s) all_bytes) State.all = true) as Hall
    by (vm_compute; reflexivity).
  rewrite forallb_forall in Hall. specialize (Hall s (State_all_complete s)).
  rewrite forallb_forall in Hall. apply Hall, all_bytes_complete.
Qed.

Lemma osc_track_app open e1 e2 :
  osc_track open (e1 ++ e2) = osc_track open e1 ≫= fun o => osc_track o e2.
Proof.
  revert open. induction e1 as [|e e1 IH]; intros open; [done|].
  destruct e; simpl; try apply IH; destruct open; simpl; try done; apply IH.
Qed.

Lemma osc_inv_step p ch :
  osc_inv p -> osc_inv (after p (step_state (state_ p) ch) (step_events (state_ p) ch)).
Proof.
  unfold osc_inv, after. simpl. intros Hp. rewrite osc_track_app, Hp. simpl.
  pose proof (osc_step_ok_all (state_ p) ch) as Hok. unfold osc_step_ok in Hok.
  destruct (osc_track (is_osc (state_ p)) (step_events (state_ p) ch)) as [o|];
    [|discriminate Hok].
  by apply eqb_prop in Hok as ->.
Qed.

Lemma osc_inv_quiet p evs :
  osc_inv p ->
  forallb (fun e => negb (is_startOSC e) && negb (is_dispatchOSC e)) evs = true ->
  osc_inv (after p (state_ p) evs).
Proof.
  unfold osc_inv, after. simpl. intros Hp Hq. rewrite osc_track_app, Hp. simpl.
  generalize (is_osc (state_ p)). induction evs as [|e evs IH]; intros o; [done|].
  simpl in Hq. apply andb_prop in Hq as [He Hq]. destruct e; simpl in *; try done; by apply IH.
Qed.

(** Without a [startOSC], a trace holds one [dispatchOSC] if it closes
    a waiting [startOSC], and none otherwise. *)
Lemma osc_track_no_start mid : forall o o',
  forallb (fun e => negb (is_startOSC e)) mid = true ->
  osc_track o mid = Some o' ->
  length (List.filter is_dispatchOSC mid) = (if o && negb o' then 1 else 0)%nat /\
  (o = false -> o' = false).
Proof.
  induction mid as [|e mid IH]; intros o o' Hns Ht.
  - simpl in Ht. injection Ht as <-. by destruct o.
  - simpl in Hns. apply andb_prop in Hns as [He Hns].
    destruct e; simpl in *; try discriminate He; try (by apply IH).
    destruct o; [|discriminate Ht].
    destruct (IH _ _ Hns Ht) as [Hlen Hf]. rewrite (Hf eq_refl) in *.
    simpl in *. by rewrite Hlen.
Qed.

(** A trace that [osc_track] accepts has every [startOSC] matched. *)
Lemma osc_track_matched o evs b :
  osc_track o evs = Some b -> osc_matched evs.
Proof.
  intros Ht pre mid post -> Hns.
  rewrite osc_track_app in Ht.
  destruct (osc_track o pre) as [o1|]; [|discriminate Ht]. simpl in Ht.
  destruct o1; [discriminate Ht|].
  rewrite osc_track_app in Ht.
  destruct (osc_track true mid) as [o2|] eqn:Hmid; [|discriminate Ht]. simpl in Ht.
  destruct o2; [discriminate Ht|].
  by destruct (osc_track_no_start mid true false Hns Hmid) as [-> _].
Qed.

Section Scanner.
Variable scan : list byte -> nat -> nat.
Hypothesis scan_ok : scanner_ok scan.

(** One iteration on a non-empty input returns, leaves less input
    and keeps the invariant. *)
Lemma iteration_spec input p :
  input <> [] -> osc_inv p ->
  exists rest p',
    iteration scan input p = Done rest p' /\
    (length rest < length input)%nat /\
    osc_inv p' /\ maxCharCount p' = maxCharCount p.
Proof.
  intros Hne Hp. unfold iteration. unfold bind at 1. unfold gets at 1.
  unfold bind at 1. unfold gets at 1.
  destruct (scan_ok input (maxCharCount p)) as [Hlen Hbud].
  destruct (State.eqb (state_ p) State.Ground && (0 <? scan input (maxCharCount p))%nat)
    eqn:Hfast.
  - apply andb_prop in Hfast as [Hg%State_eqb_eq Hpos%Nat.ltb_lt].
    apply Nat.leb_le in Hlen as Hlen'. apply Nat.leb_le in Hbud as Hbud'.
    unfold bind at 1. rewrite Hlen'. simpl.
    unfold bind at 1. rewrite Hbud'. simpl.
    unfold bind at 1. rewrite emit_after.
    set (n := scan input (maxCharCount p)) in *.
    set (p1 := after p (state_ p) [print_text (take n input) n]).
    assert (osc_inv p1) as Hp1 by (by apply osc_inv_quiet).
    assert (length (drop n input) < length input)%nat as Hdrop
      by (rewrite length_drop; lia).
    destruct (drop n input) as [|b rest] eqn:Hd.
    { exists [], p1. repeat split; try done. }
    assert (exists r' p',
               (if Byte.eqb b x0a then emit (execute b);;; ret rest
                else ret (b :: rest)) p1 = Done r' p' /\
               (length r' <= length (b :: rest))%nat /\
               osc_inv p' /\ maxCharCount p' = maxCharCount p) as Hlf.
    { destruct (Byte.eqb b x0a) eqn:Hb.
      - exists rest, (after p1 (state_ p1) [execute b]). repeat split.
        + simpl. lia.
        + by apply osc_inv_quiet.
      - exists (b :: rest), p1. repeat split; try done. }
    destruct Hlf as (r' & p' & E & Hl & Hi & Hm).
    exists r', p'. rewrite E. repeat split; try done. lia.
  - destruct input as [|ch rest]; [done|].
    unfold bind. rewrite dispatch_step. simpl.
    eexists _, _. repeat split.
    + lia.
    + by apply osc_inv_step.
Qed.

Lemma parse_loop_spec fuel : forall input p,
  input <> [] -> (length input <= fuel)%nat -> osc_inv p ->
  exists p', parse_loop scan fuel input p = Done tt p' /\
             osc_inv p' /\ maxCharCount p' = maxCharCount p.
Proof.
  induction fuel as [|fuel IH]; intros input p Hne Hlen Hp.
  - destruct input; [done|simpl in Hlen; lia].
  - destruct (iteration_spec input p Hne Hp) as (rest & p1 & E & Hl & Hp1 & Hm).
    simpl. unfold bind. rewrite E.
    destruct rest as [|b rest]; [by exists p1|].
    destruct (IH (b :: rest) p1) as (p' & E' & Hp' & Hm'); [done|lia|done|].
    exists p'. repeat split; try done. congruence.
Qed.

(** [parseFragment] returns on every non-empty fragment. *)
Lemma parseFragment_spec data p :
  data <> [] -> osc_inv p ->
  exists p', parseFragment scan data p = Done tt p' /\
             osc_inv p' /\ maxCharCount p' = maxCharCount p.
Proof. intros Hne Hp. apply parse_loop_spec; [done|lia|done]. Qed.

Lemma feed_spec fragments : forall p,
  Forall (fun data => data <> []) fragments -> osc_inv p ->
  exists p', feed scan fragments p = Done tt p' /\ osc_inv p'.
Proof.
  induction fragments as [|data more IH]; intros p Hne Hp.
  - by exists p.
  - inversion Hne as [|? ? Hd Hmore]; subst.
    destruct (parseFragment_spec data p Hd Hp) as (p1 & E & Hp1 & _).
    destruct (IH p1 Hmore Hp1) as (p' & E' & Hp').
    exists p'. simpl. unfold bind. by rewrite E.
Qed.

(** C6: whatever bytes are fed to a parser, in whatever non-empty
    fragments, the parser returns from each of them, and in the calls
    it has made every [startOSC] is followed by exactly one
    [dispatchOSC] before the next [startOSC]; moreover no
    [dispatchOSC] comes without a [startOSC] waiting for it, and a
    [startOSC] is still waiting at the end exactly when the parser is
    in [OSC_String].  A parser in [OSC_String] that receives the byte
    0x07 goes to [Ground] and calls [dispatchOSC], and nothing else. *)
Theorem startOSC_matched_by_dispatchOSC :
  (forall budget fragments,
     Forall (fun data => data <> []) fragments ->
     exists p', feed scan fragments (initial budget) = Done tt p' /\
                osc_matched (eventListener_ p') /\
                osc_track false (eventListener_ p') = Some (is_osc (state_ p'))) /\
  (forall p, state_ p = State.OSC_String ->
             parseFragment scan [x07] p = Done tt (after p State.Ground [dispatchOSC])).
Proof.
  split.
  - intros budget fragments Hne.
    destruct (feed_spec fragments (initial budget) Hne) as (p' & E & Hp'); [done|].
    exists p'. split; [done|]. split; [|done]. by eapply osc_track_matched.
  - intros p Hs. unfold parseFragment. simpl. unfold iteration.
    unfold bind at 1. unfold bind at 1. unfold gets at 1.
    unfold bind at 1. unfold gets at 1. rewrite Hs. simpl.
    unfold bind at 1. rewrite dispatch_step, Hs. reflexivity.
Qed.
End Scanner.

Lemma scan_printable_ok : scanner_ok scan_printable.
Proof.
  intros chunk. induction chunk as [|b rest IH]; intros budget; simpl.
  - destruct budget; lia.
  - destruct budget as [|budget]; [lia|].
    destruct ((32 <=? Byte.to_N b) && (Byte.to_N b <=? 127)); [|lia].
    specialize (IH budget). lia.
Qed.

Lemma startOSC_matched_by_dispatchOSC_witness :
  scanner_ok scan_printable /\
  ((forall budget fragments,
      Forall (fun data => data <> []) fragments ->
      exists p', feed scan_printable fragments (initial budget) = Done tt p' /\
                 osc_matched (eventListener_ p') /\
                 osc_track false (eventListener_ p') = Some (is_osc (state_ p'))) /\
   (forall p, state_ p = State.OSC_String ->
              parseFragment scan_printable [x07] p
              = Done tt (after p State.Ground [dispatchOSC]))).
Proof.
  split; [exact scan_printable_ok|].
  exact (startOSC_matched_by_dispatchOSC scan_printable scan_printable_ok).
Defined.

(** The table, row [OSC_String], column 0x07. *)
Example osc_bel_entry :
  transitions get State.OSC_String x07 = State.Ground /\
  exitEvents get State.OSC_String = Action.OSC_End /\
  events get State.OSC_String x07 = Action.Undefined /\
  entryEvents get State.Ground = Action.Undefined.
Proof. vm_compute. repeat split. Qed.

(** An OSC string ended by BEL, then text, fed in two fragments. *)
Example osc_bel_run :
  feed scan_printable [[x1b; x5d; x30; x3b]; [x68; x07; x41]] (initial 80)
  = Done tt (mkParser State.Ground 80
               [clear; startOSC; putOSC x30; putOSC x3b; putOSC x68;
                dispatchOSC; print_text [x41] 1]).
Proof. vm_compute. reflexivity. Qed.

Lemma dispatch_exit_event_entry_witness :
  transitions get State.DCS_PassThrough x1b <> State.Undefined /\
  dispatch get x1b (mkParser State.DCS_PassThrough 80 [])
  = Done tt (mkParser State.Escape 80 [unhook; clear]).
Proof.
  split; [by vm_compute|].
  apply (proj1 (dispatch_exit_event_entry get (mkParser State.DCS_PassThrough 80 []) x1b)).
  by vm_compute.
Defined.

(** *** The runs of the parser *)

Lemma state_after p s evs : state_ (after p s evs) = s.
Proof. reflexivity. Qed.

Section Runs.
Variable scan : list byte -> nat -> nat.
Variable is_text : list byte -> Prop.
Hypothesis scan_ok : scanner_ok scan.
Hypothesis scan_text : scanner_text scan is_text.

Lemma run_app s b1 s1 e1 b2 s2 e2 :
  run is_text s b1 s1 e1 -> run is_text s1 b2 s2 e2 ->
  run is_text s (b1 ++ b2) s2 (e1 ++ e2).
Proof.
  intros R1 R2. induction R1 as [s|s ch rest s' evs R IH|text rest s' evs Hne Ht R IH
                                 |text rest s' evs Hne Ht R IH].
  - done.
  - rewrite <- (app_assoc (step_events s ch)). simpl. apply run_byte. auto.
  - rewrite <- (app_assoc text). simpl. apply run_text; auto.
  - rewrite <- (app_assoc text). simpl. apply run_text_lf; auto.
Qed.

Lemma run_text_only text n :
  text <> [] -> is_text text -> length text = n ->
  run is_text State.Ground text State.Ground [print_text text n].
Proof.
  intros Hne Ht <-. rewrite <- (app_nil_r text) at 1.
  apply run_text; [done..|constructor].
Qed.

(** One iteration of the loop consumes a non-empty prefix of its
    input, as one step of a run. *)
Lemma iteration_run input p :
  input <> [] ->
  exists rest consumed s' evs,
    iteration scan input p = Done rest (after p s' evs) /\
    input = consumed ++ rest /\ consumed <> [] /\
    run is_text (state_ p) consumed s' evs.
Proof.
  intros Hne. unfold iteration. unfold bind at 1. unfold gets at 1.
  unfold bind at 1. unfold gets at 1.
  destruct (scan_ok input (maxCharCount p)) as [Hlen Hbud].
  pose proof (scan_text input (maxCharCount p)) as Htext.
  destruct (State.eqb (state_ p) State.Ground && (0 <? scan input (maxCharCount p))%nat)
    eqn:Hfast.
  - apply andb_prop in Hfast as [Hg%State_eqb_eq Hpos%Nat.ltb_lt].
    apply Nat.leb_le in Hlen as Hlen'. apply Nat.leb_le in Hbud as Hbud'.
    unfold bind at 1. rewrite Hlen'. simpl.
    unfold bind at 1. rewrite Hbud'. simpl.
    unfold bind at 1. rewrite emit_after.
    set (n := scan input (maxCharCount p)) in *.
    assert (length (take n input) = n) as Hn by (rewrite length_take; lia).
    assert (take n input <> []) as Htne by (intros E; rewrite E in Hn; simpl in Hn; lia).
    pose proof (take_drop n input) as Hsplit.
    rewrite Hg in *.
    remember (take n input) as text eqn:Htx. clear Htx.
    destruct (drop n input) as [|b rest] eqn:Hd.
    + exists [], text, State.Ground, [print_text text n].
      split; [done|]. split; [done|]. split; [done|].
      by apply run_text_only.
    + destruct (Byte.eqb b x0a) eqn:Hb.
      * apply Byte.byte_dec_bl in Hb. subst b.
        exists rest, (text ++ [x0a]), State.Ground, [print_text text n; execute x0a].
        split; [|split; [|split]].
        -- unfold bind. rewrite emit_after. unfold ret. by rewrite after_after.
        -- by rewrite <- app_assoc.
        -- by destruct text.
        -- rewrite <- Hn. apply run_text_lf; [done..|constructor].
      * exists (b :: rest), text, State.Ground, [print_text text n].
        split; [done|]. split; [done|]. split; [done|].
        by apply run_text_only.
  - destruct input as [|ch rest]; [done|].
    unfold bind. rewrite dispatch_step. unfold ret.
    exists rest, [ch], (step_state (state_ p) ch), (step_events (state_ p) ch).
    split; [done|]. split; [done|]. split; [done|].
    rewrite <- (app_nil_r (step_events _ _)). apply run_byte. constructor.
Qed.

Lemma parse_loop_run fuel : forall input p,
  input <> [] -> (length input <= fuel)%nat ->
  exists s' evs,
    parse_loop scan fuel input p = Done tt (after p s' evs) /\
    run is_text (state_ p) input s' evs.
Proof.
  induction fuel as [|fuel IH]; intros input p Hne Hlen.
  - destruct input; [done|simpl in Hlen; lia].
  - destruct (iteration_run input p Hne) as (rest & consumed & s1 & e1 & E & -> & Hc & R1).
    simpl. unfold bind. rewrite E.
    destruct rest as [|b rest].
    + exists s1, e1. by rewrite app_nil_r.
    + rewrite length_app in Hlen.
      assert (length consumed <> 0)%nat by (by destruct consumed).
      destruct (IH (b :: rest) (after p s1 e1)) as (s' & e2 & E' & R2); [done|lia|].
      rewrite E', after_after. exists s', (e1 ++ e2). split; [done|].
      eapply run_app; eauto.
Qed.

Lemma feed_run fragments : forall p,
  Forall (fun data => data <> []) fragments ->
  exists s' evs,
    feed scan fragments p = Done tt (after p s' evs) /\
    run is_text (state_ p) (concat fragments) s' evs.
Proof.
  induction fragments as [|data more IH]; intros p Hne.
  - exists (state_ p), []. rewrite after_nil. split; [done|constructor].
  - inversion Hne as [|? ? Hd Hmore]; subst.
    destruct (parse_loop_run (S (length data)) data p Hd) as (s1 & e1 & E1 & R1); [lia|].
    destruct (IH (after p s1 e1) Hmore) as (s' & e2 & E2 & R2).
    exists s', (e1 ++ e2). simpl. unfold bind. unfold parseFragment. rewrite E1, E2.
    rewrite after_after. split; [done|]. eapply run_app; eauto.
Qed.
End Runs.

(** A run keeps whatever a monitor checks, if each step of the table
    does and the text printed in [Ground] is allowed there. *)
Section Monitored.
Context {St : Type}.
Variable mon : St -> Event -> option St.
Variable ok : State.t -> St -> Prop.
Variable is_text : list byte -> Prop.
Hypothesis step_ok : forall s ch st,
  ok s st ->
  exists st', run_monitor mon st (step_events s ch) = Some st' /\
              ok (step_state s ch) st'.
Hypothesis text_ok : forall st text n,
  ok State.Ground st -> mon st (print_text text n) = Some st.
Hypothesis lf_ok : forall st,
  ok State.Ground st -> mon st (execute x0a) = Some st.

Lemma run_monitor_app st e1 e2 :
  run_monitor mon st (e1 ++ e2) =
  run_monitor mon st e1 ≫= fun st' => run_monitor mon st' e2.
Proof.
  revert st. induction e1 as [|e e1 IH]; intros st; [done|].
  simpl. destruct (mon st e); [apply IH|done].
Qed.

Lemma run_monitored s bytes s' evs :
  run is_text s bytes s' evs ->
  forall st, ok s st ->
  exists st', run_monitor mon st evs = Some st' /\ ok s' st'.
Proof.
  induction 1 as [s|s ch rest s' evs R IH|text rest s' evs Hne Ht R IH
                  |text rest s' evs Hne Ht R IH]; intros st Hok.
  - by exists st.
  - destruct (step_ok _ ch _ Hok) as (st1 & E1 & Hok1).
    destruct (IH _ Hok1) as (st' & E' & Hok').
    exists st'. rewrite run_monitor_app, E1. done.
  - destruct (IH _ Hok) as (st' & E' & Hok').
    exists st'. simpl. by rewrite text_ok.
  - destruct (IH _ Hok) as (st' & E' & Hok').
    exists st'. simpl. by rewrite text_ok, lf_ok.
Qed.
End Monitored.

Lemma for_all_states_bytes (f : State.t -> byte -> bool) :
  forallb (fun s => forallb (f s) all_bytes) State.all = true ->
  forall s ch, f s ch = true.
Proof.
  intros Hall s ch.
  rewrite forallb_forall in Hall. specialize (Hall s (State_all_complete s)).
  rewrite forallb_forall in Hall. apply Hall, all_bytes_complete.
Qed.

Lemma string_step_ok_all s ch : string_step_ok s ch = true.
Proof. apply for_all_states_bytes. vm_compute. reflexivity. Qed.

Lemma sequence_step_ok_all s ch armed : sequence_step_ok s ch armed = true.
Proof.
  destruct armed.
  - apply (for_all_states_bytes (fun s ch => sequence_step_ok s ch true)).
    vm_compute. reflexivity.
  - apply (for_all_states_bytes (fun s ch => sequence_step_ok s ch false)).
    vm_compute. reflexivity.
Qed.

Lemma option_kind_eqb_eq a b : option_kind_eqb a b = true -> a = b.
Proof. destruct a as [[]|], b as [[]|]; simpl; congruence. Qed.

(** X17: control strings are handed to the listener one at a time.
    Whatever bytes are fed to a new parser, in whatever non-empty
    fragments and whatever the text scanner takes, the calls made obey
    this discipline: a string is started ([startOSC], [hook],
    [startAPC], [startPM]) only while none is open; its end
    ([dispatchOSC], [unhook], [dispatchAPC], [dispatchPM]) comes only
    while a string of the same kind is open, and so does its payload
    ([putOSC], [put], [putAPC]); while a string is open nothing else is
    called but [error]; and a string is open at the end exactly when
    the parser is in the state of that string.  The discipline allows
    [putPM] while no string is open, and does not require it:
    [ParserTable::get] gives BEL in [PM_String] both the event
    [PM_Put] and the transition to [Ground], and whether the byte is
    then still handed to [putPM], after [dispatchPM], rests with the
    builders of the table. *)
Theorem control_strings_are_bracketed scan budget fragments :
  scanner_ok scan ->
  Forall (fun data => data <> []) fragments ->
  exists p', feed scan fragments (initial budget) = Done tt p' /\
             run_monitor string_monitor None (eventListener_ p')
             = Some (string_of_state (state_ p')).
Proof.
  intros Hscan Hne.
  destruct (feed_run scan (fun _ => True) Hscan (fun _ _ => I) fragments
              (initial budget) Hne) as (s' & evs & E & R).
  exists (after (initial budget) s' evs). split; [done|].
  assert (forall s ch st, st = string_of_state s ->
            exists st', run_monitor string_monitor st (step_events s ch) = Some st' /\
                        st' = string_of_state (step_state s ch)) as Hstep.
  { intros s ch st ->. pose proof (string_step_ok_all s ch) as Hok.
    unfold string_step_ok in Hok.
    destruct (run_monitor string_monitor (string_of_state s) (step_events s ch)) as [o|];
      [|discriminate Hok].
    exists o. split; [done|]. by apply option_kind_eqb_eq. }
  destruct (fun Ht Hl => run_monitored string_monitor
              (fun s st => st = string_of_state s)
              (fun _ => True) Hstep Ht Hl _ _ _ _ R None eq_refl)
    as (st' & E' & ->); try done; by intros; subst.
Qed.

(** X18: sequences are dispatched from a cleared listener.  Whatever
    bytes are fed to a new parser, every call that hands over an
    intermediate or a parameter ([collect], [collectLeader], [param],
    [paramDigit], [paramSeparator], [paramSubSeparator]) and every
    dispatch ([dispatchESC], [dispatchCSI], [hook]) comes after a
    [clear] with no dispatch in between: nothing is collected into, or
    dispatched from, the state a previous dispatch left behind. *)
Theorem sequences_start_with_clear scan budget fragments :
  scanner_ok scan ->
  Forall (fun data => data <> []) fragments ->
  exists p' armed,
    feed scan fragments (initial budget) = Done tt p' /\
    run_monitor sequence_monitor false (eventListener_ p') = Some armed /\
    (collecting (state_ p') = true -> armed = true).
Proof.
  intros Hscan Hne.
  destruct (feed_run scan (fun _ => True) Hscan (fun _ _ => I) fragments (initial budget) Hne)
    as (s' & evs & E & R).
  assert (forall s ch st, sequence_ok s st = true ->
            exists st', run_monitor sequence_monitor st (step_events s ch) = Some st' /\
                        sequence_ok (step_state s ch) st' = true) as Hstep.
  { intros s ch st Hst. pose proof (sequence_step_ok_all s ch st) as Hok.
    unfold sequence_step_ok in Hok. rewrite Hst in Hok.
    destruct (run_monitor sequence_monitor st (step_events s ch)) as [o|];
      [|discriminate Hok].
    by exists o. }
  destruct (fun Ht Hl => run_monitored sequence_monitor
              (fun s st => sequence_ok s st = true)
              (fun _ => True) Hstep Ht Hl _ _ _ _ R false eq_refl)
    as (st' & E' & Hok); try done.
  exists (after (initial budget) s' evs), st'. split; [done|]. split; [done|].
  simpl. unfold sequence_ok in Hok. intros Hc. by rewrite Hc in Hok.
Qed.

(** X19: [parseFragment] must not be given an empty fragment: its
    [do ... while] loop reads a byte before it tests for the end, so
    with nothing to read it reads past the end of the buffer,
    whatever the state of the parser. *)
Theorem parseFragment_of_nothing_reads_past_the_end scan p :
  scanner_ok scan -> parseFragment scan [] p = Fail BadIndex.
Proof.
  intros Hscan. destruct (Hscan [] (maxCharCount p)) as [Hlen _]. simpl in Hlen.
  unfold parseFragment. simpl. unfold iteration. unfold bind, gets.
  replace (scan [] (maxCharCount p)) with 0%nat by lia.
  by rewrite andb_false_r.
Qed.

Lemma step_state_Ground ch : ch <> x1b -> step_state State.Ground ch = State.Ground.
Proof.
  intros Hne.
  assert (forallb (fun b => Byte.eqb b x1b
                            || State.eqb (step_state State.Ground b) State.Ground)
                  all_bytes = true) as Hall by (vm_compute; reflexivity).
  rewrite forallb_forall in Hall. specialize (Hall ch (all_bytes_complete ch)).
  apply orb_prop in Hall as [Hb|Hs].
  - by apply Byte.byte_dec_bl in Hb.
  - by apply State_eqb_eq.
Qed.

Lemma fold_step_state_text text :
  x1b ∉ text -> fold_left step_state text State.Ground = State.Ground.
Proof.
  induction text as [|b text IH]; intros Hn; [done|].
  simpl. rewrite step_state_Ground.
  - apply IH. intros ?. apply Hn. by right.
  - intros ->. apply Hn. by left.
Qed.

Lemma run_final_state s bytes s' evs :
  run (fun text => x1b ∉ text) s bytes s' evs ->
  s' = fold_left step_state bytes s.
Proof.
  induction 1 as [s|s ch rest s' evs R IH|text rest s' evs Hne Ht R IH
                  |text rest s' evs Hne Ht R IH].
  - done.
  - done.
  - by rewrite fold_left_app, fold_step_state_text.
  - rewrite fold_left_app, fold_step_state_text by done. simpl.
    by rewrite step_state_Ground.
Qed.

(** X20: where the parser ends up depends on the bytes alone.  If the
    scanner never takes the byte ESC as text, the state of the parser
    after a stream is the state the table leads to, byte by byte, from
    [Ground]: it depends neither on how the stream is cut into
    fragments, nor on the column budget, nor on which stretches the
    scanner takes as text. *)
Theorem final_state_depends_on_bytes_only scan budget fragments :
  scanner_ok scan ->
  (forall chunk n, x1b ∉ take (scan chunk n) chunk) ->
  Forall (fun data => data <> []) fragments ->
  exists p', feed scan fragments (initial budget) = Done tt p' /\
             state_ p' = fold_left step_state (concat fragments) State.Ground.
Proof.
  intros Hscan Htext Hne.
  destruct (feed_run scan (fun text => x1b ∉ text) Hscan Htext fragments
              (initial budget) Hne) as (s' & evs & E & R).
  exists (after (initial budget) s' evs). split; [done|].
  by apply run_final_state in R.
Qed.

(** X21: the bytes CAN (0x18), SUB (0x1A) and ESC (0x1B) work in
    every state the same way: the parser makes the exit call of the
    state it is in, if that state has one, and goes to [Ground] on CAN
    and SUB, and on ESC to [Escape], whose entry call is [clear]. *)
Theorem cancel_and_escape_from_anywhere p :
  state_ p <> State.Undefined ->
  dispatch get x18 p = Done tt (after p State.Ground (calls (exitEvents get (state_ p)) x18)) /\
  dispatch get x1a p = Done tt (after p State.Ground (calls (exitEvents get (state_ p)) x1a)) /\
  dispatch get x1b p = Done tt (after p State.Escape
                                      (calls (exitEvents get (state_ p)) x1b ++ [clear])).
Proof.
  intros Hs. rewrite !dispatch_step.
  destruct (state_ p); try done; repeat split; vm_compute; reflexivity.
Qed.

Lemma reports_error_unhandled s ch :
  reports_error s ch = unhandled s ch /\
  (unhandled s ch = true ->
   step_state s ch = s /\ step_events s ch = [error s ch]).
Proof.
  pose proof (for_all_states_bytes
    (fun s ch => Bool.eqb (reports_error s ch) (unhandled s ch)
                 && (negb (unhandled s ch)
                     || (State.eqb (step_state s ch) s
                         && match step_events s ch with
                            | [error s' ch'] => State.eqb s' s && Byte.eqb ch' ch
                            | _ => false
                            end)))) as Hall.
  specialize (Hall ltac:(vm_compute; reflexivity) s ch). cbv beta in Hall.
  apply andb_prop in Hall as [He Hu]. apply eqb_prop in He. split; [done|].
  intros Hun. rewrite Hun in Hu. simpl in Hu.
  apply andb_prop in Hu as [Hst%State_eqb_eq Hev]. split; [done|].
  destruct (step_events s ch) as [|[] [|]]; try discriminate Hev.
  apply andb_prop in Hev as [->%State_eqb_eq ->%Byte.byte_dec_bl]. done.
Qed.

(** X22: which bytes the parser reports as errors.  In [Ground],
    [OSC_String], [PM_String] and [DCS_Ignore] no byte is; in
    [IgnoreUntilST] every byte from 0x20 on is; in [APC_String] the C0
    controls other than BEL, CAN, SUB and ESC are; in
    [DCS_Intermediate] the bytes 0x30 to 0x3F and those from 0x80 on
    are; in every other state exactly the bytes from 0x80 on are.  On
    such a byte the parser calls [error] and nothing else, and stays
    in its state; on any other byte it does not call [error]. *)
Theorem bytes_reported_as_errors p ch :
  state_ p <> State.Undefined ->
  (unhandled (state_ p) ch = true ->
   dispatch get ch p = Done tt (after p (state_ p) [error (state_ p) ch])) /\
  (unhandled (state_ p) ch = false ->
   exists s' evs, dispatch get ch p = Done tt (after p s' evs) /\
                  forall s0 ch0, error s0 ch0 ∉ evs).
Proof.
  intros _. rewrite dispatch_step.
  destruct (reports_error_unhandled (state_ p) ch) as [Hr Hu]. split.
  - intros Hun. destruct (Hu Hun) as [-> ->]. done.
  - intros Hun. eexists _, _. split; [done|].
    intros s0 ch0 Hin. rewrite Hun in Hr. unfold reports_error in Hr.
    apply not_true_iff_false in Hr. apply Hr. apply existsb_exists.
    exists (error s0 ch0). split; [by apply list_elem_of_In|done].
Qed.

(** *** The theorems at work with the sample scanner *)

Lemma scan_printable_no_esc chunk n : x1b ∉ take (scan_printable chunk n) chunk.
Proof.
  revert n. induction chunk as [|b rest IH]; intros n.
  - rewrite take_nil. apply not_elem_of_nil.
  - destruct n as [|n]; [apply not_elem_of_nil|]. simpl.
    destruct ((32 <=? Byte.to_N b) && (Byte.to_N b <=? 127)) eqn:Hb;
      [|apply not_elem_of_nil].
    simpl. apply not_elem_of_cons. split; [|apply IH].
    intros <-. vm_compute in Hb. discriminate.
Qed.

Lemma osc_in_two_fragments :
  Forall (fun data : list byte => data <> []) [[x1b; x5d; x30; x3b]; [x68; x07; x41]].
Proof. by repeat constructor. Qed.

Lemma control_strings_are_bracketed_witness :
  scanner_ok scan_printable /\
  Forall (fun data : list byte => data <> []) [[x1b; x5d; x30; x3b]; [x68; x07; x41]] /\
  exists p',
    feed scan_printable [[x1b; x5d; x30; x3b]; [x68; x07; x41]] (initial 80)
    = Done tt p' /\
    run_monitor string_monitor None (eventListener_ p')
    = Some (string_of_state (state_ p')).
Proof.
  split; [exact scan_printable_ok|]. split; [exact osc_in_two_fragments|].
  exact (control_strings_are_bracketed scan_printable 80 _
           scan_printable_ok osc_in_two_fragments).
Defined.

Lemma csi_in_two_fragments :
  Forall (fun data : list byte => data <> []) [[x1b; x5b; x31]; [x6d]].
Proof. by repeat constructor. Qed.

Lemma sequences_start_with_clear_witness :
  scanner_ok scan_printable /\
  Forall (fun data : list byte => data <> []) [[x1b; x5b; x31]; [x6d]] /\
  exists p' armed,
    feed scan_printable [[x1b; x5b; x31]; [x6d]] (initial 80) = Done tt p' /\
    run_monitor sequence_monitor false (eventListener_ p') = Some armed /\
    (collecting (state_ p') = true -> armed = true).
Proof.
  split; [exact scan_printable_ok|]. split; [exact csi_in_two_fragments|].
  exact (sequences_start_with_clear scan_printable 80 _
           scan_printable_ok csi_in_two_fragments).
Defined.

Lemma parseFragment_of_nothing_reads_past_the_end_witness :
  scanner_ok scan_printable /\
  parseFragment scan_printable [] (initial 80) = Fail BadIndex.
Proof.
  split; [exact scan_printable_ok|].
  exact (parseFragment_of_nothing_reads_past_the_end scan_printable (initial 80)
           scan_printable_ok).
Defined.

Lemma final_state_depends_on_bytes_only_witness :
  scanner_ok scan_printable /\
  (forall chunk n, x1b ∉ take (scan_printable chunk n) chunk) /\
  Forall (fun data : list byte => data <> []) [[x1b; x5b; x31]; [x6d]] /\
  exists p',
    feed scan_printable [[x1b; x5b; x31]; [x6d]] (initial 80) = Done tt p' /\
    state_ p' = fold_left step_state [x1b; x5b; x31; x6d] State.Ground.
Proof.
  split; [exact scan_printable_ok|]. split; [exact scan_printable_no_esc|].
  split; [exact csi_in_two_fragments|].
  exact (final_state_depends_on_bytes_only scan_printable 80 _
           scan_printable_ok scan_printable_no_esc csi_in_two_fragments).
Defined.

Lemma passthrough_is_defined :
  state_ (mkParser State.DCS_PassThrough 80 []) <> State.Undefined.
Proof. discriminate. Qed.

Lemma cancel_and_escape_from_anywhere_witness :
  state_ (mkParser State.DCS_PassThrough 80 []) <> State.Undefined /\
  (dispatch get x18 (mkParser State.DCS_PassThrough 80 [])
   = Done tt (mkParser State.Ground 80 [unhook]) /\
   dispatch get x1a (mkParser State.DCS_PassThrough 80 [])
   = Done tt (mkParser State.Ground 80 [unhook]) /\
   dispatch get x1b (mkParser State.DCS_PassThrough 80 [])
   = Done tt (mkParser State.Escape 80 [unhook; clear])).
Proof.
  split; [exact passthrough_is_defined|].
  exact (cancel_and_escape_from_anywhere (mkParser State.DCS_PassThrough 80 [])
           passthrough_is_defined).
Defined.

Lemma ignoring_is_defined :
  state_ (mkParser State.IgnoreUntilST 80 []) <> State.Undefined.
Proof. discriminate. Qed.

Lemma bytes_reported_as_errors_witness :
  state_ (mkParser State.IgnoreUntilST 80 []) <> State.Undefined /\
  ((unhandled State.IgnoreUntilST x41 = true ->
    dispatch get x41 (mkParser State.IgnoreUntilST 80 [])
    = Done tt (mkParser State.IgnoreUntilST 80 [error State.IgnoreUntilST x41])) /\
   (unhandled State.IgnoreUntilST x41 = false ->
    exists s' evs,
      dispatch get x41 (mkParser State.IgnoreUntilST 80 [])
      = Done tt (after (mkParser State.IgnoreUntilST 80 []) s' evs) /\
      forall s0 ch0, error s0 ch0 ∉ evs)).
Proof.
  split; [exact ignoring_is_defined|].
  exact (bytes_reported_as_errors (mkParser State.IgnoreUntilST 80 []) x41
           ignoring_is_defined).
Defined.

End ParserFacts.

(** ** Locator *)

Module LocatorFacts.
Import Locator LocatorSpec.
Local Open Scope Z_scope.

Lemma not32_zero : not32 0 = 4294967295.
Proof. reflexivity. Qed.

(** Masking a 32-bit value with all 32 bits set changes nothing. *)
Lemma land_ones32 z : 0 <= z < 2 ^ 32 -> Z.land z 4294967295 = z.
Proof.
  intros Hz. change 4294967295 with (Z.ones 32).
  rewrite Z.land_ones by lia. apply Z.mod_small. lia.
Qed.

Section Facts.
Variable button_code : MouseButton.t -> Z.

(** The selected-events mask only ever holds the bits of
    [ButtonDown] and [ButtonUp]. *)
Lemma selectLocatorEvents_mask e b l :
  0 <= _selectedLocatorEvents l <= 3 ->
  0 <= _selectedLocatorEvents (selectLocatorEvents e b l) <= 3.
Proof.
  intros Hl. unfold selectLocatorEvents. simpl.
  assert (_selectedLocatorEvents l = 0 \/ _selectedLocatorEvents l = 1 \/
          _selectedLocatorEvents l = 2 \/ _selectedLocatorEvents l = 3) as Hc by lia.
  destruct Hc as [-> | [-> | [-> | ->]]]; destruct e, b; vm_compute; split; congruence.
Qed.

Lemma reachable_mask l :
  reachable button_code l -> 0 <= _selectedLocatorEvents l <= 3.
Proof.
  induction 1 as [|o l _ IH]; [simpl; lia|].
  destruct o; simpl; try exact IH.
  - by apply selectLocatorEvents_mask.
  - unfold updateMousePress. simpl. destruct (_units l); exact IH.
  - unfold update. destruct (_reportingMode l); simpl; exact IH.
Qed.

(** C10: on every locator a program can hold,
    [selectLocatorEvents(Explicit, b)] changes nothing, whichever
    [b]: [Explicit] is the value 0.  So [reportEventExplicitOnly()]
    is true exactly when neither [reportButtonDownEvents()] nor
    [reportButtonUpEvents()] is. *)
Theorem selecting_Explicit_changes_nothing b l :
  reachable button_code l ->
  selectLocatorEvents Explicit b l = l /\
  (reportEventExplicitOnly l = true <->
   reportButtonDownEvents l = false /\ reportButtonUpEvents l = false).
Proof.
  intros Hm%reachable_mask. split.
  - unfold selectLocatorEvents. destruct l. simpl in *.
    f_equal. destruct b.
    + apply Z.lor_0_r.
    + rewrite not32_zero. apply land_ones32. lia.
  - unfold reportEventExplicitOnly, reportButtonDownEvents, reportButtonUpEvents, truthy.
    assert (_selectedLocatorEvents l = 0 \/ _selectedLocatorEvents l = 1 \/
            _selectedLocatorEvents l = 2 \/ _selectedLocatorEvents l = 3) as Hc by lia.
    destruct Hc as [-> | [-> | [-> | ->]]]; vm_compute;
      (split;
       [ intros E; try discriminate E; by split
       | intros [E1 E2]; try discriminate E1; try discriminate E2; reflexivity ]).
Qed.

(** [update] never touches the reply buffers. *)
Lemma update_keeps_replies button pressed cell pixel l :
  _replyBuffer (update button pressed cell pixel l) = _replyBuffer l /\
  _replyBackBufferIndex (update button pressed cell pixel l) = _replyBackBufferIndex l.
Proof. unfold update. by destruct (_reportingMode l). Qed.

(** C4 (the code departs from the claim): with the locator in
    [Enabled] mode, cell units and [ButtonDown] selected,
    [update(Left, true, (10,5), pixel)] appends nothing: the next
    [fetchReplyAndClear()] returns the empty string, not a report,
    whereas [updateMousePress] on the same locator moved to that
    cell does append a report for event 2 ([LeftButtonDown]). *)
Theorem update_in_Enabled_mode_reports_nothing pixel :
  let l := update MouseButton.Left true (mkCell 10 5) pixel (armed button_code) in
  _reportingMode (armed button_code) = Enabled /\
  _units (armed button_code) = Cells /\
  reportButtonDownEvents (armed button_code) = true /\
  l = armed button_code /\
  fst (fetchReplyAndClear l) = ""%string /\
  fst (fetchReplyAndClear
         (updateMousePress button_code MouseButton.Left true
            (updateMouseMove (mkCell 10 5) pixel (armed button_code))))
  = createReport button_code LeftButtonDown MouseButton.Left 10 5 1.
Proof. repeat split. Qed.

(** C5 (the code departs from the claim): one report is appended to
    a fresh locator.  The first [fetchReplyAndClear()] returns it and
    the second returns the empty string; but the second call has
    switched back to the slot that still holds the report, so the
    slot later reports are appended into is not empty, and a third
    call, with nothing appended in between, returns the report
    again. *)
Theorem fetchReplyAndClear_clears_nothing :
  let report := createReport button_code LeftButtonDown MouseButton.Left 0 0 1 in
  let l0 := updateMousePress button_code MouseButton.Left true (fresh button_code) in
  let '(r1, l1) := fetchReplyAndClear l0 in
  let '(r2, l2) := fetchReplyAndClear l1 in
  let '(r3, l3) := fetchReplyAndClear l2 in
  report <> ""%string /\
  r1 = report /\ r2 = ""%string /\
  peekLocatorReply l2 = report /\
  r3 = report.
Proof.
  simpl. repeat split. unfold createReport, ESC. simpl. discriminate.
Qed.

(** *** Further properties of the locator *)

Lemma append_nil_r (s : string) : (s ++ "")%string = s.
Proof. induction s as [|a s IH]; [done|]. exact (f_equal (String a) IH). Qed.

Lemma append_assoc (s1 s2 s3 : string) :
  ((s1 ++ s2) ++ s3)%string = (s1 ++ (s2 ++ s3))%string.
Proof. induction s1 as [|a s1 IH]; [done|]. exact (f_equal (String a) IH). Qed.

Lemma slot_set_slot i s buffer : slot i (set_slot i s buffer) = s.
Proof. unfold slot, set_slot. by destruct (Z.eqb i 0). Qed.

(** [_replyBackBufferIndex] is always 0 or 1. *)
Lemma reachable_index l :
  reachable button_code l ->
  _replyBackBufferIndex l = 0 \/ _replyBackBufferIndex l = 1.
Proof.
  induction 1 as [|o l _ IH]; [by left|].
  destruct o; simpl; try exact IH.
  - destruct IH as [-> | ->]; [by right|by left].
  - unfold updateMousePress. simpl. destruct (_units l); exact IH.
  - unfold update. destruct (_reportingMode l); simpl; exact IH.
Qed.

(** X23: the two reply slots are only ever swapped.  On every locator
    a program can hold, [fetchReplyAndClear()] returns what
    [peekLocatorReply()] shows and changes neither slot, and two calls
    in a row leave the locator exactly as it was. *)
Theorem fetchReplyAndClear_twice_is_identity l :
  reachable button_code l ->
  fst (fetchReplyAndClear l) = peekLocatorReply l /\
  _replyBuffer (snd (fetchReplyAndClear l)) = _replyBuffer l /\
  snd (fetchReplyAndClear (snd (fetchReplyAndClear l))) = l.
Proof.
  intros Hi%reachable_index. split; [done|]. split; [done|].
  destruct l. simpl in *. by destruct Hi as [-> | ->].
Qed.

Lemma reply_buffers_grow text l :
  exists t0 t1,
    _replyBuffer (reply text l) =
    ((fst (_replyBuffer l) ++ t0)%string, (snd (_replyBuffer l) ++ t1)%string).
Proof.
  unfold reply, set_slot, slot. simpl.
  destruct (Z.eqb (_replyBackBufferIndex l) 0); simpl.
  - exists text, ""%string. by rewrite append_nil_r.
  - exists ""%string, text. by rewrite append_nil_r.
Qed.

Lemma run_op_buffers_grow o l :
  exists t0 t1,
    _replyBuffer (run_op button_code o l) =
    ((fst (_replyBuffer l) ++ t0)%string, (snd (_replyBuffer l) ++ t1)%string).
Proof.
  assert (exists t0 t1, _replyBuffer l =
            ((fst (_replyBuffer l) ++ t0)%string, (snd (_replyBuffer l) ++ t1)%string))
    as Hsame.
  { exists ""%string, ""%string. rewrite !append_nil_r. by destruct (_replyBuffer l). }
  destruct o; simpl; try exact Hsame.
  - unfold updateMousePress.
    destruct (_units _);
      match goal with
      | |- context [reply ?text ?l1] => exact (reply_buffers_grow text l1)
      end.
  - unfold update. destruct (_reportingMode l); exact Hsame.
Qed.

(** X24: nothing is ever taken out of the reply buffers.  Whatever
    operations are run on a locator, [fetchReplyAndClear()] among
    them, each of the two reply slots afterwards starts with what it
    held before. *)
Theorem reply_buffers_only_grow ops l :
  exists t0 t1,
    _replyBuffer (run_ops button_code ops l) =
    ((fst (_replyBuffer l) ++ t0)%string, (snd (_replyBuffer l) ++ t1)%string).
Proof.
  revert l. induction ops as [|o ops IH]; intros l.
  - exists ""%string, ""%string. simpl. rewrite !append_nil_r. by destruct (_replyBuffer l).
  - destruct (IH (run_op button_code o l)) as (t0 & t1 & E).
    destruct (run_op_buffers_grow o l) as (u0 & u1 & E').
    change (run_ops button_code (o :: ops) l)
      with (run_ops button_code ops (run_op button_code o l)).
    rewrite E, E'. simpl.
    exists (u0 ++ t0)%string, (u1 ++ t1)%string. by rewrite !append_assoc.
Qed.

(** X25: the two event flags are selected independently.  On every
    locator a program can hold, selecting or deselecting [ButtonDown]
    makes [reportButtonDownEvents()] return what was selected and
    leaves [reportButtonUpEvents()] as it was, and the same with the
    two exchanged. *)
Theorem event_flags_are_independent b l :
  reachable button_code l ->
  reportButtonDownEvents (selectLocatorEvents ButtonDown b l) = b /\
  reportButtonUpEvents (selectLocatorEvents ButtonDown b l) = reportButtonUpEvents l /\
  reportButtonUpEvents (selectLocatorEvents ButtonUp b l) = b /\
  reportButtonDownEvents (selectLocatorEvents ButtonUp b l) = reportButtonDownEvents l.
Proof.
  intros Hm%reachable_mask.
  unfold reportButtonDownEvents, reportButtonUpEvents, selectLocatorEvents, truthy. simpl.
  assert (_selectedLocatorEvents l = 0 \/ _selectedLocatorEvents l = 1 \/
          _selectedLocatorEvents l = 2 \/ _selectedLocatorEvents l = 3) as Hc by lia.
  destruct Hc as [-> | [-> | [-> | ->]]]; destruct b; vm_compute; repeat split.
Qed.

(** X26: [updateMousePress] reports whatever the configuration: in
    every reporting mode, [Disabled] included, and whichever events
    are selected, it appends one report to the slot
    [peekLocatorReply()] shows, built from the event of the button,
    the button, the position in the units selected, and page 1; the
    other slot, the mode and the selection stay as they are.  For
    [MouseButton::None] the report is [ESC [ 0 & m]. *)
Theorem updateMousePress_reports_in_every_mode button pressed l :
  let l' := updateMousePress button_code button pressed l in
  peekLocatorReply l' =
    (peekLocatorReply l ++
     createReport button_code (makeEvent button pressed) button
       (fst (reported_position l)) (snd (reported_position l)) Page_One)%string /\
  fst (fetchReplyAndClear l') = peekLocatorReply l' /\
  _reportingMode l' = _reportingMode l /\
  _selectedLocatorEvents l' = _selectedLocatorEvents l /\
  (button = MouseButton.None ->
   peekLocatorReply l' = (peekLocatorReply l ++ ESC ++ "[0&m")%string).
Proof.
  assert (peekLocatorReply (updateMousePress button_code button pressed l) =
    (peekLocatorReply l ++
     createReport button_code (makeEvent button pressed) button
       (fst (reported_position l)) (snd (reported_position l)) Page_One)%string) as Hp.
  { unfold peekLocatorReply, updateMousePress, reported_position. simpl.
    destruct (_units l); simpl; by rewrite slot_set_slot. }
  simpl. split; [done|]. split; [done|].
  split; [unfold updateMousePress; simpl; by destruct (_units l)|].
  split; [unfold updateMousePress; simpl; by destruct (_units l)|].
  intros ->. by rewrite Hp.
Qed.

Lemma run_op_mouse_mode o l :
  is_mouse_op o = true ->
  _reportingMode (run_op button_code o l) =
    (match _reportingMode l with
     | EnabledOnce => if is_update o then Disabled else EnabledOnce
     | m => m
     end) /\
  _filterRectangle (run_op button_code o l) = _filterRectangle l.
Proof.
  destruct o; try discriminate; intros _; simpl.
  - by destruct (_reportingMode l).
  - unfold updateMousePress, reply.
    destruct (_units _); simpl; destruct (_reportingMode l); by split.
  - unfold update. destruct (_reportingMode l) eqn:Hm; simpl; rewrite ?Hm; by split.
Qed.

(** X27: what mouse input does to the reporting mode.  Through any
    sequence of [update], [updateMousePress] and [updateMouseMove] the
    mode changes in one case only: a locator enabled for one report
    ([EnabledOnce]) is [Disabled] by the first [update], not by
    [updateMousePress], which is what appends reports.  So a filter
    rectangle, once enabled, stays enabled and unchanged whatever the
    mouse does: it is never used up. *)
Theorem mouse_input_and_the_reporting_mode ops l :
  forallb is_mouse_op ops = true ->
  _reportingMode (run_ops button_code ops l) =
    (match _reportingMode l with
     | EnabledOnce => if existsb is_update ops then Disabled else EnabledOnce
     | m => m
     end) /\
  _filterRectangle (run_ops button_code ops l) = _filterRectangle l /\
  filterRectangleEnabled (run_ops button_code ops l) = filterRectangleEnabled l.
Proof.
  intros Hops.
  assert (_reportingMode (run_ops button_code ops l) =
            (match _reportingMode l with
             | EnabledOnce => if existsb is_update ops then Disabled else EnabledOnce
             | m => m
             end) /\
          _filterRectangle (run_ops button_code ops l) = _filterRectangle l) as [Hm Hr].
  { revert l. induction ops as [|o ops IH]; intros l.
    - simpl. by destruct (_reportingMode l).
    - simpl in Hops. apply andb_prop in Hops as [Ho Hops].
      change (run_ops button_code (o :: ops) l)
        with (run_ops button_code ops (run_op button_code o l)).
      destruct (IH Hops (run_op button_code o l)) as [Hm Hr].
      destruct (run_op_mouse_mode o l Ho) as [Hm1 Hr1].
      rewrite Hm, Hr, Hm1, Hr1. split; [|done]. simpl.
      destruct (_reportingMode l); try done.
      destruct (is_update o); simpl; [done|].
      by destruct (existsb is_update ops). }
  split; [done|]. split; [done|].
  unfold filterRectangleEnabled. rewrite Hm.
  destruct (_reportingMode l); try done. by destruct (existsb is_update ops).
Qed.
End Facts.

Lemma selecting_Explicit_changes_nothing_witness :
  reachable sample_code (armed sample_code) /\
  (selectLocatorEvents Explicit false (armed sample_code) = armed sample_code /\
   (reportEventExplicitOnly (armed sample_code) = true <->
    reportButtonDownEvents (armed sample_code) = false /\
    reportButtonUpEvents (armed sample_code) = false)).
Proof.
  assert (reachable sample_code (armed sample_code)) as Hr.
  { apply (reach_step sample_code (SelectLocatorEvents ButtonDown true)).
    apply (reach_step sample_code (EnableLocatorReporting Cells)).
    apply reach_fresh. }
  split; [exact Hr|].
  exact (selecting_Explicit_changes_nothing sample_code false (armed sample_code) Hr).
Defined.

(** The scenario of the specification with the sample button values:
    what [updateMousePress] would report, and what [update] leaves to
    fetch. *)
Example scenario_report :
  fst (fetchReplyAndClear
         (updateMousePress sample_code MouseButton.Left true
            (updateMouseMove (mkCell 10 5) (mkPixel 0 0) (armed sample_code))))
  = (ESC ++ "[2;1;10;5;1&w")%string /\
  fst (fetchReplyAndClear
         (update MouseButton.Left true (mkCell 10 5) (mkPixel 0 0) (armed sample_code)))
  = ""%string.
Proof. vm_compute. split; reflexivity. Qed.


Lemma armed_reachable : reachable sample_code (armed sample_code).
Proof.
  apply (reach_step sample_code (SelectLocatorEvents ButtonDown true)).
  apply (reach_step sample_code (EnableLocatorReporting Cells)).
  apply reach_fresh.
Defined.

Lemma fetchReplyAndClear_twice_is_identity_witness :
  reachable sample_code (armed sample_code) /\
  (fst (fetchReplyAndClear (armed sample_code)) = peekLocatorReply (armed sample_code) /\
   _replyBuffer (snd (fetchReplyAndClear (armed sample_code)))
   = _replyBuffer (armed sample_code) /\
   snd (fetchReplyAndClear (snd (fetchReplyAndClear (armed sample_code))))
   = armed sample_code).
Proof.
  split; [exact armed_reachable|].
  exact (fetchReplyAndClear_twice_is_identity sample_code (armed sample_code)
           armed_reachable).
Defined.

Lemma event_flags_are_independent_witness :
  reachable sample_code (armed sample_code) /\
  (reportButtonDownEvents (selectLocatorEvents ButtonDown false (armed sample_code))
   = false /\
   reportButtonUpEvents (selectLocatorEvents ButtonDown false (armed sample_code))
   = reportButtonUpEvents (armed sample_code) /\
   reportButtonUpEvents (selectLocatorEvents ButtonUp false (armed sample_code))
   = false /\
   reportButtonDownEvents (selectLocatorEvents ButtonUp false (armed sample_code))
   = reportButtonDownEvents (armed sample_code)).
Proof.
  split; [exact armed_reachable|].
  exact (event_flags_are_independent sample_code false (armed sample_code)
           armed_reachable).
Defined.

Lemma mouse_input_and_the_reporting_mode_witness :
  forallb is_mouse_op
    [UpdateMousePress MouseButton.Left true;
     Update MouseButton.Left true (mkCell 10 5) (mkPixel 0 0)] = true /\
  (_reportingMode
     (run_ops sample_code
        [UpdateMousePress MouseButton.Left true;
         Update MouseButton.Left true (mkCell 10 5) (mkPixel 0 0)]
        (enableFilterRectangle (mkRect 1 1 5 5) (fresh sample_code)))
   = FilterRectangular /\
   _filterRectangle
     (run_ops sample_code
        [UpdateMousePress MouseButton.Left true;
         Update MouseButton.Left true (mkCell 10 5) (mkPixel 0 0)]
        (enableFilterRectangle (mkRect 1 1 5 5) (fresh sample_code)))
   = mkRect 1 1 5 5 /\
   filterRectangleEnabled
     (run_ops sample_code
        [UpdateMousePress MouseButton.Left true;
         Update MouseButton.Left true (mkCell 10 5) (mkPixel 0 0)]
        (enableFilterRectangle (mkRect 1 1 5 5) (fresh sample_code)))
   = true).
Proof.
  split; [reflexivity|].
  exact (mouse_input_and_the_reporting_mode sample_code
           [UpdateMousePress MouseButton.Left true;
            Update MouseButton.Left true (mkCell 10 5) (mkPixel 0 0)]
           (enableFilterRectangle (mkRect 1 1 5 5) (fresh sample_code)) eq_refl).
Defined.

End LocatorFacts.

(** ** Image fragments *)

Module ImageFacts.
Import Images.
Local Open Scope Z_scope.

Lemma CellLocation_eq_spec a b : CellLocation_eq a b = true <-> a = b.
Proof.
  unfold CellLocation_eq. destruct a as [l1 c1], b as [l2 c2]. simpl.
  rewrite andb_true_iff, !Z.eqb_eq. split.
  - by intros [-> ->].
  - intros [= -> ->]. done.
Qed.

(** C8: [a == b] holds exactly when the ids of the underlying images
    are equal and the offsets are equal; [a != b] is its negation. *)
Theorem fragment_eq_iff_id_and_offset a b :
  (ImageFragment_eq a b = true <->
   id (image (rasterizedImage a)) = id (image (rasterizedImage b))
   /\ offset a = offset b) /\
  ImageFragment_ne a b = negb (ImageFragment_eq a b).
Proof.
  split; [|reflexivity].
  unfold ImageFragment_eq.
  by rewrite andb_true_iff, Z.eqb_eq, CellLocation_eq_spec.
Qed.

Section Order.
Variable CellLocation_lt : Locator.CellLocation -> Locator.CellLocation -> bool.
Hypothesis offsets_ordered : orders_offsets CellLocation_lt.

(** X28: [operator<] orders fragments in agreement with [operator==].
    If [operator<] on offsets is a strict order under which unequal
    offsets are ordered, then [operator<] on fragments is one too: no
    fragment is less than itself, less-than is transitive, and of two
    fragments either one is less than the other or they are equal,
    never two of these at once. *)
Theorem fragment_lt_is_a_strict_total_order :
  (forall a, ImageFragment_lt CellLocation_lt a a = false) /\
  (forall a b c, ImageFragment_lt CellLocation_lt a b = true ->
                 ImageFragment_lt CellLocation_lt b c = true ->
                 ImageFragment_lt CellLocation_lt a c = true) /\
  (forall a b, ImageFragment_lt CellLocation_lt a b = true ->
               ImageFragment_lt CellLocation_lt b a = false /\
               ImageFragment_eq a b = false) /\
  (forall a b, ImageFragment_lt CellLocation_lt a b = false ->
               ImageFragment_lt CellLocation_lt b a = false ->
               ImageFragment_eq a b = true).
Proof.
  destruct offsets_ordered as (Hirr & Htr & Htot).
  assert (forall x y, CellLocation_lt x y = true -> CellLocation_lt y x = false) as Hasym.
  { intros x y Hxy. destruct (CellLocation_lt y x) eqn:Hyx; [|done].
    by rewrite <- (Hirr x), (Htr x y x Hxy Hyx). }
  assert (forall x y, CellLocation_lt x y = true -> CellLocation_eq x y = false) as Hne.
  { intros x y Hxy. destruct (CellLocation_eq x y) eqn:He; [|done].
    apply CellLocation_eq_spec in He. subst y. by rewrite Hirr in Hxy. }
  unfold ImageFragment_lt, ImageFragment_eq.
  split; [|split; [|split]].
  - intros a. rewrite Z.ltb_irrefl, Z.eqb_refl, Hirr. done.
  - intros a b c.
    rewrite !orb_true_iff, !andb_true_iff, !Z.ltb_lt, !Z.eqb_eq.
    intros [Hab|[Hab Lab]] [Hbc|[Hbc Lbc]].
    + left. lia.
    + left. lia.
    + left. lia.
    + right. split; [lia|]. eauto.
  - intros a b.
    rewrite orb_true_iff, andb_true_iff, Z.ltb_lt, Z.eqb_eq.
    intros [Hab|[Hab Lab]].
    + split.
      * apply orb_false_iff. split; [apply Z.ltb_ge; lia|].
        apply andb_false_iff. left. apply Z.eqb_neq. lia.
      * apply andb_false_iff. left. apply Z.eqb_neq. lia.
    + split.
      * apply orb_false_iff. split; [apply Z.ltb_ge; lia|].
        apply andb_false_iff. right. by apply Hasym.
      * apply andb_false_iff. right. by apply Hne.
  - intros a b.
    rewrite !orb_false_iff, !andb_false_iff, !Z.ltb_ge, !Z.eqb_neq.
    intros [Hab [Hn|Lab]] [Hba [Hn'|Lba]]; try lia.
    apply andb_true_iff. split; [apply Z.eqb_eq; lia|]. by apply Htot.
Qed.
End Order.

Lemma by_line_then_column_orders : orders_offsets by_line_then_column.
Proof.
  unfold orders_offsets, by_line_then_column, CellLocation_eq.
  split; [|split].
  - intros a. by rewrite !Z.ltb_irrefl, Z.eqb_refl.
  - intros a b c.
    rewrite !orb_true_iff, !andb_true_iff, !Z.ltb_lt, !Z.eqb_eq. lia.
  - intros a b.
    rewrite !orb_false_iff, !andb_false_iff, !Z.ltb_ge, !Z.eqb_neq,
            andb_true_iff, !Z.eqb_eq. lia.
Qed.

Lemma fragment_lt_is_a_strict_total_order_witness :
  orders_offsets by_line_then_column /\
  ((forall a, ImageFragment_lt by_line_then_column a a = false) /\
   (forall a b c, ImageFragment_lt by_line_then_column a b = true ->
                  ImageFragment_lt by_line_then_column b c = true ->
                  ImageFragment_lt by_line_then_column a c = true) /\
   (forall a b, ImageFragment_lt by_line_then_column a b = true ->
                ImageFragment_lt by_line_then_column b a = false /\
                ImageFragment_eq a b = false) /\
   (forall a b, ImageFragment_lt by_line_then_column a b = false ->
                ImageFragment_lt by_line_then_column b a = false ->
                ImageFragment_eq a b = true)).
Proof.
  split; [exact by_line_then_column_orders|].
  exact (fragment_lt_is_a_strict_total_order by_line_then_column
           by_line_then_column_orders).
Defined.

End ImageFacts.
